(** * snipit-vscode: the client-side cryptographic core and its callers

    A shallow embedding of [src/utils/encryption.ts] and of the two
    functions of [src/api/snipit.ts] that build a request and parse a link.

    The TypeScript code is a thin layer over the Node.js runtime:
    [Buffer], [crypto.createCipheriv], [crypto.pbkdf2Sync], [URL].  The
    functions of the repository are transcribed line by line; the runtime
    primitives they call are modelled from their published definitions
    (RFC 4648 for base64, the WHATWG encoding standard for UTF-8,
    FIPS 197 for AES, NIST SP 800-38D for GCM, FIPS 180-4 for SHA-256,
    RFC 2104 for HMAC, RFC 8018 for PBKDF2) and checked against the
    known-answer vectors of those documents. *)

From Stdlib Require Import NArith ZArith List String Ascii Bool Lia ZifyNat.
From Stdlib Require Import Strings.Byte.
Import ListNotations.

Local Abbreviation length := List.length.
Local Open Scope N_scope.
Local Open Scope list_scope.

(* ================================================================== *)
(** * Runtime values *)
(* ================================================================== *)

(** A Node [Buffer] is a sequence of octets. *)
Definition Buffer := list byte.

(** A JavaScript string is a sequence of UTF-16 code units.  Every value
    the runtime can build is below [2^16]; see [is_string]. *)
Definition JSString := list N.

Definition is_string (s : JSString) : Prop := Forall (fun c => c < 65536) s.

(** String literals of the source, as code units. *)
Definition js (s : string) : JSString :=
  map (fun a => N_of_ascii a) (list_ascii_of_string s).

(** Octet <-> number.  [byte_of_N] truncates like a store into a
    [uint8_t]. *)
Definition N_of_byte (b : byte) : N := Byte.to_N b.

Definition byte_of_N (n : N) : byte :=
  match Byte.of_N (n mod 256) with
  | Some b => b
  | None => x00
  end.

(** Octet sequences written in hexadecimal, for test vectors. *)
Definition hex_digit (c : ascii) : N :=
  let n := N_of_ascii c in
  if n <? 58 then n - 48 else if n <? 71 then n - 55 else n - 87.

Fixpoint hex_bytes (s : string) : Buffer :=
  match s with
  | String a (String b rest) =>
      byte_of_N (16 * hex_digit a + hex_digit b) :: hex_bytes rest
  | _ => []
  end.

(** The octets of an ASCII literal. *)
Definition ascii_bytes (s : string) : Buffer :=
  map (fun a => byte_of_N (N_of_ascii a)) (list_ascii_of_string s).

(** Outcome of running a JavaScript function: it returns or it throws. *)
Inductive JsError : Type :=
| ERR_CRYPTO_INVALID_KEYLEN      (* RangeError: Invalid key length *)
| ERR_CRYPTO_INVALID_IV          (* TypeError: Invalid initialization vector *)
| ERR_CRYPTO_INVALID_AUTH_TAG    (* TypeError: Invalid authentication tag length *)
| ERR_CRYPTO_INVALID_DIGEST      (* TypeError: Invalid digest *)
| ERR_OUT_OF_RANGE               (* RangeError: argument out of range *)
| ERR_CRYPTO_UNKNOWN_CIPHER      (* TypeError: Unknown cipher *)
| ERR_AUTHENTICATE               (* Error: Unsupported state or unable to
                                    authenticate data *)
| ERR_INVALID_URL.               (* TypeError: Invalid URL *)

Inductive Completion (A : Type) : Type :=
| Normal (a : A)
| Throw (e : JsError).
Arguments Normal {A} a.
Arguments Throw {A} e.

Definition bind {A B} (c : Completion A) (k : A -> Completion B) : Completion B :=
  match c with
  | Normal a => k a
  | Throw e => Throw e
  end.

Notation "'let*' x ':=' c 'in' k" := (bind c (fun x => k))
  (at level 10, x pattern, c at level 100, k at level 200).

(** The error kinds of the specification, as a classification of what the
    runtime throws. *)
Inductive ErrorKind : Type := InvalidEncoding | MalformedInput | AuthenticationFailure | OtherError.

Definition error_kind (e : JsError) : ErrorKind :=
  match e with
  | ERR_CRYPTO_INVALID_KEYLEN => MalformedInput
  | ERR_CRYPTO_INVALID_IV => MalformedInput
  | ERR_CRYPTO_INVALID_AUTH_TAG => MalformedInput
  | ERR_AUTHENTICATE => AuthenticationFailure
  | ERR_CRYPTO_INVALID_DIGEST => OtherError
  | ERR_OUT_OF_RANGE => OtherError
  | ERR_CRYPTO_UNKNOWN_CIPHER => OtherError
  | ERR_INVALID_URL => OtherError
  end.

Definition fails_with {A} (c : Completion A) (k : ErrorKind) : Prop :=
  exists e, c = Throw e /\ error_kind e = k.

(* ================================================================== *)
(** * Base64 ([Buffer.prototype.toString('base64')], [Buffer.from(s, 'base64')]) *)
(* ================================================================== *)

Module Base64.

Definition alphabet : JSString :=
  js "ABCDEFGHIJKLMNOPQRSTUVWXYZabcdefghijklmnopqrstuvwxyz0123456789+/".

Definition PAD : N := 61.    (* '=' *)
Definition PLUS : N := 43.   (* '+' *)
Definition SLASH : N := 47.  (* '/' *)
Definition MINUS : N := 45.  (* '-' *)
Definition UNDER : N := 95.  (* '_' *)

(** The character of a sextet. *)
Definition char_of (i : N) : N := nth (N.to_nat i) alphabet PAD.

(** Encoder: three octets give four characters; a final group of one or two
    octets is completed with '='. *)
Fixpoint encode (b : Buffer) : JSString :=
  match b with
  | [] => []
  | [x] =>
      let x := N_of_byte x in
      [char_of (x / 4); char_of ((x mod 4) * 16); PAD; PAD]
  | [x; y] =>
      let x := N_of_byte x in
      let y := N_of_byte y in
      [char_of (x / 4); char_of ((x mod 4) * 16 + y / 16);
       char_of ((y mod 16) * 4); PAD]
  | x :: y :: z :: rest =>
      let x := N_of_byte x in
      let y := N_of_byte y in
      let z := N_of_byte z in
      char_of (x / 4) :: char_of ((x mod 4) * 16 + y / 16)
        :: char_of ((y mod 16) * 4 + z / 64) :: char_of (z mod 64)
        :: encode rest
  end.

(** Decoder table of the runtime: both the standard and the URL-safe
    alphabet are legal; anything else is not.  The runtime indexes the
    table with the code unit cast to [uint8_t]. *)
Definition unbase64 (c : N) : option N :=
  let c := c mod 256 in
  if (65 <=? c) && (c <=? 90) then Some (c - 65)
  else if (97 <=? c) && (c <=? 122) then Some (c - 97 + 26)
  else if (48 <=? c) && (c <=? 57) then Some (c - 48 + 52)
  else if (c =? PLUS) || (c =? MINUS) then Some 62
  else if (c =? SLASH) || (c =? UNDER) then Some 63
  else None.

(** The sextets the decoder reads: illegal characters are skipped, the
    first '=' stops decoding. *)
Fixpoint sextets (s : JSString) : list N :=
  match s with
  | [] => []
  | c :: rest =>
      match unbase64 c with
      | Some v => v :: sextets rest
      | None => if c mod 256 =? PAD then [] else sextets rest
      end
  end.

(** Four sextets give three octets; two give one, three give two, a single
    trailing sextet gives nothing. *)
Fixpoint octets (l : list N) : Buffer :=
  match l with
  | a :: b :: c :: d :: rest =>
      byte_of_N (a * 4 + b / 16) :: byte_of_N ((b mod 16) * 16 + c / 4)
        :: byte_of_N ((c mod 4) * 64 + d) :: octets rest
  | [a; b; c] =>
      [byte_of_N (a * 4 + b / 16); byte_of_N ((b mod 16) * 16 + c / 4)]
  | [a; b] => [byte_of_N (a * 4 + b / 16)]
  | _ => []
  end.

Definition decode (s : JSString) : Buffer := octets (sextets s).

End Base64.

(** [buffer.toString('base64')] and [Buffer.from(str, 'base64')]. *)
Definition Buffer_toString_base64 (b : Buffer) : JSString := Base64.encode b.
Definition Buffer_from_base64 (s : JSString) : Buffer := Base64.decode s.

(** [str.replace(/c/g, d)] for a single character [c]. *)
Definition replace_all (c d : N) (s : JSString) : JSString :=
  map (fun x => if x =? c then d else x) s.

(** [str.replace(/c/g, '')]. *)
Definition remove_all (c : N) (s : JSString) : JSString :=
  filter (fun x => negb (x =? c)) s.

(* ================================================================== *)
(** * encryption.ts: the URL-safe codec *)
(* ================================================================== *)

Definition KEY_LENGTH : N := 32.
Definition IV_LENGTH : N := 12.
Definition TAG_LENGTH : N := 16.

(** [toBase64Url], lines 29-34. *)
Definition toBase64Url (buffer : Buffer) : JSString :=
  remove_all Base64.PAD
    (replace_all Base64.SLASH Base64.UNDER
       (replace_all Base64.PLUS Base64.MINUS (Buffer_toString_base64 buffer))).

(** The loop [while (base64.length % 4) base64 += '='], lines 41-43. *)
Fixpoint pad_loop (fuel : nat) (base64 : JSString) : JSString :=
  match fuel with
  | O => base64
  | S fuel' =>
      if N.of_nat (length base64) mod 4 =? 0 then base64
      else pad_loop fuel' (base64 ++ [Base64.PAD])
  end.

(** [fromBase64Url], lines 39-45.  Nothing in it can throw. *)
Definition fromBase64Url (str : JSString) : Completion Buffer :=
  let base64 :=
    replace_all Base64.UNDER Base64.SLASH (replace_all Base64.MINUS Base64.PLUS str) in
  let base64 := pad_loop 3 base64 in
  Normal (Buffer_from_base64 base64).

(** ** Views used to state the codec properties *)

(** The URL-safe alphabet of the specification: A-Z, a-z, 0-9, '-', '_'. *)
Definition is_urlsafe (c : N) : bool :=
  ((65 <=? c) && (c <=? 90)) || ((97 <=? c) && (c <=? 122))
  || ((48 <=? c) && (c <=? 57)) || (c =? Base64.MINUS) || (c =? Base64.UNDER).

(** What the runtime decoder looks at: a legal character of either
    alphabet, or the '=' that stops it. *)
Definition is_decoder_char (c : N) : bool :=
  match Base64.unbase64 c with
  | Some _ => true
  | None => c mod 256 =? Base64.PAD
  end.

(** The sextets an octet sequence is cut into, and the number of '=' the
    encoder appends. *)
Fixpoint data_sextets (b : Buffer) : list N :=
  match b with
  | [] => []
  | [x] =>
      let x := N_of_byte x in [x / 4; (x mod 4) * 16]
  | [x; y] =>
      let x := N_of_byte x in
      let y := N_of_byte y in
      [x / 4; (x mod 4) * 16 + y / 16; (y mod 16) * 4]
  | x :: y :: z :: rest =>
      let x := N_of_byte x in
      let y := N_of_byte y in
      let z := N_of_byte z in
      x / 4 :: (x mod 4) * 16 + y / 16 :: (y mod 16) * 4 + z / 64 :: z mod 64
        :: data_sextets rest
  end.

Fixpoint pad_count (b : Buffer) : nat :=
  match b with
  | [] => 0
  | [_] => 2
  | [_; _] => 1
  | _ :: _ :: _ :: rest => pad_count rest
  end.

(** The character [toBase64Url] writes for a sextet. *)
Definition urlsafe_char_of (i : N) : N :=
  let c := Base64.char_of i in
  let c := if c =? Base64.PLUS then Base64.MINUS else c in
  if c =? Base64.SLASH then Base64.UNDER else c.

(* ================================================================== *)
(** * UTF-8 (the 'utf8' string encoding of the runtime) *)
(* ================================================================== *)

Module UTF8.

Definition REPLACEMENT : N := 65533.   (* U+FFFD *)

Definition is_high_surrogate (c : N) : bool := (55296 <=? c) && (c <=? 56319).
Definition is_low_surrogate (c : N) : bool := (56320 <=? c) && (c <=? 57343).

(** The octets of one code point. *)
Definition encode_scalar (cp : N) : Buffer :=
  if cp <? 128 then [byte_of_N cp]
  else if cp <? 2048 then
    [byte_of_N (192 + cp / 64); byte_of_N (128 + cp mod 64)]
  else if cp <? 65536 then
    [byte_of_N (224 + cp / 4096); byte_of_N (128 + (cp / 64) mod 64);
     byte_of_N (128 + cp mod 64)]
  else
    [byte_of_N (240 + cp / 262144); byte_of_N (128 + (cp / 4096) mod 64);
     byte_of_N (128 + (cp / 64) mod 64); byte_of_N (128 + cp mod 64)].

(** String to octets.  A surrogate pair is one code point; a surrogate
    that is not part of a pair is written as U+FFFD. *)
Fixpoint encode (s : JSString) : Buffer :=
  match s with
  | [] => []
  | c :: rest =>
      if is_high_surrogate c then
        match rest with
        | d :: rest' =>
            if is_low_surrogate d then
              encode_scalar (65536 + (c - 55296) * 1024 + (d - 56320)) ++ encode rest'
            else encode_scalar REPLACEMENT ++ encode rest
        | [] => encode_scalar REPLACEMENT
        end
      else if is_low_surrogate c then encode_scalar REPLACEMENT ++ encode rest
      else encode_scalar c ++ encode rest
  end.

(** The decoder is the state machine of the WHATWG encoding standard. *)
Record DecoderState : Type := {
  code_point : N;
  bytes_needed : N;
  bytes_seen : N;
  lower_boundary : N;
  upper_boundary : N
}.

Definition initial : DecoderState :=
  {| code_point := 0; bytes_needed := 0; bytes_seen := 0;
     lower_boundary := 128; upper_boundary := 191 |}.

(** A byte read with no sequence in progress. *)
Definition lead (v : N) : list N * DecoderState :=
  if v <=? 127 then ([v], initial)
  else if (194 <=? v) && (v <=? 223) then
    ([], {| code_point := v - 192; bytes_needed := 1; bytes_seen := 0;
            lower_boundary := 128; upper_boundary := 191 |})
  else if (224 <=? v) && (v <=? 239) then
    ([], {| code_point := v - 224; bytes_needed := 2; bytes_seen := 0;
            lower_boundary := if v =? 224 then 160 else 128;
            upper_boundary := if v =? 237 then 159 else 191 |})
  else if (240 <=? v) && (v <=? 244) then
    ([], {| code_point := v - 240; bytes_needed := 3; bytes_seen := 0;
            lower_boundary := if v =? 240 then 144 else 128;
            upper_boundary := if v =? 244 then 143 else 191 |})
  else ([REPLACEMENT], initial).

(** One byte: the code points it completes, and the next state.  A byte
    that cannot continue the sequence in progress ends it with U+FFFD and is
    read again as a lead byte. *)
Definition step (st : DecoderState) (b : byte) : list N * DecoderState :=
  let v := N_of_byte b in
  if bytes_needed st =? 0 then lead v
  else if (lower_boundary st <=? v) && (v <=? upper_boundary st) then
    let cp := code_point st * 64 + (v - 128) in
    if bytes_seen st + 1 =? bytes_needed st then ([cp], initial)
    else ([], {| code_point := cp; bytes_needed := bytes_needed st;
                 bytes_seen := bytes_seen st + 1;
                 lower_boundary := 128; upper_boundary := 191 |})
  else
    let '(out, st') := lead v in (REPLACEMENT :: out, st').

(** A code point as UTF-16 code units. *)
Definition units (cp : N) : JSString :=
  if cp <? 65536 then [cp]
  else [55296 + (cp - 65536) / 1024; 56320 + (cp - 65536) mod 1024].

(** [StringDecoder.prototype.write]: the text of the complete characters,
    an incomplete sequence at the end is kept in the state. *)
Fixpoint write (st : DecoderState) (buf : Buffer) : JSString * DecoderState :=
  match buf with
  | [] => ([], st)
  | b :: rest =>
      let '(out, st') := step st b in
      let '(text, st'') := write st' rest in
      (flat_map units out ++ text, st'')
  end.

(** [StringDecoder.prototype.end]: an incomplete sequence becomes U+FFFD. *)
Definition finish (st : DecoderState) : JSString :=
  if bytes_needed st =? 0 then [] else [REPLACEMENT].

(** [buf.toString('utf8')]. *)
Definition decode (buf : Buffer) : JSString :=
  let '(text, st) := write initial buf in text ++ finish st.

(** [String.prototype.isWellFormed]: no surrogate outside a pair. *)
Fixpoint well_formed (s : JSString) : bool :=
  match s with
  | [] => true
  | c :: rest =>
      if is_high_surrogate c then
        match rest with
        | d :: rest' => is_low_surrogate d && well_formed rest'
        | [] => false
        end
      else negb (is_low_surrogate c) && (c <? 65536) && well_formed rest
  end.

(** A Unicode scalar value: a code point that is not a surrogate. *)
Definition is_scalar (cp : N) : Prop :=
  cp < 1114112 /\ ~ (55296 <= cp <= 57343).

End UTF8.

(** [Buffer.from(str, 'utf8')] and [buf.toString('utf8')]. *)
Definition Buffer_from_utf8 (s : JSString) : Buffer := UTF8.encode s.
Definition Buffer_toString_utf8 (b : Buffer) : JSString := UTF8.decode b.

(* ================================================================== *)
(** * AES-256 (FIPS 197) *)
(* ================================================================== *)

(** A 128-bit block is a number; its octets are written big-endian. *)
Definition bytes_of_block (n : N) : Buffer :=
  map (fun i => byte_of_N (n / 256 ^ N.of_nat (15 - i))) (seq 0 16).

Definition block_of_bytes (b : Buffer) : N :=
  fold_left (fun acc x => acc * 256 + N_of_byte x) b 0.

Module AES.

(** Arithmetic of GF(2^8) modulo x^8 + x^4 + x^3 + x + 1. *)
Definition xtime (x : N) : N :=
  if x <? 128 then 2 * x else N.lxor (2 * x - 256) 27.

Fixpoint gmul_loop (n : nat) (a b : N) : N :=
  match n with
  | O => 0
  | S n' => N.lxor (if N.odd b then a else 0) (gmul_loop n' (xtime a) (b / 2))
  end.

Definition gmul (a b : N) : N := gmul_loop 8 a b.

(** The inverse is the 254th power; 0 is mapped to 0. *)
Definition ginv (a : N) : N := Nat.iter 254 (gmul a) 1.

Definition rotl8 (x k : N) : N := (x * 2 ^ k) mod 256 + x / 2 ^ (8 - k).

Definition sbox_value (x : N) : N :=
  let b := ginv x in
  N.lxor (N.lxor (N.lxor (N.lxor (N.lxor b (rotl8 b 1)) (rotl8 b 2)) (rotl8 b 3))
            (rotl8 b 4)) 99.

Definition SBOX : list N :=
  Eval vm_compute in map (fun i => sbox_value (N.of_nat i)) (seq 0 256).

Definition SubByte (x : N) : N := nth (N.to_nat x) SBOX 0.

Definition Word := list N.

Definition xor_bytes (a b : list N) : list N :=
  map (fun p => N.lxor (fst p) (snd p)) (combine a b).

Definition RotWord (w : Word) : Word :=
  match w with
  | a :: rest => rest ++ [a]
  | [] => []
  end.

Definition SubWord (w : Word) : Word := map SubByte w.

(** Key expansion for Nk = 8, Nr = 14.  The words are kept newest first;
    [rc] is the round constant of the next multiple of Nk. *)
Fixpoint expand_loop (n : nat) (i : N) (rc : N) (newest_first : list Word)
  : list Word :=
  match n with
  | O => newest_first
  | S n' =>
      let temp := nth 0 newest_first [] in
      let back := nth 7 newest_first [] in
      let temp' :=
        if i mod 8 =? 0 then xor_bytes (SubWord (RotWord temp)) [rc; 0; 0; 0]
        else if i mod 8 =? 4 then SubWord temp
        else temp in
      let rc' := if i mod 8 =? 0 then xtime rc else rc in
      expand_loop n' (i + 1) rc' (xor_bytes back temp' :: newest_first)
  end.

Fixpoint words_of (fuel : nat) (b : list N) : list Word :=
  match fuel with
  | O => []
  | S fuel' =>
      match b with
      | [] => []
      | _ => firstn 4 b :: words_of fuel' (skipn 4 b)
      end
  end.

Definition KeyExpansion (key : list N) : list Word :=
  rev (expand_loop 52 8 1 (rev (words_of 8 key))).

Definition round_key (w : list Word) (r : nat) : list N :=
  List.concat (firstn 4 (skipn (4 * r) w)).

(** The state is kept in input order: the octet of row r, column c is at
    index r + 4c. *)
Definition AddRoundKey (s k : list N) : list N := xor_bytes s k.

Definition SubBytes (s : list N) : list N := map SubByte s.

Definition ShiftRows (s : list N) : list N :=
  map (fun i => nth i s 0) [0; 5; 10; 15; 4; 9; 14; 3; 8; 13; 2; 7; 12; 1; 6; 11]%nat.

Definition mix_column (c : list N) : list N :=
  match c with
  | [a0; a1; a2; a3] =>
      [N.lxor (N.lxor (N.lxor (gmul 2 a0) (gmul 3 a1)) a2) a3;
       N.lxor (N.lxor (N.lxor a0 (gmul 2 a1)) (gmul 3 a2)) a3;
       N.lxor (N.lxor (N.lxor a0 a1) (gmul 2 a2)) (gmul 3 a3);
       N.lxor (N.lxor (N.lxor (gmul 3 a0) a1) a2) (gmul 2 a3)]
  | _ => c
  end.

Definition MixColumns (s : list N) : list N :=
  List.concat (map mix_column (words_of 4 s)).

Definition Cipher (w : list Word) (input : list N) : list N :=
  let s := AddRoundKey input (round_key w 0) in
  let s :=
    fold_left
      (fun s r => AddRoundKey (MixColumns (ShiftRows (SubBytes s))) (round_key w r))
      (seq 1 13) s in
  AddRoundKey (ShiftRows (SubBytes s)) (round_key w 14).

(** The forward cipher function on a block, under a 32-octet key. *)
Definition encrypt_block (key : Buffer) (block : N) : N :=
  block_of_bytes
    (map byte_of_N
       (Cipher (KeyExpansion (map N_of_byte key))
          (map N_of_byte (bytes_of_block block)))).

End AES.

(* ================================================================== *)
(** * Galois/Counter Mode (NIST SP 800-38D) over AES-256 *)
(* ================================================================== *)

Definition xor_buffer (a b : Buffer) : Buffer :=
  map (fun p => byte_of_N (N.lxor (N_of_byte (fst p)) (N_of_byte (snd p))))
    (combine a b).

(** A buffer cut into pieces of [n] octets, the last one possibly shorter. *)
Fixpoint chunks_loop (fuel n : nat) (b : Buffer) : list Buffer :=
  match fuel with
  | O => []
  | S fuel' =>
      match b with
      | [] => []
      | _ => firstn n b :: chunks_loop fuel' n (skipn n b)
      end
  end.

Definition chunks (n : nat) (b : Buffer) : list Buffer :=
  chunks_loop (length b) n b.

Module GCM.

(** Multiplication in GF(2^128), algorithm 1: bit 0 of a block is its
    leftmost bit. *)
Definition R : N := 225 * 2 ^ 120.

Fixpoint mul_loop (n : nat) (X Z V : N) : N :=
  match n with
  | O => Z
  | S n' =>
      let Z' := if N.testbit X (N.of_nat n') then N.lxor Z V else Z in
      let V' := if N.odd V then N.lxor (V / 2) R else V / 2 in
      mul_loop n' X Z' V'
  end.

Definition mul (X Y : N) : N := mul_loop 128 X 0 Y.

(** Algorithm 2. *)
Definition GHASH (H : N) (blocks : list N) : N :=
  fold_left (fun Y X => mul (N.lxor Y X) H) blocks 0.

(** The blocks of a bit string, the last one completed with zero bits. *)
Definition padded_block (chunk : Buffer) : N :=
  block_of_bytes chunk * 256 ^ N.of_nat (16 - length chunk).

Definition blocks (b : Buffer) : list N := map padded_block (chunks 16 b).

Definition bit_length (b : Buffer) : N := 8 * N.of_nat (length b).

Definition inc32 (X : N) : N :=
  (X / 2 ^ 32) * 2 ^ 32 + (X mod 2 ^ 32 + 1) mod 2 ^ 32.

(** Algorithm 3. *)
Fixpoint GCTR_loop (key : Buffer) (CB : N) (X : list Buffer) : Buffer :=
  match X with
  | [] => []
  | Xi :: rest =>
      xor_buffer Xi (bytes_of_block (AES.encrypt_block key CB))
        ++ GCTR_loop key (inc32 CB) rest
  end.

Definition GCTR (key : Buffer) (ICB : N) (X : Buffer) : Buffer :=
  GCTR_loop key ICB (chunks 16 X).

Definition hash_subkey (key : Buffer) : N := AES.encrypt_block key 0.

(** The pre-counter block: step 2 of algorithms 4 and 5. *)
Definition J0 (key iv : Buffer) : N :=
  if (length iv =? 12)%nat then block_of_bytes iv * 2 ^ 32 + 1
  else GHASH (hash_subkey key) (blocks iv ++ [bit_length iv]).

(** The tag of a ciphertext [C] with additional data [A], at full length. *)
Definition tag (key iv A C : Buffer) : Buffer :=
  let S :=
    GHASH (hash_subkey key)
      (blocks A ++ blocks C ++ [bit_length A * 2 ^ 64 + bit_length C]) in
  bytes_of_block (N.lxor S (AES.encrypt_block key (J0 key iv))).

(** The text transformation, the same in both directions. *)
Definition crypt (key iv X : Buffer) : Buffer :=
  GCTR key (inc32 (J0 key iv)) X.

End GCM.

(* ================================================================== *)
(** * SHA-256 (FIPS 180-4), HMAC (RFC 2104) *)
(* ================================================================== *)

(** [n] as [len] octets, big-endian. *)
Definition be_bytes (len : nat) (n : N) : Buffer :=
  map (fun i => byte_of_N (n / 256 ^ N.of_nat (len - 1 - i))) (seq 0 len).

Module SHA256.

Definition add (a b : N) : N := (a + b) mod 2 ^ 32.
Definition ROTR (n x : N) : N := x / 2 ^ n + (x mod 2 ^ n) * 2 ^ (32 - n).
Definition SHR (n x : N) : N := x / 2 ^ n.
Definition not32 (x : N) : N := N.lxor x (2 ^ 32 - 1).

Definition Ch (x y z : N) : N := N.lxor (N.land x y) (N.land (not32 x) z).
Definition Maj (x y z : N) : N :=
  N.lxor (N.lxor (N.land x y) (N.land x z)) (N.land y z).
Definition Sigma0 (x : N) : N := N.lxor (N.lxor (ROTR 2 x) (ROTR 13 x)) (ROTR 22 x).
Definition Sigma1 (x : N) : N := N.lxor (N.lxor (ROTR 6 x) (ROTR 11 x)) (ROTR 25 x).
Definition sigma0 (x : N) : N := N.lxor (N.lxor (ROTR 7 x) (ROTR 18 x)) (SHR 3 x).
Definition sigma1 (x : N) : N := N.lxor (N.lxor (ROTR 17 x) (ROTR 19 x)) (SHR 10 x).

(** The constants are the first 32 bits of the fractional parts of the
    cube roots (square roots for the initial hash value) of the first
    primes. *)
Definition primes : list N :=
  [2; 3; 5; 7; 11; 13; 17; 19; 23; 29; 31; 37; 41; 43; 47; 53; 59; 61; 67; 71;
   73; 79; 83; 89; 97; 101; 103; 107; 109; 113; 127; 131; 137; 139; 149; 151;
   157; 163; 167; 173; 179; 181; 191; 193; 197; 199; 211; 223; 227; 229; 233;
   239; 241; 251; 257; 263; 269; 271; 277; 281; 283; 293; 307; 311].

Fixpoint cube_root_loop (bits : nat) (n r : N) : N :=
  match bits with
  | O => r
  | S b =>
      let r' := r + 2 ^ N.of_nat b in
      if r' * r' * r' <=? n then cube_root_loop b n r' else cube_root_loop b n r
  end.

Definition K : list N :=
  Eval vm_compute in
    map (fun p => cube_root_loop 36 (p * 2 ^ 96) 0 mod 2 ^ 32) primes.

Definition State : Type := (N * N * N * N * N * N * N * N)%type.

Definition H0 : State :=
  Eval vm_compute in
    let h := fun i => N.sqrt (nth i primes 0 * 2 ^ 64) mod 2 ^ 32 in
    (h 0, h 1, h 2, h 3, h 4, h 5, h 6, h 7)%nat.

(** The message schedule, newest word first. *)
Fixpoint schedule_loop (n : nat) (newest_first : list N) : list N :=
  match n with
  | O => newest_first
  | S n' =>
      let w := fun k => nth k newest_first 0 in
      schedule_loop n'
        (add (add (add (sigma1 (w 1%nat)) (w 6%nat)) (sigma0 (w 14%nat))) (w 15%nat)
           :: newest_first)
  end.

Definition schedule (M : list N) : list N := rev (schedule_loop 48 (rev M)).

Definition round (s : State) (kw : N * N) : State :=
  let '(a, b, c, d, e, f, g, h) := s in
  let T1 := add (add (add (add h (Sigma1 e)) (Ch e f g)) (fst kw)) (snd kw) in
  let T2 := add (Sigma0 a) (Maj a b c) in
  (add T1 T2, a, b, c, add d T1, e, f, g).

Definition compress (s : State) (M : list N) : State :=
  let '(a, b, c, d, e, f, g, h) := s in
  let '(a', b', c', d', e', f', g', h') :=
    fold_left round (combine K (schedule M)) s in
  (add a a', add b b', add c c', add d d', add e e', add f f', add g g', add h h').

Definition word_of_bytes (b : Buffer) : N :=
  fold_left (fun acc x => acc * 256 + N_of_byte x) b 0.

Definition pad (msg : Buffer) : Buffer :=
  let l := length msg in
  let k := ((64 - (l + 9) mod 64) mod 64)%nat in
  msg ++ [x80] ++ repeat x00 k ++ be_bytes 8 (8 * N.of_nat l).

Definition digest_bytes (s : State) : Buffer :=
  let '(a, b, c, d, e, f, g, h) := s in
  be_bytes 4 a ++ be_bytes 4 b ++ be_bytes 4 c ++ be_bytes 4 d
    ++ be_bytes 4 e ++ be_bytes 4 f ++ be_bytes 4 g ++ be_bytes 4 h.

Definition hash (msg : Buffer) : Buffer :=
  digest_bytes
    (fold_left (fun s blk => compress s (map word_of_bytes (chunks 4 blk)))
       (chunks 64 (pad msg)) H0).

End SHA256.

(** HMAC over a hash function with block size [B]. *)
Module HMAC.

Definition B : nat := 64.

Definition xor_pad (c : N) (k : Buffer) : Buffer :=
  map (fun x => byte_of_N (N.lxor (N_of_byte x) c)) k.

Definition key_block (key : Buffer) : Buffer :=
  let k := if (B <? length key)%nat then SHA256.hash key else key in
  k ++ repeat x00 (B - length k).

Definition sha256 (key text : Buffer) : Buffer :=
  let k0 := key_block key in
  SHA256.hash (xor_pad 92 k0 ++ SHA256.hash (xor_pad 54 k0 ++ text)).

End HMAC.

(** ** PBKDF2 as RFC 8018, section 5.2, words it

    [DK = T_1 || T_2 || ... || T_l<0..r-1>] with [T_i = F (P, S, c, i)],
    [F (P, S, c, i) = U_1 xor U_2 xor ... xor U_c],
    [U_1 = PRF (P, S || INT (i))] and [U_j = PRF (P, U_{j-1})]; the salt
    [S] is called [salt] below. *)
Module PBKDF2.

Section WithPRF.

Variable PRF : Buffer -> Buffer -> Buffer.
Variable hLen : nat.

Fixpoint U (P salt : Buffer) (i : N) (j : nat) : Buffer :=
  match j with
  | O => []
  | 1%nat => PRF P (salt ++ be_bytes 4 i)
  | S j' => PRF P (U P salt i j')
  end.

Fixpoint F (P salt : Buffer) (c : nat) (i : N) : Buffer :=
  match c with
  | O => []
  | 1%nat => U P salt i 1
  | S c' => xor_buffer (F P salt c' i) (U P salt i (S c'))
  end.

Definition DK (P salt : Buffer) (c : N) (dkLen : nat) : Buffer :=
  let l := ((dkLen + hLen - 1) / hLen)%nat in
  firstn dkLen
    (List.concat (map (fun i => F P salt (N.to_nat c) (N.of_nat i)) (seq 1 l))).

End WithPRF.

End PBKDF2.

Definition PBKDF2_HMAC_SHA256 (P salt : Buffer) (c : N) (dkLen : nat) : Buffer :=
  PBKDF2.DK HMAC.sha256 32 P salt c dkLen.


(* ================================================================== *)
(** * The [crypto] module of the runtime *)
(* ================================================================== *)

(** ** [crypto.randomBytes]

    The random source is the sequence of octets the operating system will
    hand out; drawing [n] octets consumes the first [n]. *)
Definition RandomSource : Type := nat -> byte.

Definition randomBytes (size : N) (rng : RandomSource) : Buffer * RandomSource :=
  (map rng (seq 0 (N.to_nat size)), fun i => rng (N.to_nat size + i)%nat).

(** A random source for worked examples. *)
Definition example_rng : RandomSource := fun i => byte_of_N (N.of_nat i * 7 + 3).

(** ** [crypto.pbkdf2Sync]

    The derivation loop as the runtime's library runs it: the output is
    filled block by block, each block its own chain of [iterations] HMAC
    calls folded together with XOR. *)
Definition string_eqb (a b : JSString) : bool :=
  (length a =? length b)%nat && forallb (fun p => fst p =? snd p) (combine a b).

Definition mdlen : nat := 32.

Fixpoint pbkdf2_loop (fuel : nat) (pass salt : Buffer) (iter : N) (i : N)
  (tkeylen : nat) : Buffer :=
  match fuel with
  | O => []
  | S fuel' =>
      if (tkeylen =? 0)%nat then []
      else
        let cplen := Nat.min tkeylen mdlen in
        let digtmp := HMAC.sha256 pass (salt ++ be_bytes 4 i) in
        let '(_, p) :=
          N.iter (iter - 1)
            (fun '(d, p) => let d' := HMAC.sha256 pass d in (d', xor_buffer p d'))
            (digtmp, firstn cplen digtmp) in
        p ++ pbkdf2_loop fuel' pass salt iter (i + 1) (tkeylen - cplen)
  end.

Definition pbkdf2Sync (password : JSString) (salt : Buffer) (iterations keylen : N)
  (digest : JSString) : Completion Buffer :=
  if iterations =? 0 then Throw ERR_OUT_OF_RANGE
  else if negb (string_eqb digest (js "sha256")) then Throw ERR_CRYPTO_INVALID_DIGEST
  else
    Normal (pbkdf2_loop (N.to_nat keylen) (Buffer_from_utf8 password) salt
              iterations 1 (N.to_nat keylen)).

(** ** [crypto.createCipheriv], [crypto.createDecipheriv] for 'aes-256-gcm' *)

Inductive Encoding : Type := utf8 | base64.

Definition Buffer_from (s : JSString) (enc : Encoding) : Buffer :=
  match enc with
  | utf8 => Buffer_from_utf8 s
  | base64 => Buffer_from_base64 s
  end.

(** [StringDecoder]: what has been read but not yet returned as text. *)
Record StringDecoder : Type := {
  sd_base64 : Buffer;
  sd_utf8 : UTF8.DecoderState
}.

Definition StringDecoder_new : StringDecoder :=
  {| sd_base64 := []; sd_utf8 := UTF8.initial |}.

Definition StringDecoder_write (enc : Encoding) (sd : StringDecoder) (buf : Buffer)
  : JSString * StringDecoder :=
  match enc with
  | base64 =>
      let all := sd_base64 sd ++ buf in
      let n := (length all / 3 * 3)%nat in
      (Base64.encode (firstn n all),
       {| sd_base64 := skipn n all; sd_utf8 := sd_utf8 sd |})
  | utf8 =>
      let '(text, st) := UTF8.write (sd_utf8 sd) buf in
      (text, {| sd_base64 := sd_base64 sd; sd_utf8 := st |})
  end.

Definition StringDecoder_end (enc : Encoding) (sd : StringDecoder) : JSString :=
  match enc with
  | base64 => Base64.encode (sd_base64 sd)
  | utf8 => UTF8.finish (sd_utf8 sd)
  end.

(** The largest initialization vector the library takes. *)
Definition GCM_IV_MAX_SIZE : nat := 128.

Definition iv_accepted (iv : Buffer) : Prop :=
  (1 <= length iv <= GCM_IV_MAX_SIZE)%nat.

Definition is_valid_gcm_tag_length (n : N) : bool :=
  (n =? 4) || (n =? 8) || ((12 <=? n) && (n <=? 16)).

Record CipherBase : Type := {
  cb_key : Buffer;
  cb_iv : Buffer;
  cb_authTagLength : N;
  cb_authTag : option Buffer;
  cb_input : Buffer;             (* what [update] has been given so far *)
  cb_decoder : StringDecoder
}.

Definition CipherBase_init (algorithm : JSString) (key iv : Buffer) (authTagLength : N)
  : Completion CipherBase :=
  if negb (string_eqb algorithm (js "aes-256-gcm")) then Throw ERR_CRYPTO_UNKNOWN_CIPHER
  else if (length iv =? 0)%nat then Throw ERR_CRYPTO_INVALID_IV
  else if (GCM_IV_MAX_SIZE <? length iv)%nat then Throw ERR_CRYPTO_INVALID_IV
  else if negb (is_valid_gcm_tag_length authTagLength) then Throw ERR_CRYPTO_INVALID_AUTH_TAG
  else if negb (length key =? 32)%nat then Throw ERR_CRYPTO_INVALID_KEYLEN
  else
    Normal {| cb_key := key; cb_iv := iv; cb_authTagLength := authTagLength;
              cb_authTag := None; cb_input := []; cb_decoder := StringDecoder_new |}.

Definition createCipheriv := CipherBase_init.
Definition createDecipheriv := CipherBase_init.

(** [update(data, inputEncoding, outputEncoding)]: the text is transformed
    in counter mode, continuing where the previous call stopped. *)
Definition CipherBase_update (c : CipherBase) (data : JSString) (inputEncoding
  outputEncoding : Encoding) : JSString * CipherBase :=
  let input := Buffer_from data inputEncoding in
  let all := cb_input c ++ input in
  let out := skipn (length (cb_input c)) (GCM.crypt (cb_key c) (cb_iv c) all) in
  let '(text, decoder) := StringDecoder_write outputEncoding (cb_decoder c) out in
  (text, {| cb_key := cb_key c; cb_iv := cb_iv c;
            cb_authTagLength := cb_authTagLength c; cb_authTag := cb_authTag c;
            cb_input := all; cb_decoder := decoder |}).

(** [cipher.final(outputEncoding)]: the mode has no last block to flush;
    the tag becomes available. *)
Definition Cipher_final (c : CipherBase) (outputEncoding : Encoding)
  : JSString * CipherBase :=
  let ciphertext := GCM.crypt (cb_key c) (cb_iv c) (cb_input c) in
  (StringDecoder_end outputEncoding (cb_decoder c),
   {| cb_key := cb_key c; cb_iv := cb_iv c;
      cb_authTagLength := cb_authTagLength c;
      cb_authTag :=
        Some (firstn (N.to_nat (cb_authTagLength c))
                (GCM.tag (cb_key c) (cb_iv c) [] ciphertext));
      cb_input := cb_input c; cb_decoder := cb_decoder c |}).

Definition Cipher_getAuthTag (c : CipherBase) : Buffer :=
  match cb_authTag c with
  | Some t => t
  | None => []
  end.

(** [decipher.setAuthTag(tag)]: with [authTagLength] given, only a tag of
    that length is taken. *)
Definition Decipher_setAuthTag (c : CipherBase) (t : Buffer) : Completion CipherBase :=
  if (N.of_nat (length t) =? cb_authTagLength c)
     && is_valid_gcm_tag_length (N.of_nat (length t))
  then
    Normal {| cb_key := cb_key c; cb_iv := cb_iv c;
              cb_authTagLength := cb_authTagLength c; cb_authTag := Some t;
              cb_input := cb_input c; cb_decoder := cb_decoder c |}
  else Throw ERR_CRYPTO_INVALID_AUTH_TAG.

Definition buffer_eqb (a b : Buffer) : bool :=
  (length a =? length b)%nat
  && forallb (fun p => Byte.eqb (fst p) (snd p)) (combine a b).

(** [decipher.final(outputEncoding)]: the tag of what was read is compared
    with the tag that was set; on a mismatch the call throws. *)
Definition Decipher_final (c : CipherBase) (outputEncoding : Encoding)
  : Completion JSString :=
  match cb_authTag c with
  | None => Throw ERR_AUTHENTICATE
  | Some t =>
      let expected :=
        firstn (length t) (GCM.tag (cb_key c) (cb_iv c) [] (cb_input c)) in
      if buffer_eqb expected t
      then Normal (StringDecoder_end outputEncoding (cb_decoder c))
      else Throw ERR_AUTHENTICATE
  end.

(* ================================================================== *)
(** * encryption.ts *)
(* ================================================================== *)

Definition ALGORITHM : JSString := js "aes-256-gcm".

Record EncryptedData : Type := {
  ciphertext : JSString;   (* Base64 encoded *)
  iv : JSString;           (* Base64 encoded *)
  tag : JSString           (* Base64 encoded *)
}.

Record EncryptionResult : Type := {
  encrypted : EncryptedData;
  key : JSString           (* Base64 URL-safe encoded key *)
}.

Record PasswordEncryptionResult : Type := {
  pw_encrypted : EncryptedData;
  pw_salt : JSString
}.

(** [generateKey], lines 22-24. *)
Definition generateKey (rng : RandomSource) : Buffer * RandomSource :=
  randomBytes KEY_LENGTH rng.

(** Lines 55-71 of [encrypt], the same as lines 109-125 of
    [encryptWithPassword]: seal [content] under [key] and [iv]. *)
Definition seal (content : JSString) (key iv : Buffer) : Completion EncryptedData :=
  let* cipher := createCipheriv ALGORITHM key iv TAG_LENGTH in
  let '(ciphertext, cipher) := CipherBase_update cipher content utf8 base64 in
  let '(final, cipher) := Cipher_final cipher base64 in
  let ciphertext := ciphertext ++ final in
  let tag := Cipher_getAuthTag cipher in
  Normal {| ciphertext := ciphertext;
            iv := Buffer_toString_base64 iv;
            tag := Buffer_toString_base64 tag |}.

(** [encrypt], lines 51-72. *)
Definition encrypt (content : JSString) (rng : RandomSource)
  : Completion EncryptionResult * RandomSource :=
  let '(key, rng) := generateKey rng in
  let '(iv, rng) := randomBytes IV_LENGTH rng in
  (let* encrypted := seal content key iv in
   Normal {| encrypted := encrypted; key := toBase64Url key |},
   rng).

(** Lines 79-91 of [decrypt], the same as lines 134-146 of
    [decryptWithPassword]: open the envelope under [key]. *)
Definition open (encrypted : EncryptedData) (key : Buffer) : Completion JSString :=
  let iv := Buffer_from (iv encrypted) base64 in
  let tag := Buffer_from (tag encrypted) base64 in
  let* decipher := createDecipheriv ALGORITHM key iv TAG_LENGTH in
  let* decipher := Decipher_setAuthTag decipher tag in
  let '(plaintext, decipher) :=
    CipherBase_update decipher (ciphertext encrypted) base64 utf8 in
  let* final := Decipher_final decipher utf8 in
  Normal (plaintext ++ final).

(** [decrypt], lines 77-92. *)
Definition decrypt (encrypted : EncryptedData) (keyBase64Url : JSString)
  : Completion JSString :=
  let* key := fromBase64Url keyBase64Url in
  open encrypted key.

(** [deriveKeyFromPassword], lines 97-99. *)
Definition deriveKeyFromPassword (password : JSString) (salt : Buffer)
  : Completion Buffer :=
  pbkdf2Sync password salt 100000 KEY_LENGTH (js "sha256").

(** [encryptWithPassword], lines 104-126. *)
Definition encryptWithPassword (content password : JSString) (rng : RandomSource)
  : Completion PasswordEncryptionResult * RandomSource :=
  let '(salt, rng) := randomBytes 16 rng in
  let key := deriveKeyFromPassword password salt in
  let '(iv, rng) := randomBytes IV_LENGTH rng in
  (let* key := key in
   let* encrypted := seal content key iv in
   Normal {| pw_encrypted := encrypted; pw_salt := Buffer_toString_base64 salt |},
   rng).

(** [decryptWithPassword], lines 131-147. *)
Definition decryptWithPassword (encrypted : EncryptedData) (password saltBase64 : JSString)
  : Completion JSString :=
  let salt := Buffer_from saltBase64 base64 in
  let* key := deriveKeyFromPassword password salt in
  open encrypted key.

(** ** Views used to state the properties of the envelope functions *)

(** The envelope [seal] returns. *)
Definition sealed (content : JSString) (k n : Buffer) : EncryptedData :=
  let C := GCM.crypt k n (Buffer_from_utf8 content) in
  {| ciphertext := Buffer_toString_base64 C;
     iv := Buffer_toString_base64 n;
     tag := Buffer_toString_base64 (GCM.tag k n [] C) |}.

(** The key PBKDF2 gives for a password and a salt. *)
Definition derived_key (password : JSString) (salt : Buffer) : Buffer :=
  PBKDF2_HMAC_SHA256 (Buffer_from_utf8 password) salt 100000 32.


(* ================================================================== *)
(** * api/snipit.ts *)
(* ================================================================== *)

(** ** String methods of the runtime used by the file *)

Definition SLASH : N := 47.   (* '/' *)
Definition HASH : N := 35.    (* '#' *)

Fixpoint starts_with (sub s : JSString) : bool :=
  match sub, s with
  | [], _ => true
  | _ :: _, [] => false
  | a :: sub', b :: s' => (a =? b) && starts_with sub' s'
  end.

(** [s.includes(sub)]. *)
Fixpoint String_includes (s sub : JSString) : bool :=
  starts_with sub s
  || match s with
     | [] => false
     | _ :: rest => String_includes rest sub
     end.

(** [s.replace(/^c/, '')]: one leading [c] is removed. *)
Definition remove_leading (c : N) (s : JSString) : JSString :=
  match s with
  | x :: rest => if x =? c then rest else s
  | [] => []
  end.

(** [s.split(c)[0]]: what precedes the first [c]. *)
Fixpoint before_first (c : N) (s : JSString) : JSString :=
  match s with
  | [] => []
  | x :: rest => if x =? c then [] else x :: before_first c rest
  end.

(** [s || undefined]: the empty string is falsy. *)
Definition or_undefined (s : JSString) : option JSString :=
  match s with
  | [] => None
  | _ => Some s
  end.

(** ** The [URL] class: the components the file reads.  The fragment is
    kept as the URL record has it; the [hash] getter puts the '#' in front
    of a non-empty fragment. *)
Record URL : Type := {
  protocol : JSString;
  hostname : JSString;
  port : JSString;
  pathname : JSString;
  search : JSString;
  fragment : option JSString
}.

Definition URL_hash (u : URL) : JSString :=
  match fragment u with
  | Some (c :: f) => HASH :: c :: f
  | _ => []
  end.

(** ** Types of the file *)

Inductive Visibility : Type := V_public | V_password | V_burn.

Definition Visibility_string (v : Visibility) : JSString :=
  match v with
  | V_public => js "public"
  | V_password => js "password"
  | V_burn => js "burn"
  end.

Inductive Expiry : Type := E_1h | E_24h | E_7d | E_30d | E_never.

Record SnippetOptions : Type := {
  opt_content : JSString;
  opt_language : option JSString;
  opt_fileName : option JSString;
  opt_visibility : Visibility;
  opt_expiry : Expiry;
  opt_password : option JSString
}.

Record CreateSnippetResponse : Type := {
  resp_id : JSString;
  resp_url : JSString;
  resp_expiresAt : option JSString
}.

(** An object with string members, as [JSON.stringify] writes it: members
    whose value is [undefined] are left out. *)
Definition JSONObject : Type := list (JSString * JSString).

Fixpoint JSON_members (l : list (JSString * option JSString)) : JSONObject :=
  match l with
  | [] => []
  | (name, Some v) :: rest => (name, v) :: JSON_members rest
  | (_, None) :: rest => JSON_members rest
  end.

(** What [makeRequest] hands to the [http]/[https] module. *)
Record HttpRequest : Type := {
  rq_https : bool;
  rq_hostname : JSString;
  rq_port : JSString;
  rq_path : JSString;
  rq_method : JSString;
  rq_headers : list (JSString * JSString);
  rq_body : option JSONObject
}.

Record ParsedSnipitUrl : Type := {
  id : JSString;
  key_fragment : option JSString     (* the member [key] *)
}.

Record CreateSnippetResult : Type := {
  res_url : JSString;
  res_id : JSString
}.

(** [try { ... } catch { handler }]. *)
Definition try_catch {A} (body : Completion A) (handler : Completion A) : Completion A :=
  match body with
  | Normal a => Normal a
  | Throw _ => handler
  end.

Section Snipit.

(** The collaborators of the file: the URL parser of the runtime ([None]
    when [new URL] throws), the date formatter, the configured API URL, the
    clock, and the remote store answering a creation request (what
    [makeRequest] resolves or rejects with once the request is sent). *)
Variable parse_url : JSString -> option URL.
Variable Date_toISOString : N -> JSString.
Variable store : HttpRequest -> Completion CreateSnippetResponse.

Definition new_URL (url : JSString) : Completion URL :=
  match parse_url url with
  | Some u => Normal u
  | None => Throw ERR_INVALID_URL
  end.

(** [makeRequest], lines 46-58 and 83-87: the request that is written.
    Nothing is sent when the URL does not parse. *)
Definition build_request (method url : JSString) (data : option JSONObject)
  : Completion HttpRequest :=
  let* parsedUrl := new_URL url in
  let https := string_eqb (protocol parsedUrl) (js "https:") in
  Normal {| rq_https := https;
            rq_hostname := hostname parsedUrl;
            rq_port :=
              match port parsedUrl with
              | [] => if https then js "443" else js "80"
              | p => p
              end;
            rq_path := pathname parsedUrl ++ search parsedUrl;
            rq_method := method;
            rq_headers :=
              [(js "Content-Type", js "application/json");
               (js "User-Agent", js "snipit-vscode/0.1.0")];
            rq_body := data |}.

(** [expiryMap], lines 101-107. *)
Definition expiryMap (e : Expiry) : option N :=
  match e with
  | E_1h => Some (60 * 60)
  | E_24h => Some (24 * 60 * 60)
  | E_7d => Some (7 * 24 * 60 * 60)
  | E_30d => Some (30 * 24 * 60 * 60)
  | E_never => None
  end.

(** Lines 109-123: the body of the request. *)
Definition requestBody (now : N) (options : SnippetOptions)
  : list (JSString * option JSString) :=
  let expirySeconds := expiryMap (opt_expiry options) in
  let expiresAt :=
    match expirySeconds with
    | Some s => if s =? 0 then None else Some (Date_toISOString (now + s * 1000))
    | None => None
    end in
  [(js "content", Some (opt_content options));
   (js "language", opt_language options);
   (js "fileName", opt_fileName options);
   (js "visibility", Some (Visibility_string (opt_visibility options)));
   (js "expiresAt", expiresAt);
   (js "password", opt_password options)].

(** [createSnippet], lines 95-138: the result, and the requests that went
    out.  The random source is threaded through to show it is not used. *)
Definition createSnippet (apiUrl : JSString) (now : N) (options : SnippetOptions)
  (rng : RandomSource)
  : Completion CreateSnippetResult * list HttpRequest * RandomSource :=
  match build_request (js "POST") (apiUrl ++ js "/api/snippets")
          (Some (JSON_members (requestBody now options))) with
  | Throw e => (Throw e, [], rng)
  | Normal request =>
      (let* response := store request in
       let fullUrl := apiUrl ++ js "/" ++ resp_id response in
       Normal {| res_url := fullUrl; res_id := resp_id response |},
       [request], rng)
  end.

(** [parseSnipitUrl], lines 203-215; [null] is [None]. *)
Definition parseSnipitUrl (url : JSString) : Completion (option ParsedSnipitUrl) :=
  try_catch
    (let* parsed := new_URL url in
     if negb (String_includes (hostname parsed) (js "snipit")) then Normal None
     else
       let id := before_first SLASH (remove_leading SLASH (pathname parsed)) in
       let key := or_undefined (remove_leading HASH (URL_hash parsed)) in
       Normal (Some {| id := id; key_fragment := key |}))
    (Normal None).

End Snipit.

(** ** Collaborators for worked examples: a parser that knows the creation
    endpoint of the default API URL, a formatter and a store that answers
    every request with the same record. *)
Definition example_parse_url (s : JSString) : option URL :=
  if string_eqb s (js "https://snipit.sh/api/snippets") then
    Some {| protocol := js "https:"; hostname := js "snipit.sh"; port := [];
            pathname := js "/api/snippets"; search := []; fragment := None |}
  else None.

Definition example_toISOString (ms : N) : JSString := [].

Definition example_store (request : HttpRequest) : Completion CreateSnippetResponse :=
  Normal {| resp_id := js "abc123"; resp_url := js "https://snipit.sh/abc123";
            resp_expiresAt := None |}.

(** The names of the members of an object. *)
Definition member_names (o : JSONObject) : list JSString := map fst o.

(* ================================================================== *)
(** * api/snipit.ts: [getSnippet] *)
(* ================================================================== *)

(** A promise settles with a value, with an error of the runtime, or with
    [new Error(message)]. *)
Inductive Rejection : Type :=
| RuntimeError (e : JsError)
| Error (message : JSString).

Inductive Promise (A : Type) : Type :=
| Resolved (a : A)
| Rejected (r : Rejection).
Arguments Resolved {A} a.
Arguments Rejected {A} r.

Definition of_completion {A} (c : Completion A) : Promise A :=
  match c with
  | Normal a => Resolved a
  | Throw e => Rejected (RuntimeError e)
  end.

Record GetSnippetResponse : Type := {
  gs_id : JSString;
  gs_content : option JSString;
  gs_encrypted : option EncryptedData;
  gs_salt : option JSString;
  gs_language : option JSString;
  gs_fileName : option JSString;
  gs_visibility : Visibility;
  gs_createdAt : JSString;
  gs_expiresAt : option JSString;
  gs_burned : option bool
}.

Record SnippetContent : Type := {
  sc_content : JSString;
  sc_language : option JSString;
  sc_fileName : option JSString
}.

(** A string in a condition: [undefined] and the empty string are falsy. *)
Definition truthy (s : option JSString) : bool :=
  match s with
  | Some (_ :: _) => true
  | _ => false
  end.

Section SnipitRead.

(** The URL parser of the runtime and the remote store answering a read
    request (what [makeRequest] settles with once the request is sent). *)
Variable parse_url : JSString -> option URL.
Variable fetch : HttpRequest -> Promise GetSnippetResponse.

(** Lines 150-159: the id and the key read from the argument. *)
Definition locate (idOrUrl : JSString) : Completion (JSString * option JSString) :=
  if String_includes idOrUrl (js "snipit.sh") || String_includes idOrUrl (js "://")
  then
    let* url := new_URL parse_url idOrUrl in
    Normal (before_first SLASH (remove_leading SLASH (pathname url)),
            or_undefined (remove_leading HASH (URL_hash url)))
  else Normal (idOrUrl, None).

(** Lines 166-197: what is made of the response. *)
Definition read_response (response : GetSnippetResponse)
  (encryptionKey password : option JSString) : Promise SnippetContent :=
  match gs_burned response with
  | Some true => Rejected (Error (js "This snippet has been burned (already viewed)"))
  | _ =>
      let content : Promise JSString :=
        match gs_content response with
        | Some (x :: c) => Resolved (x :: c)
        | _ =>
            match gs_encrypted response with
            | Some encrypted =>
                match gs_visibility response with
                | V_password =>
                    match password with
                    | Some (x :: pw) =>
                        match gs_salt response with
                        | Some (y :: salt) =>
                            of_completion
                              (decryptWithPassword encrypted (x :: pw) (y :: salt))
                        | _ => Rejected (Error (js "Missing salt for password decryption"))
                        end
                    | _ => Rejected (Error (js "Password required"))
                    end
                | _ =>
                    match encryptionKey with
                    | Some (x :: k) => of_completion (decrypt encrypted (x :: k))
                    | _ =>
                        Rejected
                          (Error (js "Encryption key required (should be in URL fragment)"))
                    end
                end
            | None => Rejected (Error (js "No content found in snippet"))
            end
        end in
      match content with
      | Resolved c =>
          Resolved {| sc_content := c; sc_language := gs_language response;
                      sc_fileName := gs_fileName response |}
      | Rejected r => Rejected r
      end
  end.

(** [getSnippet], lines 143-198: what the promise settles with, and the
    requests that went out. *)
Definition getSnippet (apiUrl idOrUrl : JSString) (password : option JSString)
  : Promise SnippetContent * list HttpRequest :=
  match locate idOrUrl with
  | Throw e => (Rejected (RuntimeError e), [])
  | Normal (id, encryptionKey) =>
      match build_request parse_url (js "GET") (apiUrl ++ js "/api/snippets/" ++ id)
              None with
      | Throw e => (Rejected (RuntimeError e), [])
      | Normal request =>
          (match fetch request with
           | Rejected r => Rejected r
           | Resolved response => read_response response encryptionKey password
           end,
           [request])
      end
  end.

End SnipitRead.

(* ================================================================== *)
(** * providers/historyProvider.ts *)
(* ================================================================== *)

Record HistoryItem : Type := {
  h_id : JSString;
  h_url : JSString;
  h_fileName : JSString;
  h_language : JSString;
  h_visibility : Visibility;
  h_createdAt : JSString;
  h_expiresAt : option JSString
}.

(** The value kept under 'snipit.history' in the global state: nothing
    yet, or an array.  [get] hands out the stored array itself, so what
    [unshift] and the assignment to [length] do to it is done to the
    store. *)
Definition GlobalState : Type := option (list HistoryItem).

(** [getHistory], lines 41-43. *)
Definition getHistory (st : GlobalState) : list HistoryItem :=
  match st with
  | Some history => history
  | None => []
  end.

(** How the promise of [addToHistory] settles. *)
Inductive AddOutcome : Type :=
| Added
| InvalidArrayLength.            (* RangeError: Invalid array length *)

(** [addToHistory], lines 48-64, with the setting [maxHistoryItems] an
    integer.  Assigning a negative length to an array throws, after
    [unshift] has changed the array. *)
Definition addToHistory (maxItems : Z) (item : HistoryItem) (st : GlobalState)
  : AddOutcome * GlobalState :=
  let history := item :: getHistory st in
  let aliased (h : list HistoryItem) : GlobalState :=
    match st with
    | Some _ => Some h
    | None => None
    end in
  if (maxItems <? Z.of_nat (length history))%Z then
    if (maxItems <? 0)%Z then (InvalidArrayLength, aliased history)
    else (Added, Some (firstn (Z.to_nat maxItems) history))
  else (Added, Some history).

(** [removeFromHistory], lines 69-74. *)
Definition removeFromHistory (id : JSString) (st : GlobalState) : GlobalState :=
  Some (filter (fun item => negb (string_eqb (h_id item) id)) (getHistory st)).

(** [clearHistory], lines 79-82. *)
Definition clearHistory (st : GlobalState) : GlobalState := Some [].

(** [getItem], lines 87-89. *)
Definition getItem (id : JSString) (st : GlobalState) : option HistoryItem :=
  find (fun item => string_eqb (h_id item) id) (getHistory st).

Definition example_item : HistoryItem :=
  {| h_id := js "abc123"; h_url := js "https://snipit.sh/abc123";
     h_fileName := js "example.ts"; h_language := js "typescript";
     h_visibility := V_public; h_createdAt := js "2024-01-01T00:00:00.000Z";
     h_expiresAt := None |}.

(* ================================================================== *)
(** * commands/share.ts: the tables and validators of the share command *)
(* ================================================================== *)

(** The expiry table of the command, in milliseconds (it dates the history
    entry). *)
Definition share_expiryMap (e : Expiry) : option N :=
  match e with
  | E_1h => Some (60 * 60 * 1000)
  | E_24h => Some (24 * 60 * 60 * 1000)
  | E_7d => Some (7 * 24 * 60 * 60 * 1000)
  | E_30d => Some (30 * 24 * 60 * 60 * 1000)
  | E_never => None
  end.

(** [validateInput] of the password box: [null] ([None]) accepts. *)
Definition validatePassword (value : option JSString) : option JSString :=
  if negb (truthy value)
     || match value with
        | Some v => (length v <? 4)%nat
        | None => true
        end
  then Some (js "Password must be at least 4 characters")
  else None.

(** [validateInput] of the confirmation box. *)
Definition validateConfirmation (password value : JSString) : option JSString :=
  if negb (string_eqb value password) then Some (js "Passwords do not match")
  else None.

(* ================================================================== *)
(** * commands/paste.ts: the validator of the URL box *)
(* ================================================================== *)

Definition paste_validateInput (parse_url : JSString -> option URL)
  (value : option JSString) : option JSString :=
  if negb (truthy value) then Some (js "URL is required")
  else
    match value with
    | Some v =>
        match parseSnipitUrl parse_url v with
        | Normal (Some _) => None
        | _ => Some (js "Invalid Snipit.sh URL")
        end
    | None => Some (js "URL is required")
    end.

(** ** Collaborators for worked examples of reading: a parser that knows a
    few links as the runtime parses them, and stores that answer with what
    [encrypt] and [encryptWithPassword] made. *)
Definition example_parse_link (s : JSString) : option URL :=
  let at_host (h p : JSString) (f : option JSString) :=
    Some {| protocol := js "https:"; hostname := h; port := []; pathname := p;
            search := []; fragment := f |} in
  if string_eqb s (js "https://snipit.sh/api/snippets/abc123") then
    at_host (js "snipit.sh") (js "/api/snippets/abc123") None
  else if string_eqb s (js "https://snipit.sh/abc123") then
    at_host (js "snipit.sh") (js "/abc123") None
  else if string_eqb s (js "https:snipit.io/abc123") then
    at_host (js "snipit.io") (js "/abc123") None
  else if starts_with (js "https://snipit.sh/abc123#") s then
    at_host (js "snipit.sh") (js "/abc123")
      (Some (skipn (length (js "https://snipit.sh/abc123#")) s))
  else None.

Definition example_response (E : EncryptedData) (v : Visibility)
  (salt : option JSString) : GetSnippetResponse :=
  {| gs_id := js "abc123"; gs_content := None; gs_encrypted := Some E;
     gs_salt := salt; gs_language := Some (js "typescript");
     gs_fileName := Some (js "example.ts"); gs_visibility := v;
     gs_createdAt := js "2024-01-01T00:00:00.000Z"; gs_expiresAt := None;
     gs_burned := None |}.

Definition answer_with {A} (c : Completion A) (f : A -> GetSnippetResponse)
  : Promise GetSnippetResponse :=
  match c with
  | Normal a => Resolved (f a)
  | Throw e => Rejected (RuntimeError e)
  end.

Definition example_fetch (request : HttpRequest) : Promise GetSnippetResponse :=
  answer_with (fst (encrypt (js "Hello, World!") example_rng))
    (fun r => example_response (encrypted r) V_public None).

Definition example_fetch_password (request : HttpRequest) : Promise GetSnippetResponse :=
  answer_with
    (fst (encryptWithPassword (js "Secret content") (js "MySecurePassword123!")
            example_rng))
    (fun r => example_response (pw_encrypted r) V_password (Some (pw_salt r))).

(** ** Views used to state the properties of [getSnippet] *)

(** The link is read as id [i] and key [k], and the store answers the
    request for [i] with [response]. *)
Definition answers (parse_url : JSString -> option URL)
  (fetch : HttpRequest -> Promise GetSnippetResponse)
  (apiUrl link i : JSString) (k : option JSString) (response : GetSnippetResponse)
  : Prop :=
  locate parse_url link = Normal (i, k)
  /\ exists request,
       build_request parse_url (js "GET") (apiUrl ++ js "/api/snippets/" ++ i) None
       = Normal request
       /\ fetch request = Resolved response.

(** The response is not burned, has no plain content and carries the
    envelope [E]. *)
Definition carries (response : GetSnippetResponse) (E : EncryptedData) : Prop :=
  gs_burned response <> Some true
  /\ truthy (gs_content response) = false
  /\ gs_encrypted response = Some E.

Definition example_link : JSString :=
  js "https://snipit.sh/abc123#AwoRGB8mLTQ7QklQV15lbHN6gYiPlp2kq7K5wMfO1dw".

(* ================================================================== *)
(** * commands/paste.ts: fetching the snippet (lines 43-68) *)
(* ================================================================== *)

Inductive PasteOutcome : Type :=
| Pasted (content : JSString) (language : option JSString)
| Cancelled
| Failed (r : Rejection).

(** [error.message === 'Password required']; no error of the runtime has
    this message. *)
Definition is_password_required (r : Rejection) : bool :=
  match r with
  | Error message => string_eqb message (js "Password required")
  | RuntimeError _ => false
  end.

Section Paste.

Variable parse_url : JSString -> option URL.

(** The store at the first and at the second request. *)
Variables fetch1 fetch2 : HttpRequest -> Promise GetSnippetResponse.

(** [typed] is what the password box returns. *)
Definition paste_fetch (apiUrl url : JSString) (typed : option JSString)
  : PasteOutcome * list HttpRequest :=
  let first := getSnippet parse_url fetch1 apiUrl url None in
  match fst first with
  | Resolved result => (Pasted (sc_content result) (sc_language result), snd first)
  | Rejected error =>
      if is_password_required error then
        if negb (truthy typed) then (Cancelled, snd first)
        else
          let second := getSnippet parse_url fetch2 apiUrl url typed in
          (match fst second with
           | Resolved result => Pasted (sc_content result) (sc_language result)
           | Rejected error' => Failed error'
           end,
           snd first ++ snd second)
      else (Failed error, snd first)
  end.

End Paste.

(* ================================================================== *)
(** * providers/historyProvider.ts: [HistoryTreeItem.formatDate] *)
(* ================================================================== *)

(** The text shown: 'just now', `${n}m ago`, `${n}h ago`, `${n}d ago`, or
    the date in the locale's format. *)
Inductive DateLabel : Type :=
| JustNow
| MinutesAgo (n : Z)
| HoursAgo (n : Z)
| DaysAgo (n : Z)
| LocaleDate.

(** [formatDate], lines 120-139, on the time values in milliseconds of the
    parsed date ([None] for an invalid date, whose time value is NaN) and
    of the present.  Every comparison with NaN is false. *)
Definition formatDate (date : option Z) (now : Z) : DateLabel :=
  match date with
  | None => LocaleDate
  | Some t =>
      let diffMs := (now - t)%Z in
      let diffMins := (diffMs / 60000)%Z in
      let diffHours := (diffMins / 60)%Z in
      let diffDays := (diffHours / 24)%Z in
      if (diffMins <? 1)%Z then JustNow
      else if (diffMins <? 60)%Z then MinutesAgo diffMins
      else if (diffHours <? 24)%Z then HoursAgo diffHours
      else if (diffDays <? 7)%Z then DaysAgo diffDays
      else LocaleDate
  end.

(* ================================================================== *)
(** * utils/clipboard.ts: the file name in [getSelectedText] *)
(* ================================================================== *)

(** The class [/\\] of the regular expression. *)
Definition is_separator (c : N) : bool := (c =? 47) || (c =? 92).

(** [String.prototype.split] with a pattern that matches one code unit. *)
Fixpoint split_separators (s : JSString) : list JSString :=
  match s with
  | [] => [[]]
  | c :: s' =>
      if is_separator c then [] :: split_separators s'
      else
        match split_separators s' with
        | piece :: pieces => (c :: piece) :: pieces
        | [] => [[c]]
        end
  end.

(** [Array.prototype.pop], the value returned. *)
Definition pop {A} (l : list A) : option A := last (map Some l) None.

(** [document.fileName.split(/[/\\]/).pop() || 'untitled']. *)
Definition document_name (fileName : JSString) : JSString :=
  match pop (split_separators fileName) with
  | Some (c :: piece) => c :: piece
  | _ => js "untitled"
  end.

(* ================================================================== *)
(** * The field of GHASH: views used to show what a change of the
      ciphertext does to the tag *)
(* ================================================================== *)

Module GF.

(** The blocks of the polynomials 1 and x. *)
Definition one : N := 2 ^ 127.
Definition x : N := 2 ^ 126.

(** What one round of [GCM.mul_loop] does to V: multiplication by x. *)
Definition xtimes (V : N) : N :=
  if N.odd V then N.lxor (V / 2) GCM.R else V / 2.

Definition sq (a : N) : N := GCM.mul a a.

(** a^(2^k). *)
Definition frob (k : nat) (a : N) : N := Nat.iter k sq a.

(** The product of a^(2^k) for k < n, which is a^(2^n - 1), and for
    1 <= k <= n. *)
Fixpoint norm (n : nat) (a : N) : N :=
  match n with
  | O => one
  | S k => GCM.mul (norm k a) (frob k a)
  end.

Fixpoint conorm (n : nat) (a : N) : N :=
  match n with
  | O => one
  | S k => GCM.mul (conorm k a) (frob (S k) a)
  end.

(** a^(2^128 - 2). *)
Definition inverse (a : N) : N := conorm 127 a.

(** a^2 + a, which is 0 exactly for the idempotents. *)
Definition artin (a : N) : N := N.lxor (sq a) a.

(** A matrix over GF(2), given by the images of the powers of 2 from
    2^j on, applied to a vector. *)
Fixpoint apply_rows (rows : list N) (j : nat) (v : N) : N :=
  match rows with
  | [] => 0
  | r :: rest =>
      N.lxor (if N.testbit v (N.of_nat j) then r else 0) (apply_rows rest (S j) v)
  end.

(** A left inverse of [artin] up to the coefficient of 1, found by
    elimination. *)
Definition artin_section : list N :=
  [0;
   6161591008139076202154902373133594561;
   71430717218983613641036104277415506289;
   87518597585245962833849474628053070758;
   72921817864677867521778898634038080609;
   163309321578052146879237778733101511783;
   126814247099887467207929949960147586332;
   133487668004820722767044853458355047125;
   108887185710678174598840578861931466132;
   72978216601350599296199603180564021825;
   126976600203468727039316187211004055892;
   49689517519420395515082114066310337331;
   12764899024296983899235621676887115841;
   59792954277794326371429463258526948146;
   275464514806027128612938827324864;
   33882886127255646541338116557250298163;
   133385434108064708788808215410435911893;
   153238470225796905537047657204766862374;
   127777348636302309636952298273557535380;
   58594334107495617071392172125656399538;
   5725366257701666555538562805218717057;
   159324042485362592547018579093184240551;
   149021274876537960721224429182834492454;
   94333773739946854309780815578084996199;
   161752945482599484730126084874801441767;
   115575792119390728221592460023876181333;
   133436244703473040169882794575366898389;
   34751610155981195849944733847405496627;
   100972845268357601278728964017462078439;
   44935323831972008745566419208193456946;
   132003651752985294974180122299820886164;
   45594221442569777339127844318073854322;
   100983558286137050684044238585428660711;
   140308235276559149970208740923126577813;
   92325303522414418149753570460923091879;
   26944628100264108509229864938392397555;
   81071795988965022717357904530596407232;
   58275656592719279154056000246173111091;
   51613027339492204128265575524803459891;
   142140898696765075202304690604976981845;
   53639910565545342273528145980335791795;
   4726979706490419237355323591502507968;
   161542955870533464563010084267448332775;
   65334779303751560239471195525024588352;
   122557457634345817322758110469731963540;
   79569572988994598121356082874814992321;
   9537274821874957483351388617584152641;
   109427184872331881977228478262674814292;
   96504253903287235160744645914913229863;
   35809052500294759256374056413191545715;
   63089105448741488643398279942380763954;
   84108490886122099842324906724524496768;
   161537358671016203777973217828391545831;
   49921000058860506912943830473554996979;
   113870918609522322281985099445019275925;
   45994406431766860863727072382817147250;
   6116654749483988959971426010360459777;
   88394181539591460295416373139500891046;
   93226277353508642900164249188457535015;
   123506241354959402090274531190302866772;
   72992884249465865451566362034747193217;
   123492369307601207700488716387690115284;
   67288019353279926038130604499846823936;
   96617416833907240315124182200439430055;
   6161591008139076220601646446843146177;
   87518597585245962796955986480633967526;
   163309321578052146805450802438263305319;
   133487668004820722619470900868678634197;
   72978216601350599591347508359916847681;
   49689517519420396105377924425015989043;
   59792954277794325190837842541115644722;
   33882886127255648902521357992072905011;
   153238470225796900814681174335121648678;
   58594334107495626516125137864946826930;
   159324042485362573657552647614603385767;
   94333773739946892088712678535246705767;
   115575792119390803779456185938199600469;
   34751610155981346965672185676052334899;
   44935323831971706514111515550899780402;
   45594221442570381802037651632661207410;
   140308235276560358896028355552301283989;
   26944628100266526360869094196741809907;
   58275656592714443450777541729474286387;
   142140898696755403795747773571579332437;
   4726979706471076424241489524707209152;
   65334779303712874613243527391433990720;
   79569572989071969373811419141996187585;
   109427184872177139472317805728312423764;
   35809052500604244266195401481916326771;
   84108490886741069861967596861974058880;
   49921000057622566873658450198655872755;
   45994406429290980785156311833018898802;
   88394181544543220452557894239097387942;
   123506241345055881775991488991109872980;
   123492369287794167071922631989304127700;
   96617416873521321572256350997211405223;
   87518597506017800282691648887090017190;
   133487668163277047647999576055766534869;
   49689517202507746048320574050840187699;
   33882886761080949016636058740424507699;
   58594332839845026287895736368243621554;
   94333771204645691632253875541840295015;
   34751615226583747878589791662865156403;
   45594211301365579976202439659035564402;
   26944648382676130012539518143993095923;
   142140858131936196492406925677076760405;
   65334698174074460006561831602428846656;
   109427022612900310258954414150302135636;
   84108166368187411435240813705953482624;
   45993757392183663931702745520977746290;
   123504943270841248069084356367027567956;
   96614820725092054158442085749046795175;
   133492860460135582475628106552095754965;
   33893271354798018671893119733082947891;
   94354540392079830942767997527157175399;
   45552672926497301355174195688401803634;
   142223934881672753734463413618344281941;
   109593176112373424743067390032837178708;
   46326064391129892899928697286047832434;
   95950206727199596221990182218906622887;
   32564043359013102798989312672802603315;
   42894216934927469609366581567841114482;
   114910088095513088234682618273958557012;
   85316382760920269238759725736663866279;
   64161864867486123575827494532326627698;
   127851678626037577171681551665634892711;
   42781086895802961305837899807692839847;
   22349210433241643211303706255459310228].

End GF.

(** The block the tag is written from, for no additional data: GHASH of
    the ciphertext and its length, and the encrypted pre-counter block. *)
Definition tag_number (k n C : Buffer) : N :=
  N.lxor (GCM.GHASH (GCM.hash_subkey k) (GCM.blocks C ++ [GCM.bit_length C]))
    (AES.encrypt_block k (GCM.J0 k n)).

(** A key that is not the key of [example_rng]. *)
Definition another_key : Buffer :=
  map (fun i => byte_of_N (N.of_nat i * 11 + 5)) (seq 0 32).

(* ================================================================== *)
(* ================================================================== *)
(** * Properties *)
(* ================================================================== *)
(* ================================================================== *)

Example toBase64Url_fb_ff_fe : toBase64Url [xfb; xff; xfe] = js "-__-".
Proof. reflexivity. Qed.

Example toBase64Url_hello :
  toBase64Url [x68; x65; x6c; x6c; x6f] = js "aGVsbG8".
Proof. reflexivity. Qed.

Example fromBase64Url_hello :
  fromBase64Url (js "aGVsbG8") = Normal [x68; x65; x6c; x6c; x6f].
Proof. reflexivity. Qed.

(* ------------------------------------------------------------------ *)
(** ** Octets and finite checks *)

Ltac Zify.zify_post_hook ::= Z.to_euclidean_division_equations.

Lemma N_of_byte_lt (b : byte) : N_of_byte b < 256.
Proof. unfold N_of_byte. pose proof (Byte.to_N_bounded b). lia. Qed.

Lemma byte_of_N_of_byte (b : byte) : byte_of_N (N_of_byte b) = b.
Proof.
  unfold byte_of_N, N_of_byte.
  rewrite N.mod_small by (pose proof (Byte.to_N_bounded b); lia).
  now rewrite Byte.of_to_N.
Qed.

Lemma N_of_byte_of_N (n : N) : n < 256 -> N_of_byte (byte_of_N n) = n.
Proof.
  intros Hn. unfold byte_of_N, N_of_byte.
  rewrite N.mod_small by assumption.
  destruct (Byte.of_N n) as [b|] eqn:E.
  - now apply Byte.to_of_N.
  - pose proof (Byte.to_of_N_option_map n) as H. rewrite E in H. simpl in H.
    destruct (N.leb_spec n 255); [discriminate | lia].
Qed.

Lemma byte_of_N_eq (n : N) (b : byte) : n = N_of_byte b -> byte_of_N n = b.
Proof. intros ->. apply byte_of_N_of_byte. Qed.

(** A property of sextets is decided by running it on the 64 of them. *)
Lemma sextet_cases (f : N -> bool) :
  forallb f (map N.of_nat (seq 0 64)) = true ->
  forall i, i < 64 -> f i = true.
Proof.
  intros H i Hi. rewrite forallb_forall in H. apply H.
  apply in_map_iff. exists (N.to_nat i). split; [lia|].
  apply in_seq. lia.
Qed.

Lemma list_ind3 {A} (P : list A -> Prop) :
  P [] -> (forall x, P [x]) -> (forall x y, P [x; y]) ->
  (forall x y z l, P l -> P (x :: y :: z :: l)) ->
  forall l, P l.
Proof.
  intros H0 H1 H2 H3.
  assert (forall l, P l /\ (forall x, P (x :: l)) /\ (forall x y, P (x :: y :: l))) as H.
  { induction l as [|a l (IH0 & IH1 & IH2)]; repeat split; auto. }
  intros l. apply H.
Qed.

(* ------------------------------------------------------------------ *)
(** ** The URL-safe codec *)

Lemma data_sextets_range b : Forall (fun i => i < 64) (data_sextets b).
Proof.
  induction b as [|x|x y|x y z l IH] using list_ind3;
    cbn [data_sextets]; cbv zeta.
  - constructor.
  - pose proof (N_of_byte_lt x). repeat (apply Forall_cons; [lia|]). constructor.
  - pose proof (N_of_byte_lt x). pose proof (N_of_byte_lt y).
    repeat (apply Forall_cons; [lia|]). constructor.
  - pose proof (N_of_byte_lt x). pose proof (N_of_byte_lt y).
    pose proof (N_of_byte_lt z).
    repeat (apply Forall_cons; [lia|]). exact IH.
Qed.

Lemma encode_shape b :
  Base64.encode b =
  map Base64.char_of (data_sextets b) ++ repeat Base64.PAD (pad_count b).
Proof.
  induction b as [|x|x y|x y z l IH] using list_ind3;
    cbn [Base64.encode data_sextets pad_count map repeat app]; cbv zeta;
    cbn [map app]; try reflexivity.
  now rewrite IH.
Qed.

Lemma octets_data_sextets b : Base64.octets (data_sextets b) = b.
Proof.
  induction b as [|x|x y|x y z l IH] using list_ind3;
    cbn [data_sextets Base64.octets]; cbv zeta; try reflexivity.
  - f_equal. apply byte_of_N_eq. pose proof (N_of_byte_lt x). lia.
  - pose proof (N_of_byte_lt x). pose proof (N_of_byte_lt y).
    f_equal; [|f_equal]; apply byte_of_N_eq; lia.
  - pose proof (N_of_byte_lt x). pose proof (N_of_byte_lt y).
    pose proof (N_of_byte_lt z).
    rewrite IH. f_equal; [|f_equal; [|f_equal]]; apply byte_of_N_eq; lia.
Qed.

Lemma urlsafe_char_of_spec i :
  i < 64 ->
  Base64.unbase64 (urlsafe_char_of i) = Some i
  /\ is_urlsafe (urlsafe_char_of i) = true
  /\ urlsafe_char_of i <> Base64.PLUS
  /\ urlsafe_char_of i <> Base64.SLASH
  /\ urlsafe_char_of i <> Base64.PAD.
Proof.
  intros Hi.
  pose (f := fun i =>
    match Base64.unbase64 (urlsafe_char_of i) with
    | Some j => j =? i | None => false end
    && is_urlsafe (urlsafe_char_of i)
    && negb (urlsafe_char_of i =? Base64.PLUS)
    && negb (urlsafe_char_of i =? Base64.SLASH)
    && negb (urlsafe_char_of i =? Base64.PAD)).
  assert (f i = true) as H by (apply sextet_cases; [vm_compute; reflexivity | exact Hi]).
  unfold f in H. rewrite !andb_true_iff, !negb_true_iff, !N.eqb_neq in H.
  destruct H as ((((H1 & H2) & H3) & H4) & H5).
  destruct (Base64.unbase64 (urlsafe_char_of i)) as [j|]; [|discriminate].
  apply N.eqb_eq in H1. subst j. auto.
Qed.

Lemma toBase64Url_shape b : toBase64Url b = map urlsafe_char_of (data_sextets b).
Proof.
  unfold toBase64Url, Buffer_toString_base64, remove_all, replace_all.
  rewrite encode_shape, !map_app, filter_app.
  assert (forall k, filter (fun x => negb (x =? Base64.PAD))
            (map (fun x => if x =? Base64.SLASH then Base64.UNDER else x)
               (map (fun x => if x =? Base64.PLUS then Base64.MINUS else x)
                  (repeat Base64.PAD k))) = []) as Hpad.
  { induction k; [reflexivity | exact IHk]. }
  rewrite Hpad, app_nil_r.
  pose proof (data_sextets_range b) as Hr.
  induction Hr as [|i l Hi _ IH]; [reflexivity|].
  cbn [map filter].
  change (if (if Base64.char_of i =? Base64.PLUS then Base64.MINUS else Base64.char_of i)
             =? Base64.SLASH then Base64.UNDER
          else (if Base64.char_of i =? Base64.PLUS then Base64.MINUS else Base64.char_of i))
    with (urlsafe_char_of i).
  destruct (urlsafe_char_of_spec i Hi) as (_ & _ & _ & _ & Hp).
  apply N.eqb_neq in Hp. rewrite Hp. cbn [negb]. now rewrite IH.
Qed.

(** The substitutions of [fromBase64Url] do not change what the decoder
    reads, and neither does the padding loop. *)
Lemma sextets_replace_all s :
  Base64.sextets
    (replace_all Base64.UNDER Base64.SLASH (replace_all Base64.MINUS Base64.PLUS s))
  = Base64.sextets s.
Proof.
  unfold replace_all. rewrite map_map.
  induction s as [|c s IH]; [reflexivity|].
  cbn [map Base64.sextets]. rewrite IH.
  destruct (N.eqb_spec c Base64.MINUS) as [->|Hm]; [reflexivity|].
  destruct (N.eqb_spec c Base64.UNDER) as [->|Hu]; reflexivity.
Qed.

Lemma sextets_app_pads s k :
  Base64.sextets (s ++ repeat Base64.PAD k) = Base64.sextets s.
Proof.
  induction s as [|c s IH]; cbn [app Base64.sextets].
  - destruct k; reflexivity.
  - rewrite IH. reflexivity.
Qed.

Lemma pad_loop_shape fuel s : exists k, pad_loop fuel s = s ++ repeat Base64.PAD k.
Proof.
  revert s. induction fuel as [|fuel IH]; intros s; cbn [pad_loop].
  - exists O. now rewrite app_nil_r.
  - destruct (_ =? 0).
    + exists O. now rewrite app_nil_r.
    + destruct (IH (s ++ [Base64.PAD])) as [k ->]. exists (S k).
      now rewrite <- app_assoc.
Qed.

(** Three rounds are enough for the loop condition to become false. *)
Lemma pad_loop_exits s : N.of_nat (length (pad_loop 3 s)) mod 4 = 0.
Proof.
  cbn [pad_loop].
  repeat (match goal with
          | |- context [if ?c then _ else _] => destruct c eqn:?
          end; [apply N.eqb_eq; assumption|]).
  repeat match goal with H : (_ =? 0) = false |- _ => apply N.eqb_neq in H end.
  rewrite !length_app in *. cbn [length] in *. lia.
Qed.

Lemma fromBase64Url_decodes s :
  fromBase64Url s = Normal (Base64.octets (Base64.sextets s)).
Proof.
  unfold fromBase64Url, Buffer_from_base64, Base64.decode.
  destruct (pad_loop_shape 3
    (replace_all Base64.UNDER Base64.SLASH (replace_all Base64.MINUS Base64.PLUS s)))
    as [k ->].
  now rewrite sextets_app_pads, sextets_replace_all.
Qed.

Lemma sextets_urlsafe l :
  Forall (fun i => i < 64) l -> Base64.sextets (map urlsafe_char_of l) = l.
Proof.
  induction 1 as [|i l Hi _ IH]; [reflexivity|].
  cbn [map Base64.sextets].
  destruct (urlsafe_char_of_spec i Hi) as (-> & _). now rewrite IH.
Qed.

Lemma fromBase64Url_toBase64Url b : fromBase64Url (toBase64Url b) = Normal b.
Proof.
  rewrite fromBase64Url_decodes, toBase64Url_shape.
  rewrite sextets_urlsafe by apply data_sextets_range.
  now rewrite octets_data_sextets.
Qed.

(** C4.  The URL-safe codec round-trips every octet sequence, the empty
    sequence encodes to the empty string, and an encoded key contains none
    of '+', '/' and '='. *)
Theorem base64url_roundtrip (b : Buffer) :
  fromBase64Url (toBase64Url b) = Normal b
  /\ toBase64Url [] = []
  /\ ~ In Base64.PLUS (toBase64Url b)
  /\ ~ In Base64.SLASH (toBase64Url b)
  /\ ~ In Base64.PAD (toBase64Url b).
Proof.
  split; [|split; [reflexivity|]].
  - rewrite fromBase64Url_decodes, toBase64Url_shape.
    rewrite sextets_urlsafe by apply data_sextets_range.
    now rewrite octets_data_sextets.
  - rewrite toBase64Url_shape.
    pose proof (data_sextets_range b) as Hr.
    assert (forall c, In c (map urlsafe_char_of (data_sextets b)) ->
              c <> Base64.PLUS /\ c <> Base64.SLASH /\ c <> Base64.PAD) as H.
    { intros c Hc. apply in_map_iff in Hc. destruct Hc as (i & <- & Hi).
      rewrite Forall_forall in Hr.
      destruct (urlsafe_char_of_spec i (Hr i Hi)) as (_ & _ & ? & ? & ?). auto. }
    repeat split; intros Hin; apply H in Hin; tauto.
Qed.

Lemma sextets_filter_decoder_chars s :
  Base64.sextets (filter is_decoder_char s) = Base64.sextets s.
Proof.
  induction s as [|c s IH]; [reflexivity|].
  cbn [filter]. unfold is_decoder_char at 1.
  destruct (Base64.unbase64 c) as [v|] eqn:E.
  - cbn [Base64.sextets]. now rewrite E, IH.
  - destruct (c mod 256 =? Base64.PAD) eqn:P; cbn [Base64.sextets]; rewrite E, P.
    + reflexivity.
    + exact IH.
Qed.

(** C5, as stated, does not hold: a string with a character outside the
    URL-safe alphabet ('!') is decoded, the foreign character is skipped. *)
Lemma fromBase64Url_accepts_foreign_character :
  existsb (fun c => negb (is_urlsafe c)) (js "SGk!") = true
  /\ fromBase64Url (js "SGk!") = Normal [x48; x69]
  /\ ~ fails_with (fromBase64Url (js "SGk!")) InvalidEncoding.
Proof.
  split; [reflexivity|]. split; [reflexivity|].
  intros (e & H & _). discriminate H.
Qed.

(** C5, amended.  [fromBase64Url] never fails: for every input string it
    returns the octets of the legal characters (of either alphabet) that
    precede the first '='; characters the decoder does not know are skipped,
    so removing them from the input changes nothing. *)
Theorem fromBase64Url_never_fails (str : JSString) :
  exists b : Buffer,
    fromBase64Url str = Normal b
    /\ b = Base64.octets (Base64.sextets str)
    /\ fromBase64Url (filter is_decoder_char str) = Normal b
    /\ forall k, ~ fails_with (fromBase64Url str) k.
Proof.
  exists (Base64.octets (Base64.sextets str)).
  rewrite !fromBase64Url_decodes, sextets_filter_decoder_chars.
  repeat split. intros k (e & H & _). discriminate H.
Qed.

(* ------------------------------------------------------------------ *)
(** ** UTF-8 *)

Example utf8_encode_latin : UTF8.encode [233] = [xc3; xa9].
Proof. reflexivity. Qed.

Example utf8_encode_hangul : UTF8.encode [54620] = [xed; x95; x9c].
Proof. reflexivity. Qed.

Example utf8_encode_emoji : UTF8.encode [55356; 57225] = [xf0; x9f; x8e; x89].
Proof. reflexivity. Qed.

Example utf8_decode_emoji : UTF8.decode [x41; xf0; x9f; x8e; x89; xed; x95; x9c] =
                            [65; 55356; 57225; 54620].
Proof. reflexivity. Qed.

Example utf8_lone_surrogate :
  UTF8.encode [55296] = [xef; xbf; xbd] /\ UTF8.decode [xef; xbf; xbd] = [65533].
Proof. split; reflexivity. Qed.

Example utf8_decode_truncated : UTF8.decode [x41; xe2; x82] = [65; 65533].
Proof. reflexivity. Qed.

(** Settle the comparisons of a goal by arithmetic, splitting on those
    that depend on the value. *)
Ltac settle_cmp :=
  repeat match goal with
  | |- context [N.leb ?a ?b] =>
      first [ replace (N.leb a b) with true by (symmetry; apply N.leb_le; lia)
            | replace (N.leb a b) with false by (symmetry; apply N.leb_gt; lia)
            | destruct (N.leb_spec a b) ]
  | |- context [N.ltb ?a ?b] =>
      first [ replace (N.ltb a b) with true by (symmetry; apply N.ltb_lt; lia)
            | replace (N.ltb a b) with false by (symmetry; apply N.ltb_ge; lia)
            | destruct (N.ltb_spec a b) ]
  | |- context [N.eqb ?a ?b] =>
      first [ replace (N.eqb a b) with true by (symmetry; apply N.eqb_eq; lia)
            | replace (N.eqb a b) with false by (symmetry; apply N.eqb_neq; lia)
            | destruct (N.eqb_spec a b) ]
  end; cbn [andb orb negb].

Lemma step_initial b : UTF8.step UTF8.initial b = UTF8.lead (N_of_byte b).
Proof. reflexivity. Qed.

Lemma step_continue st b :
  UTF8.bytes_needed st <> 0 ->
  UTF8.lower_boundary st <= N_of_byte b <= UTF8.upper_boundary st ->
  UTF8.step st b =
  let cp := UTF8.code_point st * 64 + (N_of_byte b - 128) in
  if UTF8.bytes_seen st + 1 =? UTF8.bytes_needed st then ([cp], UTF8.initial)
  else ([], {| UTF8.code_point := cp; UTF8.bytes_needed := UTF8.bytes_needed st;
               UTF8.bytes_seen := UTF8.bytes_seen st + 1;
               UTF8.lower_boundary := 128; UTF8.upper_boundary := 191 |}).
Proof.
  intros Hn [Hl Hu]. unfold UTF8.step.
  apply N.eqb_neq in Hn. rewrite Hn.
  apply N.leb_le in Hl, Hu. now rewrite Hl, Hu.
Qed.

Ltac utf8_lead :=
  rewrite step_initial; unfold UTF8.lead;
  rewrite ?N_of_byte_of_N by lia; settle_cmp.

Ltac utf8_continue :=
  rewrite step_continue;
  cbn [UTF8.bytes_needed UTF8.code_point UTF8.bytes_seen
       UTF8.lower_boundary UTF8.upper_boundary];
  rewrite ?N_of_byte_of_N by lia;
  [ cbv zeta; settle_cmp | lia | settle_cmp; try lia ].

Ltac utf8_done cp :=
  destruct (UTF8.write UTF8.initial _) as [text st];
  cbn [flat_map app];
  match goal with
  | |- context [UTF8.units ?e ++ []] => replace e with cp by lia
  end;
  rewrite app_nil_r; reflexivity.

Lemma write_encode_scalar cp rest :
  UTF8.is_scalar cp ->
  UTF8.write UTF8.initial (UTF8.encode_scalar cp ++ rest) =
  let '(text, st) := UTF8.write UTF8.initial rest in (UTF8.units cp ++ text, st).
Proof.
  intros [Hmax Hsur]. unfold UTF8.encode_scalar.
  destruct (N.ltb_spec cp 128); [|destruct (N.ltb_spec cp 2048);
    [|destruct (N.ltb_spec cp 65536)]];
    cbn [app UTF8.write].
  - utf8_lead. destruct (UTF8.write UTF8.initial rest).
    cbn [flat_map app]. unfold UTF8.units. settle_cmp. reflexivity.
  - utf8_lead. utf8_continue. utf8_done cp.
  - utf8_lead; utf8_continue; utf8_continue; utf8_done cp.
  - utf8_lead; utf8_continue; utf8_continue; utf8_continue; utf8_done cp.
Qed.

Lemma write_encode_bounded n s :
  (length s <= n)%nat -> UTF8.well_formed s = true ->
  UTF8.write UTF8.initial (UTF8.encode s) = (s, UTF8.initial).
Proof.
  revert s. induction n as [|n IH]; intros s Hlen Hwf.
  - destruct s; [reflexivity | cbn in Hlen; lia].
  - destruct s as [|c rest]; [reflexivity|].
    cbn [UTF8.encode UTF8.well_formed] in *.
    destruct (UTF8.is_high_surrogate c) eqn:Hh.
    + destruct rest as [|d rest']; [discriminate|].
      apply andb_true_iff in Hwf. destruct Hwf as [Hl Hwf]. rewrite Hl.
      unfold UTF8.is_high_surrogate, UTF8.is_low_surrogate in Hh, Hl.
      apply andb_true_iff in Hh, Hl. rewrite !N.leb_le in Hh, Hl.
      rewrite write_encode_scalar by (unfold UTF8.is_scalar; lia).
      rewrite IH by (auto; cbn in Hlen; lia).
      unfold UTF8.units. settle_cmp. cbn [app]. repeat f_equal; lia.
    + apply andb_true_iff in Hwf. destruct Hwf as [Hwf Hrest].
      apply andb_true_iff in Hwf. destruct Hwf as [Hl Hc].
      apply negb_true_iff in Hl. rewrite Hl.
      unfold UTF8.is_high_surrogate, UTF8.is_low_surrogate in Hh, Hl.
      apply andb_false_iff in Hh, Hl. rewrite !N.leb_gt in Hh, Hl.
      apply N.ltb_lt in Hc.
      rewrite write_encode_scalar by (unfold UTF8.is_scalar; lia).
      rewrite IH by (auto; cbn in Hlen; lia).
      unfold UTF8.units. settle_cmp. reflexivity.
Qed.

Lemma write_encode s :
  UTF8.well_formed s = true ->
  UTF8.write UTF8.initial (UTF8.encode s) = (s, UTF8.initial).
Proof. apply (write_encode_bounded (length s)). lia. Qed.

(** Well-formed text survives the trip through its UTF-8 octets. *)
Lemma utf8_roundtrip s :
  UTF8.well_formed s = true -> Buffer_toString_utf8 (Buffer_from_utf8 s) = s.
Proof.
  intros Hwf. unfold Buffer_toString_utf8, Buffer_from_utf8, UTF8.decode.
  rewrite write_encode by assumption. cbn. apply app_nil_r.
Qed.

(* ------------------------------------------------------------------ *)
(** ** Known answers for the block cipher (FIPS 197, appendices A.3, C.3) *)

Example aes_sbox_values :
  AES.SubByte 0 = 99 /\ AES.SubByte 1 = 124 /\ AES.SubByte 83 = 237
  /\ AES.SubByte 255 = 22.
Proof. repeat split; reflexivity. Qed.

Example aes256_fips197_C3 :
  bytes_of_block
    (AES.encrypt_block
       (hex_bytes "000102030405060708090a0b0c0d0e0f101112131415161718191a1b1c1d1e1f")
       (block_of_bytes (hex_bytes "00112233445566778899aabbccddeeff")))
  = hex_bytes "8ea2b7ca516745bfeafc49904b496089".
Proof. vm_compute. reflexivity. Qed.

(* ------------------------------------------------------------------ *)
(** ** Known answers for AES-256-GCM (test cases 13 to 18 of the GCM
       specification) *)

Example gcm_test_case_13 :
  GCM.tag (repeat x00 32) (repeat x00 12) [] [] =
  hex_bytes "530f8afbc74536b9a963b4f1c4cb738b".
Proof. vm_compute. reflexivity. Qed.

Example gcm_test_case_14 :
  let C := GCM.crypt (repeat x00 32) (repeat x00 12) (repeat x00 16) in
  C = hex_bytes "cea7403d4d606b6e074ec5d3baf39d18"
  /\ GCM.tag (repeat x00 32) (repeat x00 12) [] C =
     hex_bytes "d0d1c8a799996bf0265b98b5d48ab919".
Proof. vm_compute. split; reflexivity. Qed.

Example gcm_test_case_15 :
  let K := hex_bytes "feffe9928665731c6d6a8f9467308308feffe9928665731c6d6a8f9467308308" in
  let IV := hex_bytes "cafebabefacedbaddecaf888" in
  let P := hex_bytes "d9313225f88406e5a55909c5aff5269a86a7a9531534f7da2e4c303d8a318a721c3c0c95956809532fcf0e2449a6b525b16aedf5aa0de657ba637b391aafd255" in
  let C := GCM.crypt K IV P in
  C = hex_bytes "522dc1f099567d07f47f37a32a84427d643a8cdcbfe5c0c97598a2bd2555d1aa8cb08e48590dbb3da7b08b1056828838c5f61e6393ba7a0abcc9f662898015ad"
  /\ GCM.tag K IV [] C = hex_bytes "b094dac5d93471bdec1a502270e3cc6c".
Proof. vm_compute. split; reflexivity. Qed.

Example gcm_test_case_16 :
  let K := hex_bytes "feffe9928665731c6d6a8f9467308308feffe9928665731c6d6a8f9467308308" in
  let IV := hex_bytes "cafebabefacedbaddecaf888" in
  let A := hex_bytes "feedfacedeadbeeffeedfacedeadbeefabaddad2" in
  let P := hex_bytes "d9313225f88406e5a55909c5aff5269a86a7a9531534f7da2e4c303d8a318a721c3c0c95956809532fcf0e2449a6b525b16aedf5aa0de657ba637b39" in
  let C := GCM.crypt K IV P in
  C = hex_bytes "522dc1f099567d07f47f37a32a84427d643a8cdcbfe5c0c97598a2bd2555d1aa8cb08e48590dbb3da7b08b1056828838c5f61e6393ba7a0abcc9f662"
  /\ GCM.tag K IV A C = hex_bytes "76fc6ece0f4e1768cddf8853bb2d551b".
Proof. vm_compute. split; reflexivity. Qed.

Example gcm_test_case_17 :
  let K := hex_bytes "feffe9928665731c6d6a8f9467308308feffe9928665731c6d6a8f9467308308" in
  let IV := hex_bytes "cafebabefacedbad" in
  let A := hex_bytes "feedfacedeadbeeffeedfacedeadbeefabaddad2" in
  let P := hex_bytes "d9313225f88406e5a55909c5aff5269a86a7a9531534f7da2e4c303d8a318a721c3c0c95956809532fcf0e2449a6b525b16aedf5aa0de657ba637b39" in
  let C := GCM.crypt K IV P in
  C = hex_bytes "c3762df1ca787d32ae47c13bf19844cbaf1ae14d0b976afac52ff7d79bba9de0feb582d33934a4f0954cc2363bc73f7862ac430e64abe499f47c9b1f"
  /\ GCM.tag K IV A C = hex_bytes "3a337dbf46a792c45e454913fe2ea8f2".
Proof. vm_compute. split; reflexivity. Qed.
Example gcm_test_case_18 :
  let K := hex_bytes "feffe9928665731c6d6a8f9467308308feffe9928665731c6d6a8f9467308308" in
  let IV := hex_bytes "9313225df88406e555909c5aff5269aa6a7a9538534f7da1e4c303d2a318a728c3c0c95156809539fcf0e2429a6b525416aedbf5a0de6a57a637b39b" in
  let A := hex_bytes "feedfacedeadbeeffeedfacedeadbeefabaddad2" in
  let P := hex_bytes "d9313225f88406e5a55909c5aff5269a86a7a9531534f7da2e4c303d8a318a721c3c0c95956809532fcf0e2449a6b525b16aedf5aa0de657ba637b39" in
  let C := GCM.crypt K IV P in
  C = hex_bytes "5a8def2f0c9e53f1f75d7853659e2a20eeb2b22aafde6419a058ab4f6f746bf40fc0c3b780f244452da3ebf1c5d82cdea2418997200ef82e44ae7e3f"
  /\ GCM.tag K IV A C = hex_bytes "a44a8266ee1c8eb0c8b5d4cf5ae9f19a".
Proof. vm_compute. split; reflexivity. Qed.

(* ------------------------------------------------------------------ *)
(** ** Known answers for SHA-256 and HMAC-SHA-256 *)

Example sha256_constants :
  nth 0 SHA256.K 0 = 1116352408 /\ nth 63 SHA256.K 0 = 3329325298
  /\ SHA256.H0 = (1779033703, 3144134277, 1013904242, 2773480762,
                  1359893119, 2600822924, 528734635, 1541459225).
Proof. repeat split; reflexivity. Qed.

Example sha256_abc :
  SHA256.hash (ascii_bytes "abc") =
  hex_bytes "ba7816bf8f01cfea414140de5dae2223b00361a396177a9cb410ff61f20015ad".
Proof. vm_compute. reflexivity. Qed.

Example sha256_empty :
  SHA256.hash [] =
  hex_bytes "e3b0c44298fc1c149afbf4c8996fb92427ae41e4649b934ca495991b7852b855".
Proof. vm_compute. reflexivity. Qed.

Example sha256_two_blocks :
  SHA256.hash (ascii_bytes "abcdbcdecdefdefgefghfghighijhijkijkljklmklmnlmnomnopnopq") =
  hex_bytes "248d6a61d20638b8e5c026930c3e6039a33ce45964ff2167f6ecedd419db06c1".
Proof. vm_compute. reflexivity. Qed.

Example hmac_sha256_rfc4231_case_1 :
  HMAC.sha256 (repeat x0b 20) (ascii_bytes "Hi There") =
  hex_bytes "b0344c61d8db38535ca8afceaf0bf12b881dc200c9833da726e9376c2e32cff7".
Proof. vm_compute. reflexivity. Qed.

Example hmac_sha256_rfc4231_case_2 :
  HMAC.sha256 (ascii_bytes "Jefe") (ascii_bytes "what do ya want for nothing?") =
  hex_bytes "5bdcc146bf60754e6a042426089575c75a003f089d2739839dec58b964ec3843".
Proof. vm_compute. reflexivity. Qed.

Example hmac_sha256_rfc4231_case_6 :
  HMAC.sha256 (repeat xaa 131)
    (ascii_bytes "Test Using Larger Than Block-Size Key - Hash Key First") =
  hex_bytes "60e431591ee0b67f0d8a26aacbf5b77f8e0bc6213728c5140546040f0ee37f54".
Proof. vm_compute. reflexivity. Qed.

Example pbkdf2_sha256_one_iteration :
  pbkdf2Sync (js "password") (ascii_bytes "salt") 1 32 (js "sha256") =
  Normal (hex_bytes "120fb6cffcf8b32c43e7225256c4f837a86548c92ccc35480805987cb70be17b").
Proof. vm_compute. reflexivity. Qed.

Example pbkdf2_sha256_two_iterations :
  pbkdf2Sync (js "password") (ascii_bytes "salt") 2 32 (js "sha256") =
  Normal (hex_bytes "ae4d0c95af6b46d32d0adff928f06dd02a303f8ef3c251dfd6e2d85a95474c43").
Proof. vm_compute. reflexivity. Qed.

Example pbkdf2_sha256_two_blocks :
  pbkdf2Sync (js "passwd") (ascii_bytes "salt") 1 64 (js "sha256") =
  Normal (hex_bytes "55ac046e56e3089fec1691c22544b605f94185216dde0465e68b9d57c20dacbc49ca9cccf179b645991664b39d77ef317c71b845b1e30bd509112041d3a19783").
Proof. vm_compute. reflexivity. Qed.

(* ------------------------------------------------------------------ *)
(** ** Buffers *)

Lemma lxor_lt_256 a b : a < 256 -> b < 256 -> N.lxor a b < 256.
Proof.
  intros Ha Hb.
  destruct (N.eq_dec (N.lxor a b) 0) as [->|Hz]; [lia|].
  change 256 with (2 ^ 8). apply N.log2_lt_pow2; [lia|].
  pose proof (N.log2_lxor a b) as Hl.
  assert (forall x, x < 256 -> N.log2 x < 8) as Hlog.
  { intros x Hx. destruct (N.eq_dec x 0) as [->|Hx0]; [cbn; lia|].
    apply N.log2_lt_pow2; [lia | exact Hx]. }
  pose proof (Hlog a Ha). pose proof (Hlog b Hb). lia.
Qed.

Lemma xor_byte_involutive (x k : byte) :
  byte_of_N (N.lxor (N_of_byte (byte_of_N (N.lxor (N_of_byte x) (N_of_byte k))))
               (N_of_byte k)) = x.
Proof.
  rewrite N_of_byte_of_N by (apply lxor_lt_256; apply N_of_byte_lt).
  rewrite N.lxor_assoc, N.lxor_nilpotent, N.lxor_0_r.
  apply byte_of_N_of_byte.
Qed.

Lemma xor_buffer_length a k :
  length (xor_buffer a k) = Nat.min (length a) (length k).
Proof. unfold xor_buffer. now rewrite length_map, length_combine. Qed.

Lemma xor_buffer_involutive a k :
  (length a <= length k)%nat -> xor_buffer (xor_buffer a k) k = a.
Proof.
  revert k. induction a as [|x a IH]; intros k Hlen; [reflexivity|].
  destruct k as [|y k]; [cbn in Hlen; lia|].
  cbn in Hlen. unfold xor_buffer in *. cbn [combine map fst snd].
  rewrite xor_byte_involutive. f_equal. apply IH. lia.
Qed.

Lemma buffer_eqb_eq a b : buffer_eqb a b = true <-> a = b.
Proof.
  unfold buffer_eqb. split.
  - revert b. induction a as [|x a IH]; intros [|y b] H; try reflexivity;
      try discriminate H.
    cbn in H. rewrite !andb_true_iff in H. destruct H as [Hl [Hxy Hall]].
    apply Byte.byte_dec_bl in Hxy. subst y. f_equal.
    apply IH. now rewrite Hl, Hall.
  - intros <-. rewrite Nat.eqb_refl. cbn [andb].
    induction a as [|x a IH]; [reflexivity|].
    cbn. rewrite IH, andb_true_r. apply Byte.byte_dec_lb. reflexivity.
Qed.

Lemma buffer_eqb_neq a b : a <> b -> buffer_eqb a b = false.
Proof.
  intros H. destruct (buffer_eqb a b) eqn:E; [|reflexivity].
  apply buffer_eqb_eq in E. contradiction.
Qed.

Lemma bytes_of_block_length n : length (bytes_of_block n) = 16%nat.
Proof. unfold bytes_of_block. now rewrite length_map, length_seq. Qed.

Lemma be_bytes_length len n : length (be_bytes len n) = len.
Proof. unfold be_bytes. now rewrite length_map, length_seq. Qed.

(* ------------------------------------------------------------------ *)
(** ** Chunks *)

Lemma chunks_loop_enough n b fuel1 fuel2 :
  (0 < n)%nat -> (length b <= fuel1)%nat -> (length b <= fuel2)%nat ->
  chunks_loop fuel1 n b = chunks_loop fuel2 n b.
Proof.
  intros Hn. revert b fuel2.
  induction fuel1 as [|fuel1 IH]; intros b fuel2 H1 H2.
  - destruct b; [|cbn in H1; lia]. destruct fuel2; reflexivity.
  - destruct b as [|x b]; [destruct fuel2; reflexivity|].
    destruct fuel2 as [|fuel2]; [cbn in H2; lia|].
    cbn [chunks_loop]. f_equal.
    assert (length (skipn n (x :: b)) <= length b)%nat.
    { rewrite length_skipn. cbn [length]. lia. }
    cbn [length] in H1, H2. apply IH; lia.
Qed.

Lemma chunks_nil n : chunks n [] = [].
Proof. reflexivity. Qed.

Lemma chunks_cons n b :
  (0 < n)%nat -> b <> [] -> chunks n b = firstn n b :: chunks n (skipn n b).
Proof.
  intros Hn Hb. unfold chunks. destruct b as [|x b]; [contradiction|].
  cbn [length chunks_loop]. f_equal.
  apply chunks_loop_enough; auto.
  rewrite length_skipn. cbn [length]. lia.
Qed.

Lemma chunks_short n b :
  (0 < n)%nat -> b <> [] -> (length b <= n)%nat -> chunks n b = [b].
Proof.
  intros Hn Hb Hlen. rewrite chunks_cons by assumption.
  rewrite firstn_all2 by assumption. rewrite skipn_all2 by assumption.
  reflexivity.
Qed.

(* ------------------------------------------------------------------ *)
(** ** Counter mode is its own inverse *)

Lemma GCTR_nil key icb : GCM.GCTR key icb [] = [].
Proof. reflexivity. Qed.

Lemma GCTR_cons key icb X :
  X <> [] ->
  GCM.GCTR key icb X =
  xor_buffer (firstn 16 X) (bytes_of_block (AES.encrypt_block key icb))
    ++ GCM.GCTR key (GCM.inc32 icb) (skipn 16 X).
Proof.
  intros HX. unfold GCM.GCTR. rewrite chunks_cons by (auto; lia). reflexivity.
Qed.

Lemma GCTR_spec key n :
  forall X icb, (length X <= n)%nat ->
    length (GCM.GCTR key icb X) = length X
    /\ GCM.GCTR key icb (GCM.GCTR key icb X) = X.
Proof.
  induction n as [|n IH]; intros X icb Hlen.
  - destruct X; [split; reflexivity | cbn in Hlen; lia].
  - destruct X as [|x X]; [split; reflexivity|].
    set (X0 := x :: X) in *.
    assert (X0 <> []) as Hne by discriminate.
    rewrite (GCTR_cons key icb X0 Hne).
    set (ks := bytes_of_block (AES.encrypt_block key icb)).
    assert (length ks = 16%nat) as Hks by apply bytes_of_block_length.
    assert (length (skipn 16 X0) <= n)%nat as Hrest.
    { rewrite length_skipn. subst X0. cbn [length] in *. lia. }
    destruct (IH (skipn 16 X0) (GCM.inc32 icb) Hrest) as [IHlen IHinv].
    set (Y1 := xor_buffer (firstn 16 X0) ks).
    set (Y2 := GCM.GCTR key (GCM.inc32 icb) (skipn 16 X0)) in *.
    assert (length Y1 = length (firstn 16 X0)) as HY1.
    { subst Y1. rewrite xor_buffer_length, length_firstn. lia. }
    split.
    + rewrite length_app, HY1, IHlen, <- length_app, firstn_skipn. reflexivity.
    + assert (Y1 <> []) as HY1ne.
      { intros E. rewrite E in HY1. subst X0. cbn in HY1. lia. }
      assert (Y1 ++ Y2 <> []) as Hne'.
      { intros E. apply app_eq_nil in E. tauto. }
      rewrite (GCTR_cons key icb (Y1 ++ Y2) Hne').
      fold ks.
      destruct (Nat.le_gt_cases (length X0) 16) as [Hshort|Hlong].
      * assert (Y2 = []) as ->.
        { apply length_zero_iff_nil. rewrite IHlen, length_skipn. lia. }
        rewrite app_nil_r.
        assert (length Y1 <= 16)%nat by (rewrite HY1, length_firstn; lia).
        rewrite firstn_all2, skipn_all2 by assumption.
        rewrite GCTR_nil, app_nil_r. subst Y1.
        rewrite xor_buffer_involutive by (rewrite length_firstn; lia).
        apply firstn_all2. assumption.
      * assert (length Y1 = 16%nat) as HY16 by (rewrite HY1, length_firstn; lia).
        rewrite firstn_app, skipn_app, HY16, Nat.sub_diag.
        rewrite firstn_O, skipn_O, app_nil_r.
        rewrite firstn_all2, skipn_all2 by lia. cbn [app].
        fold Y2 in IHinv. rewrite IHinv. subst Y1.
        rewrite xor_buffer_involutive by (rewrite length_firstn; lia).
        apply firstn_skipn.
Qed.

Lemma crypt_length key iv X : length (GCM.crypt key iv X) = length X.
Proof. unfold GCM.crypt. now apply (GCTR_spec key (length X)). Qed.

Lemma crypt_involutive key iv X : GCM.crypt key iv (GCM.crypt key iv X) = X.
Proof. unfold GCM.crypt. now apply (GCTR_spec key (length X)). Qed.

Lemma tag_length key iv A C : length (GCM.tag key iv A C) = 16%nat.
Proof. unfold GCM.tag. apply bytes_of_block_length. Qed.

(* ------------------------------------------------------------------ *)
(** ** Standard base64 and the string decoder *)

Lemma char_of_spec i : i < 64 -> Base64.unbase64 (Base64.char_of i) = Some i.
Proof.
  intros Hi.
  pose (f := fun i => match Base64.unbase64 (Base64.char_of i) with
                      | Some j => j =? i | None => false end).
  assert (f i = true) as H by (apply sextet_cases; [vm_compute; reflexivity | exact Hi]).
  unfold f in H. destruct (Base64.unbase64 (Base64.char_of i)); [|discriminate].
  apply N.eqb_eq in H. now subst.
Qed.

Lemma sextets_standard l :
  Forall (fun i => i < 64) l -> Base64.sextets (map Base64.char_of l) = l.
Proof.
  induction 1 as [|i l Hi _ IH]; [reflexivity|].
  cbn [map Base64.sextets]. now rewrite (char_of_spec i Hi), IH.
Qed.

Lemma base64_roundtrip b : Buffer_from_base64 (Buffer_toString_base64 b) = b.
Proof.
  unfold Buffer_from_base64, Buffer_toString_base64, Base64.decode.
  rewrite encode_shape, sextets_app_pads.
  rewrite sextets_standard by apply data_sextets_range.
  apply octets_data_sextets.
Qed.

Lemma encode_app a b :
  (length a mod 3 = 0)%nat -> Base64.encode (a ++ b) = Base64.encode a ++ Base64.encode b.
Proof.
  induction a as [|x|x y|x y z l IH] using list_ind3; intros Hlen.
  - reflexivity.
  - discriminate Hlen.
  - discriminate Hlen.
  - cbn [app Base64.encode]. cbv zeta. rewrite IH; [reflexivity|].
    cbn [length] in Hlen. lia.
Qed.

Lemma base64_write_end sd buf :
  let '(text, sd') := StringDecoder_write base64 sd buf in
  text ++ StringDecoder_end base64 sd' = Base64.encode (sd_base64 sd ++ buf).
Proof.
  cbn [StringDecoder_write StringDecoder_end sd_base64].
  set (all := sd_base64 sd ++ buf).
  rewrite <- encode_app.
  - now rewrite firstn_skipn.
  - rewrite length_firstn.
    assert (length all / 3 * 3 <= length all)%nat by lia.
    rewrite Nat.min_l by assumption. lia.
Qed.

(* ------------------------------------------------------------------ *)
(** ** What sealing and opening compute *)

Lemma init_ok key iv :
  length key = 32%nat -> iv_accepted iv ->
  CipherBase_init ALGORITHM key iv TAG_LENGTH =
  Normal {| cb_key := key; cb_iv := iv; cb_authTagLength := TAG_LENGTH;
            cb_authTag := None; cb_input := []; cb_decoder := StringDecoder_new |}.
Proof.
  intros Hk [Hlo Hhi]. unfold CipherBase_init.
  change (string_eqb ALGORITHM (js "aes-256-gcm")) with true. cbn [negb].
  replace (length iv =? 0)%nat with false by (symmetry; apply Nat.eqb_neq; lia).
  replace (GCM_IV_MAX_SIZE <? length iv)%nat with false
    by (symmetry; apply Nat.ltb_ge; lia).
  change (is_valid_gcm_tag_length TAG_LENGTH) with true. cbn [negb].
  rewrite Hk. reflexivity.
Qed.

Lemma seal_spec content key iv :
  length key = 32%nat -> iv_accepted iv ->
  seal content key iv =
  let C := GCM.crypt key iv (Buffer_from_utf8 content) in
  Normal {| ciphertext := Buffer_toString_base64 C;
            iv := Buffer_toString_base64 iv;
            tag := Buffer_toString_base64 (GCM.tag key iv [] C) |}.
Proof.
  intros Hk Hiv. unfold seal, createCipheriv. rewrite init_ok by assumption.
  cbn [bind]. unfold CipherBase_update.
  cbn [cb_input cb_key cb_iv cb_decoder cb_authTagLength cb_authTag app length skipn
       Buffer_from].
  pose proof (base64_write_end StringDecoder_new
                (GCM.crypt key iv (Buffer_from_utf8 content))) as Hb.
  destruct (StringDecoder_write base64 StringDecoder_new
              (GCM.crypt key iv (Buffer_from_utf8 content))) as [text sd'].
  unfold Cipher_final, Cipher_getAuthTag.
  cbn [cb_input cb_key cb_iv cb_decoder cb_authTagLength cb_authTag].
  rewrite Hb. cbn [sd_base64 StringDecoder_new app].
  rewrite firstn_all2 by (rewrite tag_length; cbn; lia).
  reflexivity.
Qed.

Lemma open_spec E k :
  open E k =
  let iv := Buffer_from_base64 (iv E) in
  let t := Buffer_from_base64 (tag E) in
  let C := Buffer_from_base64 (ciphertext E) in
  if (length iv =? 0)%nat || (GCM_IV_MAX_SIZE <? length iv)%nat
  then Throw ERR_CRYPTO_INVALID_IV
  else if negb (length k =? 32)%nat then Throw ERR_CRYPTO_INVALID_KEYLEN
  else if negb (length t =? 16)%nat then Throw ERR_CRYPTO_INVALID_AUTH_TAG
  else if buffer_eqb (GCM.tag k iv [] C) t
       then Normal (Buffer_toString_utf8 (GCM.crypt k iv C))
       else Throw ERR_AUTHENTICATE.
Proof.
  unfold open, createDecipheriv, CipherBase_init. cbv zeta.
  change (string_eqb ALGORITHM (js "aes-256-gcm")) with true.
  change (is_valid_gcm_tag_length TAG_LENGTH) with true.
  cbn [negb Buffer_from].
  set (iv0 := Buffer_from_base64 (iv E)).
  set (t := Buffer_from_base64 (tag E)).
  set (C := Buffer_from_base64 (ciphertext E)).
  destruct (length iv0 =? 0)%nat; [reflexivity|].
  destruct (GCM_IV_MAX_SIZE <? length iv0)%nat; [reflexivity|].
  cbn [orb].
  destruct (length k =? 32)%nat; [|reflexivity].
  cbn [negb bind]. unfold Decipher_setAuthTag. cbn [cb_authTagLength].
  destruct (Nat.eqb_spec (length t) 16) as [Ht|Ht].
  - rewrite Ht. change (N.of_nat 16 =? TAG_LENGTH) with true.
    change (is_valid_gcm_tag_length (N.of_nat 16)) with true.
    cbn [andb negb bind]. unfold CipherBase_update.
    cbn [cb_input cb_key cb_iv cb_decoder cb_authTagLength cb_authTag app length
         skipn Buffer_from StringDecoder_write sd_utf8 StringDecoder_new].
    fold C. unfold Buffer_toString_utf8, UTF8.decode.
    destruct (UTF8.write UTF8.initial (GCM.crypt k iv0 C)) as [text st].
    unfold Decipher_final.
    cbn [cb_input cb_key cb_iv cb_decoder cb_authTagLength cb_authTag
         StringDecoder_end sd_utf8].
    rewrite Ht, firstn_all2 by (rewrite tag_length; lia).
    destruct (buffer_eqb (GCM.tag k iv0 [] C) t); reflexivity.
  - replace (N.of_nat (length t) =? TAG_LENGTH) with false; [reflexivity|].
    symmetry. apply N.eqb_neq. unfold TAG_LENGTH. lia.
Qed.

(* ------------------------------------------------------------------ *)
(** ** Key derivation *)

Lemma digest_bytes_length s : length (SHA256.digest_bytes s) = 32%nat.
Proof.
  destruct s as [[[[[[[a b] c] d] e] f] g] h]. unfold SHA256.digest_bytes.
  rewrite !length_app, !be_bytes_length. reflexivity.
Qed.

Lemma sha256_length msg : length (SHA256.hash msg) = 32%nat.
Proof. apply digest_bytes_length. Qed.

Lemma hmac_length k text : length (HMAC.sha256 k text) = 32%nat.
Proof. apply sha256_length. Qed.

Lemma xor_buffer_firstn n a b :
  xor_buffer (firstn n a) b = firstn n (xor_buffer a b).
Proof.
  unfold xor_buffer. rewrite firstn_map. f_equal.
  revert a b. induction n as [|n IH]; intros a b; [reflexivity|].
  destruct a as [|x a]; [reflexivity|]. destruct b as [|y b]; [reflexivity|].
  cbn [firstn combine]. now rewrite IH.
Qed.

Lemma U_succ PRF P salt i j :
  PBKDF2.U PRF P salt i (S (S j)) = PRF P (PBKDF2.U PRF P salt i (S j)).
Proof. reflexivity. Qed.

Lemma F_succ PRF P salt i c :
  PBKDF2.F PRF P salt (S (S c)) i =
  xor_buffer (PBKDF2.F PRF P salt (S c) i) (PBKDF2.U PRF P salt i (S (S c))).
Proof. reflexivity. Qed.

(** The inner loop of the library computes [U_c] and the first octets of
    [F]. *)
Lemma pbkdf2_inner_loop pass salt i cplen n :
  Nat.iter n
    (fun '(d, p) => let d' := HMAC.sha256 pass d in (d', xor_buffer p d'))
    (HMAC.sha256 pass (salt ++ be_bytes 4 i),
     firstn cplen (HMAC.sha256 pass (salt ++ be_bytes 4 i)))
  = (PBKDF2.U HMAC.sha256 pass salt i (S n),
     firstn cplen (PBKDF2.F HMAC.sha256 pass salt (S n) i)).
Proof.
  induction n as [|n IH]; [reflexivity|].
  rewrite Nat.iter_succ, IH. cbv zeta.
  rewrite U_succ, F_succ, xor_buffer_firstn. reflexivity.
Qed.

Lemma F_length PRF P salt i c :
  (forall k t, length (PRF k t) = 32%nat) ->
  length (PBKDF2.F PRF P salt (S c) i) = 32%nat.
Proof.
  intros Hprf. induction c as [|c IH].
  - cbn [PBKDF2.F PBKDF2.U]. apply Hprf.
  - rewrite F_succ, xor_buffer_length, IH, U_succ, Hprf. reflexivity.
Qed.

Lemma pbkdf2_loop_one_block pass salt iter :
  iter <> 0 ->
  pbkdf2_loop 32 pass salt iter 1 32 = PBKDF2_HMAC_SHA256 pass salt iter 32.
Proof.
  intros Hiter. unfold PBKDF2_HMAC_SHA256, PBKDF2.DK.
  change ((32 + 32 - 1) / 32)%nat with 1%nat.
  cbn [seq map List.concat]. rewrite app_nil_r.
  change (pbkdf2_loop 32 pass salt iter 1 32) with
    (let '(_, p) :=
       N.iter (iter - 1)
         (fun '(d, p) => let d' := HMAC.sha256 pass d in (d', xor_buffer p d'))
         (HMAC.sha256 pass (salt ++ be_bytes 4 1),
          firstn 32 (HMAC.sha256 pass (salt ++ be_bytes 4 1))) in
     p ++ []).
  rewrite Nnat.N2Nat.inj_iter, pbkdf2_inner_loop.
  replace (S (N.to_nat (iter - 1))) with (N.to_nat iter) by lia.
  rewrite app_nil_r. reflexivity.
Qed.

Lemma PBKDF2_HMAC_SHA256_length P salt c :
  c <> 0 -> length (PBKDF2_HMAC_SHA256 P salt c 32) = 32%nat.
Proof.
  intros Hc. unfold PBKDF2_HMAC_SHA256, PBKDF2.DK.
  change ((32 + 32 - 1) / 32)%nat with 1%nat.
  cbn [seq map List.concat]. rewrite app_nil_r.
  replace (N.to_nat c) with (S (N.to_nat (c - 1))) by lia.
  rewrite firstn_all2; rewrite F_length; auto using hmac_length.
Qed.

Lemma deriveKeyFromPassword_spec password salt :
  deriveKeyFromPassword password salt =
  Normal (PBKDF2_HMAC_SHA256 (Buffer_from_utf8 password) salt 100000 32).
Proof.
  unfold deriveKeyFromPassword, pbkdf2Sync.
  change (100000 =? 0) with false.
  change (string_eqb (js "sha256") (js "sha256")) with true.
  cbn [negb]. change (N.to_nat KEY_LENGTH) with 32%nat.
  now rewrite pbkdf2_loop_one_block.
Qed.

(** C6.  [deriveKeyFromPassword] is PBKDF2 with HMAC-SHA-256, 100,000
    iterations and a 32-octet output; equal inputs give the same key, and
    the empty password derives a key like any other. *)
Theorem deriveKeyFromPassword_is_pbkdf2 (password : JSString) (salt : Buffer) :
  deriveKeyFromPassword password salt =
    Normal (PBKDF2_HMAC_SHA256 (Buffer_from_utf8 password) salt 100000 32)
  /\ (exists k, deriveKeyFromPassword password salt = Normal k /\ length k = 32%nat)
  /\ (forall password' salt',
        password' = password -> salt' = salt ->
        deriveKeyFromPassword password' salt' = deriveKeyFromPassword password salt)
  /\ (exists k, deriveKeyFromPassword [] salt = Normal k /\ length k = 32%nat).
Proof.
  split; [exact (deriveKeyFromPassword_spec password salt)|].
  split; [|split].
  - exists (PBKDF2_HMAC_SHA256 (Buffer_from_utf8 password) salt 100000 32).
    split; [exact (deriveKeyFromPassword_spec password salt)|].
    apply PBKDF2_HMAC_SHA256_length. discriminate.
  - intros password' salt' Hp Hs. rewrite Hp, Hs. exact eq_refl.
  - exists (PBKDF2_HMAC_SHA256 (Buffer_from_utf8 []) salt 100000 32).
    split; [exact (deriveKeyFromPassword_spec [] salt)|].
    apply PBKDF2_HMAC_SHA256_length. discriminate.
Qed.

(* ------------------------------------------------------------------ *)
(** ** Sealing, then opening *)

Lemma randomBytes_length n rng : length (fst (randomBytes n rng)) = N.to_nat n.
Proof. unfold randomBytes. cbn [fst]. now rewrite length_map, length_seq. Qed.

Lemma iv_accepted_12 b : length b = 12%nat -> iv_accepted b.
Proof. unfold iv_accepted, GCM_IV_MAX_SIZE. lia. Qed.

Lemma seal_sealed content k n :
  length k = 32%nat -> iv_accepted n ->
  seal content k n = Normal (sealed content k n).
Proof. intros Hk Hn. now rewrite seal_spec. Qed.

Lemma sealed_fields content k n :
  Buffer_from_base64 (iv (sealed content k n)) = n
  /\ Buffer_from_base64 (ciphertext (sealed content k n))
     = GCM.crypt k n (Buffer_from_utf8 content)
  /\ Buffer_from_base64 (tag (sealed content k n))
     = GCM.tag k n [] (GCM.crypt k n (Buffer_from_utf8 content)).
Proof.
  unfold sealed. cbn [ciphertext iv tag]. now rewrite !base64_roundtrip.
Qed.

Lemma open_sealed content k n :
  length k = 32%nat -> iv_accepted n ->
  open (sealed content k n) k = Normal (Buffer_toString_utf8 (Buffer_from_utf8 content)).
Proof.
  intros Hk [Hlo Hhi]. rewrite open_spec. cbv zeta.
  destruct (sealed_fields content k n) as (-> & -> & ->).
  replace (length n =? 0)%nat with false by (symmetry; apply Nat.eqb_neq; lia).
  replace (GCM_IV_MAX_SIZE <? length n)%nat with false
    by (symmetry; apply Nat.ltb_ge; lia).
  rewrite Hk, tag_length. cbn [orb negb Nat.eqb].
  replace (buffer_eqb _ _) with true by (symmetry; now apply buffer_eqb_eq).
  now rewrite crypt_involutive.
Qed.

Lemma encrypt_returns content rng :
  fst (encrypt content rng) =
  Normal {| encrypted :=
              sealed content (fst (generateKey rng))
                (fst (randomBytes IV_LENGTH (snd (generateKey rng))));
            key := toBase64Url (fst (generateKey rng)) |}.
Proof.
  assert (fst (encrypt content rng) =
          let* E := seal content (fst (generateKey rng))
                      (fst (randomBytes IV_LENGTH (snd (generateKey rng)))) in
          Normal {| encrypted := E; key := toBase64Url (fst (generateKey rng)) |})
    as -> by reflexivity.
  rewrite seal_sealed.
  - reflexivity.
  - apply randomBytes_length.
  - apply iv_accepted_12. apply randomBytes_length.
Qed.

Lemma decrypt_spec E K :
  decrypt E K = open E (Base64.octets (Base64.sextets K)).
Proof. unfold decrypt. now rewrite fromBase64Url_decodes. Qed.

Lemma decrypt_own_key E k : decrypt E (toBase64Url k) = open E k.
Proof.
  unfold decrypt. rewrite fromBase64Url_toBase64Url. reflexivity.
Qed.

(** C1, as stated, does not hold for every string: a surrogate without its
    partner is written as U+FFFD by the 'utf8' encoding, and that is what
    comes back. *)
Lemma encrypt_decrypt_lone_surrogate :
  exists r,
    fst (encrypt [55296] example_rng) = Normal r
    /\ decrypt (encrypted r) (key r) = Normal [65533]
    /\ decrypt (encrypted r) (key r) <> Normal [55296].
Proof.
  eexists. split; [vm_compute; reflexivity|].
  split; [vm_compute; reflexivity|].
  vm_compute. discriminate.
Qed.

(** C1, amended.  For every well-formed plaintext (no surrogate outside a
    pair; this covers the empty string, text of any script and text of any
    length), [encrypt] returns an envelope and a key with which [decrypt]
    returns exactly the plaintext. *)
Theorem encrypt_decrypt_roundtrip (p : JSString) (rng : RandomSource) :
  UTF8.well_formed p = true ->
  exists r,
    fst (encrypt p rng) = Normal r
    /\ decrypt (encrypted r) (key r) = Normal p.
Proof.
  intros Hwf. eexists. split; [apply encrypt_returns|].
  cbn [encrypted key]. rewrite decrypt_own_key.
  rewrite open_sealed.
  - now rewrite utf8_roundtrip.
  - apply randomBytes_length.
  - apply iv_accepted_12. apply randomBytes_length.
Qed.

Lemma encrypt_decrypt_roundtrip_witness :
  UTF8.well_formed (js "Hello, World!") = true
  /\ exists r,
       fst (encrypt (js "Hello, World!") example_rng) = Normal r
       /\ decrypt (encrypted r) (key r) = Normal (js "Hello, World!").
Proof.
  split; [reflexivity|].
  apply (encrypt_decrypt_roundtrip (js "Hello, World!") example_rng).
  reflexivity.
Defined.

(** The strings of the repository's tests are well-formed. *)
Example test_plaintexts_well_formed :
  UTF8.well_formed [] = true
  /\ UTF8.well_formed
       [50504; 45397; 54616; 49464; 50836; 33; 32; 55356; 57225; 32;
        1055; 1088; 1080; 1074; 1077; 1090; 32; 1084; 1080; 1088; 33; 32;
        26085; 26412; 35486; 12486; 12473; 12488] = true
  /\ UTF8.well_formed (repeat 120 (N.to_nat 10000)) = true.
Proof. repeat split; vm_compute; reflexivity. Qed.

Example encrypt_hello_world :
  exists r,
    fst (encrypt (js "Hello, World!") example_rng) = Normal r
    /\ ciphertext (encrypted r) = js "48OnvrogDDQakfekfA=="
    /\ iv (encrypted r) = js "4+rx+P8GDRQbIikw"
    /\ tag (encrypted r) = js "rx5hbFYBt04hFNB/+zgAuA=="
    /\ key r = js "AwoRGB8mLTQ7QklQV15lbHN6gYiPlp2kq7K5wMfO1dw".
Proof. eexists. repeat split; vm_compute; reflexivity. Qed.

Lemma sealed_ciphertext_length content k n :
  length (Buffer_from_base64 (ciphertext (sealed content k n)))
  = length (Buffer_from_utf8 content).
Proof.
  destruct (sealed_fields content k n) as (_ & -> & _). apply crypt_length.
Qed.

Lemma derived_key_length password salt : length (derived_key password salt) = 32%nat.
Proof. unfold derived_key. apply PBKDF2_HMAC_SHA256_length. discriminate. Qed.

Lemma deriveKeyFromPassword_derived password salt :
  deriveKeyFromPassword password salt = Normal (derived_key password salt).
Proof. exact (deriveKeyFromPassword_spec password salt). Qed.

Lemma encryptWithPassword_returns content password rng :
  fst (encryptWithPassword content password rng) =
  Normal {| pw_encrypted :=
              sealed content (derived_key password (fst (randomBytes 16 rng)))
                (fst (randomBytes IV_LENGTH (snd (randomBytes 16 rng))));
            pw_salt := Buffer_toString_base64 (fst (randomBytes 16 rng)) |}.
Proof.
  assert (fst (encryptWithPassword content password rng) =
          let* k := deriveKeyFromPassword password (fst (randomBytes 16 rng)) in
          let* E := seal content k
                      (fst (randomBytes IV_LENGTH (snd (randomBytes 16 rng)))) in
          Normal {| pw_encrypted := E;
                    pw_salt := Buffer_toString_base64 (fst (randomBytes 16 rng)) |})
    as -> by reflexivity.
  rewrite deriveKeyFromPassword_derived. cbn [bind].
  rewrite seal_sealed.
  - reflexivity.
  - apply derived_key_length.
  - apply iv_accepted_12. apply randomBytes_length.
Qed.

Lemma decryptWithPassword_spec E password saltBase64 :
  decryptWithPassword E password saltBase64 =
  open E (derived_key password (Buffer_from_base64 saltBase64)).
Proof.
  unfold decryptWithPassword. cbn [Buffer_from].
  now rewrite deriveKeyFromPassword_derived.
Qed.

(** C8.  The ciphertext of [encrypt] and of [encryptWithPassword], decoded
    from base64, has as many octets as the UTF-8 encoding of the plaintext;
    for the empty plaintext the ciphertext is the empty string. *)
Theorem ciphertext_length (p password : JSString) (rng : RandomSource) :
  (exists r,
     fst (encrypt p rng) = Normal r
     /\ length (Buffer_from_base64 (ciphertext (encrypted r)))
        = length (Buffer_from_utf8 p))
  /\ (exists r,
        fst (encryptWithPassword p password rng) = Normal r
        /\ length (Buffer_from_base64 (ciphertext (pw_encrypted r)))
           = length (Buffer_from_utf8 p))
  /\ (exists r,
        fst (encrypt [] rng) = Normal r /\ ciphertext (encrypted r) = []).
Proof.
  split; [|split].
  - eexists. split; [apply encrypt_returns|]. apply sealed_ciphertext_length.
  - eexists. split; [apply encryptWithPassword_returns|].
    apply sealed_ciphertext_length.
  - eexists. split; [apply encrypt_returns|]. reflexivity.
Qed.

(* ------------------------------------------------------------------ *)
(** ** Password mode *)









Lemma open_outcome E k :
  length k = 32%nat ->
  iv_accepted (Buffer_from_base64 (iv E)) ->
  length (Buffer_from_base64 (tag E)) = 16%nat ->
  (GCM.tag k (Buffer_from_base64 (iv E)) [] (Buffer_from_base64 (ciphertext E))
   <> Buffer_from_base64 (tag E) ->
   open E k = Throw ERR_AUTHENTICATE)
  /\ (GCM.tag k (Buffer_from_base64 (iv E)) [] (Buffer_from_base64 (ciphertext E))
      = Buffer_from_base64 (tag E) ->
      open E k =
      Normal (Buffer_toString_utf8
                (GCM.crypt k (Buffer_from_base64 (iv E))
                   (Buffer_from_base64 (ciphertext E))))).
Proof.
  intros Hk [Hlo Hhi] Ht. rewrite open_spec. cbv zeta.
  replace (length (Buffer_from_base64 (iv E)) =? 0)%nat with false
    by (symmetry; apply Nat.eqb_neq; lia).
  replace (GCM_IV_MAX_SIZE <? length (Buffer_from_base64 (iv E)))%nat with false
    by (symmetry; apply Nat.ltb_ge; lia).
  rewrite Hk, Ht. cbn [orb negb Nat.eqb].
  split; intros H.
  - now rewrite buffer_eqb_neq.
  - replace (buffer_eqb _ _) with true by (symmetry; now apply buffer_eqb_eq).
    reflexivity.
Qed.


(* ------------------------------------------------------------------ *)
(** ** What [decrypt] rejects *)

Lemma fails_with_throw {A} (e : JsError) :
  fails_with (@Throw A e) (error_kind e).
Proof. exists e. split; reflexivity. Qed.

(** [decrypt] takes strings, and what counts is what they decode to:
    base64 leaves the low bits of a last character unused, so a key, a
    ciphertext and a tag that differ from the originals in one character
    decode to the same octets and the plaintext is returned; and a key of
    another length is refused as malformed, not as unauthentic. *)
Lemma decrypt_accepts_altered_strings :
  exists r,
    fst (encrypt (js "Hello, World!") example_rng) = Normal r
    /\ key r = js "AwoRGB8mLTQ7QklQV15lbHN6gYiPlp2kq7K5wMfO1dw"
    /\ ciphertext (encrypted r) = js "48OnvrogDDQakfekfA=="
    /\ tag (encrypted r) = js "rx5hbFYBt04hFNB/+zgAuA=="
    /\ decrypt (encrypted r) (js "AwoRGB8mLTQ7QklQV15lbHN6gYiPlp2kq7K5wMfO1dx")
       = Normal (js "Hello, World!")
    /\ decrypt {| ciphertext := js "48OnvrogDDQakfekfB==";
                  iv := iv (encrypted r); tag := tag (encrypted r) |} (key r)
       = Normal (js "Hello, World!")
    /\ decrypt {| ciphertext := ciphertext (encrypted r);
                  iv := iv (encrypted r); tag := js "rx5hbFYBt04hFNB/+zgAuB==" |} (key r)
       = Normal (js "Hello, World!")
    /\ decrypt (encrypted r) (js "AwoRGB8mLTQ7QklQV15lbHN6gYiPlp2kq7K5wMfO")
       = Throw ERR_CRYPTO_INVALID_KEYLEN.
Proof. eexists. repeat split; vm_compute; reflexivity. Qed.

(** C3, as stated, does not hold for the nonce: an envelope sealed with a
    16-octet nonce is opened, and the envelope of [encrypt] with four more
    octets in the nonce fails authentication, not validation. *)
Lemma decrypt_takes_16_octet_nonce :
  let E := {| ciphertext := js "3qL4Arw=";
              iv := js "4+rx+P8GDRQbIikwNz5FTA==";
              tag := js "TWlzxAKMNz65XI2ToSc1Dw==" |} in
  let K := js "AwoRGB8mLTQ7QklQV15lbHN6gYiPlp2kq7K5wMfO1dw" in
  length (Buffer_from_base64 (iv E)) = 16%nat
  /\ decrypt E K = Normal (js "Hello")
  /\ ~ fails_with (decrypt E K) MalformedInput
  /\ decrypt {| ciphertext := js "48OnvrogDDQakfekfA==";
                iv := js "4+rx+P8GDRQbIikw4+rx+A==";
                tag := js "rx5hbFYBt04hFNB/+zgAuA==" |} K = Throw ERR_AUTHENTICATE.
Proof.
  cbv zeta. split; [vm_compute; reflexivity|].
  split; [vm_compute; reflexivity|].
  split; [|vm_compute; reflexivity].
  intros (e & H & _). vm_compute in H. discriminate H.
Qed.

Lemma open_malformed E k :
  length k <> 32%nat \/ length (Buffer_from_base64 (tag E)) <> 16%nat
  \/ length (Buffer_from_base64 (iv E)) = 0%nat ->
  exists e,
    error_kind e = MalformedInput
    /\ forall c', open {| ciphertext := c'; iv := iv E; tag := tag E |} k = Throw e.
Proof.
  intros Hbad.
  destruct (Nat.eqb_spec (length (Buffer_from_base64 (iv E))) 0) as [Hn|Hn].
  { exists ERR_CRYPTO_INVALID_IV. split; [reflexivity|]. intros c'.
    rewrite open_spec. cbv zeta. cbn [iv tag ciphertext].
    rewrite Hn. reflexivity. }
  destruct (GCM_IV_MAX_SIZE <? length (Buffer_from_base64 (iv E)))%nat eqn:Hmax.
  { exists ERR_CRYPTO_INVALID_IV. split; [reflexivity|]. intros c'.
    rewrite open_spec. cbv zeta. cbn [iv tag ciphertext].
    rewrite Hmax, orb_true_r. reflexivity. }
  destruct (Nat.eqb_spec (length k) 32) as [Hk|Hk].
  - destruct (Nat.eqb_spec (length (Buffer_from_base64 (tag E))) 16) as [Ht|Ht].
    + destruct Hbad as [Hb|[Hb|Hb]]; contradiction.
    + exists ERR_CRYPTO_INVALID_AUTH_TAG. split; [reflexivity|]. intros c'.
      rewrite open_spec. cbv zeta. cbn [iv tag ciphertext].
      apply Nat.eqb_neq in Hn, Ht. rewrite Hn, Hmax, Hk, Ht. reflexivity.
  - exists ERR_CRYPTO_INVALID_KEYLEN. split; [reflexivity|]. intros c'.
    rewrite open_spec. cbv zeta. cbn [iv tag ciphertext].
    apply Nat.eqb_neq in Hn, Hk. rewrite Hn, Hmax, Hk. reflexivity.
Qed.

Lemma envelope_eta E :
  {| ciphertext := ciphertext E; iv := iv E; tag := tag E |} = E.
Proof. destruct E. reflexivity. Qed.

Lemma open_malformed_fails E k :
  length k <> 32%nat \/ length (Buffer_from_base64 (tag E)) <> 16%nat
  \/ length (Buffer_from_base64 (iv E)) = 0%nat ->
  fails_with (open E k) MalformedInput
  /\ forall c', open {| ciphertext := c'; iv := iv E; tag := tag E |} k = open E k.
Proof.
  intros Hbad. destruct (open_malformed E k Hbad) as (e & He & Hall).
  pose proof (Hall (ciphertext E)) as HE. rewrite envelope_eta in HE.
  split.
  - exists e. split; assumption.
  - intros c'. now rewrite Hall, HE.
Qed.

Lemma open_well_formed E k :
  length k = 32%nat -> length (Buffer_from_base64 (tag E)) = 16%nat ->
  iv_accepted (Buffer_from_base64 (iv E)) ->
  ~ fails_with (open E k) MalformedInput
  /\ (fails_with (open E k) AuthenticationFailure \/ exists s, open E k = Normal s).
Proof.
  intros Hk Ht Hn. destruct (open_outcome E k Hk Hn Ht) as [Hne Heq].
  destruct (buffer_eqb
              (GCM.tag k (Buffer_from_base64 (iv E)) []
                 (Buffer_from_base64 (ciphertext E)))
              (Buffer_from_base64 (tag E))) eqn:Hcmp.
  - apply buffer_eqb_eq in Hcmp. rewrite (Heq Hcmp). split.
    + intros (e & H & _). discriminate H.
    + right. eexists. reflexivity.
  - assert (GCM.tag k (Buffer_from_base64 (iv E)) []
              (Buffer_from_base64 (ciphertext E)) <> Buffer_from_base64 (tag E)) as Hd.
    { intros H. apply buffer_eqb_eq in H. congruence. }
    rewrite (Hne Hd). split.
    + intros (e & H & Hkind). injection H as <-. discriminate Hkind.
    + left. apply (fails_with_throw ERR_AUTHENTICATE).
Qed.

(** C3, amended.  [decrypt] and [decryptWithPassword] check lengths before
    the cipher runs: a key that is not 32 octets, a tag that is not 16
    octets and an empty nonce fail with MalformedInput, whatever the
    ciphertext is.  The nonce is not required to be 12 octets: with a
    32-octet key, a 16-octet tag and a nonce of 1 to 128 octets the call
    does not fail with MalformedInput, it returns text or fails with
    AuthenticationFailure. *)
Theorem decrypt_length_checks (E : EncryptedData) (K password saltBase64 : JSString) :
  let n := Buffer_from_base64 (iv E) in
  let t := Buffer_from_base64 (tag E) in
  (exists k,
     fromBase64Url K = Normal k
     /\ (length k <> 32%nat \/ length t <> 16%nat \/ length n = 0%nat ->
         fails_with (decrypt E K) MalformedInput
         /\ forall c', decrypt {| ciphertext := c'; iv := iv E; tag := tag E |} K
                       = decrypt E K)
     /\ (length k = 32%nat -> length t = 16%nat -> iv_accepted n ->
         ~ fails_with (decrypt E K) MalformedInput
         /\ (fails_with (decrypt E K) AuthenticationFailure
             \/ exists s, decrypt E K = Normal s)))
  /\ (length t <> 16%nat \/ length n = 0%nat ->
      fails_with (decryptWithPassword E password saltBase64) MalformedInput
      /\ forall c',
           decryptWithPassword {| ciphertext := c'; iv := iv E; tag := tag E |}
             password saltBase64
           = decryptWithPassword E password saltBase64)
  /\ (length t = 16%nat -> iv_accepted n ->
      ~ fails_with (decryptWithPassword E password saltBase64) MalformedInput
      /\ (fails_with (decryptWithPassword E password saltBase64) AuthenticationFailure
          \/ exists s, decryptWithPassword E password saltBase64 = Normal s)).
Proof.
  cbv zeta. split; [|split].
  - exists (Base64.octets (Base64.sextets K)).
    split; [apply fromBase64Url_decodes|].
    split.
    + intros Hbad. rewrite decrypt_spec.
      destruct (open_malformed_fails E _ Hbad) as [Hf Hc]. split; [exact Hf|].
      intros c'. rewrite decrypt_spec. apply Hc.
    + intros Hk Ht Hn. rewrite decrypt_spec. now apply open_well_formed.
  - intros Hbad. rewrite decryptWithPassword_spec.
    destruct (open_malformed_fails E
                (derived_key password (Buffer_from_base64 saltBase64))
                (or_intror Hbad)) as [Hf Hc].
    split; [exact Hf|]. intros c'. rewrite decryptWithPassword_spec. apply Hc.
  - intros Ht Hn. rewrite decryptWithPassword_spec.
    apply open_well_formed; [apply derived_key_length | exact Ht | exact Hn].
Qed.

Lemma decrypt_length_checks_witness :
  let E := {| ciphertext := js "3qL4Arw=";
              iv := js "4+rx+P8GDRQbIikwNz5FTA==";
              tag := js "TWlzxAKMNz65XI2ToSc1Dw==" |} in
  fails_with (decrypt E (js "AwoR")) MalformedInput
  /\ ~ fails_with (decrypt E (js "AwoRGB8mLTQ7QklQV15lbHN6gYiPlp2kq7K5wMfO1dw"))
        MalformedInput.
Proof.
  cbv zeta. split.
  - destruct (decrypt_length_checks
                {| ciphertext := js "3qL4Arw=";
                   iv := js "4+rx+P8GDRQbIikwNz5FTA==";
                   tag := js "TWlzxAKMNz65XI2ToSc1Dw==" |}
                (js "AwoR") [] []) as ((k & Hk & Hbad & _) & _).
    apply Hbad. left. vm_compute in Hk. injection Hk as <-. discriminate.
  - destruct (decrypt_length_checks
                {| ciphertext := js "3qL4Arw=";
                   iv := js "4+rx+P8GDRQbIikwNz5FTA==";
                   tag := js "TWlzxAKMNz65XI2ToSc1Dw==" |}
                (js "AwoRGB8mLTQ7QklQV15lbHN6gYiPlp2kq7K5wMfO1dw") [] [])
      as ((k & Hk & _ & Hgood) & _).
    vm_compute in Hk. injection Hk as <-.
    apply Hgood; [reflexivity | reflexivity |].
    unfold iv_accepted. vm_compute. lia.
Defined.

(* ------------------------------------------------------------------ *)
(** ** api/snipit.ts: what [createSnippet] sends *)

Lemma JSON_members_names l :
  incl (member_names (JSON_members l)) (map fst l).
Proof.
  induction l as [|[name [v|]] l IH]; cbn [JSON_members member_names map fst].
  - apply incl_refl.
  - apply incl_cons; [now left|]. now apply incl_tl.
  - now apply incl_tl.
Qed.

Lemma JSON_members_In l name v :
  In (name, Some v) l -> In (name, v) (JSON_members l).
Proof.
  induction l as [|[name' [v'|]] l IH]; cbn [JSON_members]; intros Hin.
  - contradiction.
  - destruct Hin as [Heq|Hin]; [injection Heq as -> ->; now left|].
    right. now apply IH.
  - destruct Hin as [Heq|Hin]; [discriminate Heq|]. now apply IH.
Qed.

(** C9.  The code breaks the claim.  For a password-protected snippet
    [createSnippet] sends one request whose body holds the plaintext and
    the password themselves, and neither a salt nor an envelope: the server
    receives the password, and what travels is not a ciphertext. *)
Theorem createSnippet_sends_password :
  let options :=
    {| opt_content := js "let x = 1;"; opt_language := None; opt_fileName := None;
       opt_visibility := V_password; opt_expiry := E_never;
       opt_password := Some (js "hunter2") |} in
  snd (fst (createSnippet example_parse_url example_toISOString example_store
              (js "https://snipit.sh") 0 options example_rng))
  = [ {| rq_https := true; rq_hostname := js "snipit.sh"; rq_port := js "443";
         rq_path := js "/api/snippets"; rq_method := js "POST";
         rq_headers := [(js "Content-Type", js "application/json");
                        (js "User-Agent", js "snipit-vscode/0.1.0")];
         rq_body := Some [(js "content", js "let x = 1;");
                          (js "visibility", js "password");
                          (js "password", js "hunter2")] |} ].
Proof. vm_compute. reflexivity. Qed.

(** The same for every input: [createSnippet] sends at most one request,
    its body has no other members than content, language, fileName,
    visibility, expiresAt and password, the random source is left as it
    was and the request is the same whatever it holds, and a password given
    in the options is in the member password. *)
Lemma createSnippet_request_body
  (parse_url : JSString -> option URL) (Date_toISOString : N -> JSString)
  (store : HttpRequest -> Completion CreateSnippetResponse)
  (apiUrl : JSString) (now : N) (options : SnippetOptions) (rng rng' : RandomSource) :
  let run := createSnippet parse_url Date_toISOString store apiUrl now options in
  snd (run rng) = rng
  /\ snd (fst (run rng)) = snd (fst (run rng'))
  /\ (snd (fst (run rng)) = []
      \/ exists request body,
           snd (fst (run rng)) = [request]
           /\ rq_body request = Some body
           /\ incl (member_names body)
                [js "content"; js "language"; js "fileName"; js "visibility";
                 js "expiresAt"; js "password"]
           /\ (forall pw, opt_password options = Some pw ->
                          In (js "password", pw) body)).
Proof.
  cbv zeta. unfold createSnippet.
  set (body := JSON_members (requestBody Date_toISOString now options)).
  assert (forall request,
            build_request parse_url (js "POST") (apiUrl ++ js "/api/snippets")
              (Some body) = Normal request ->
            rq_body request = Some body) as Hbody.
  { intros request. unfold build_request, new_URL.
    destruct (parse_url _); cbn [bind]; intros H; [|discriminate H].
    injection H as <-. reflexivity. }
  destruct (build_request parse_url (js "POST") (apiUrl ++ js "/api/snippets")
              (Some body)) as [request|e] eqn:Hreq; cbn [fst snd].
  - split; [reflexivity|]. split; [reflexivity|]. right.
    exists request, body. split; [reflexivity|]. split; [now apply Hbody|].
    split.
    + subst body. apply (JSON_members_names (requestBody Date_toISOString now options)).
    + intros pw Hpw. subst body. apply JSON_members_In.
      unfold requestBody. rewrite Hpw. cbn. tauto.
  - split; [reflexivity|]. split; [reflexivity|]. now left.
Qed.

(* ------------------------------------------------------------------ *)
(** ** api/snipit.ts: [parseSnipitUrl] *)

Lemma before_first_spec c s :
  ~ In c (before_first c s)
  /\ exists rest, s = before_first c s ++ rest
                  /\ (rest = [] \/ exists rest', rest = c :: rest').
Proof.
  induction s as [|x s (Hnot & rest & Hs & Hrest)]; cbn [before_first].
  - split; [tauto|]. exists []. split; [reflexivity | now left].
  - destruct (N.eqb_spec x c) as [->|Hx].
    + split; [tauto|]. exists (c :: s). split; [reflexivity|]. right. now exists s.
    + split.
      * intros [H|H]; [now apply Hx | now apply Hnot].
      * exists rest. split; [cbn [app]; now rewrite <- Hs | exact Hrest].
Qed.

Lemma hash_without_mark u :
  or_undefined (remove_leading HASH (URL_hash u)) =
  match fragment u with
  | Some (c :: f) => Some (c :: f)
  | _ => None
  end.
Proof.
  unfold URL_hash. destruct (fragment u) as [[|c f]|]; reflexivity.
Qed.

(** C10.  [parseSnipitUrl] never throws.  It returns null when the string
    does not parse as a URL or the host name does not contain "snipit";
    otherwise it returns the first segment of the path (the path without
    its leading '/', up to the next '/') as id and the fragment as key,
    the key being absent when the fragment is empty. *)
Theorem parseSnipitUrl_total (parse_url : JSString -> option URL) (url : JSString) :
  exists r,
    parseSnipitUrl parse_url url = Normal r
    /\ (r = None <->
        parse_url url = None
        \/ exists u, parse_url url = Some u
                     /\ String_includes (hostname u) (js "snipit") = false)
    /\ (forall u,
          parse_url url = Some u ->
          String_includes (hostname u) (js "snipit") = true ->
          exists i,
            r = Some {| id := i;
                        key_fragment :=
                          match fragment u with
                          | Some (c :: f) => Some (c :: f)
                          | _ => None
                          end |}
            /\ ~ In SLASH i
            /\ exists rest,
                 remove_leading SLASH (pathname u) = i ++ rest
                 /\ (rest = [] \/ exists rest', rest = SLASH :: rest')).
Proof.
  unfold parseSnipitUrl, new_URL.
  destruct (parse_url url) as [u|] eqn:Hu; cbn [bind try_catch].
  - destruct (String_includes (hostname u) (js "snipit")) eqn:Hinc; cbn [negb try_catch].
    + eexists. split; [reflexivity|]. split.
      * split; [discriminate|].
        intros [H|(u' & H & Hf)]; [discriminate H|].
        injection H as <-. congruence.
      * intros u' H _. injection H as <-.
        destruct (before_first_spec SLASH (remove_leading SLASH (pathname u)))
          as (Hnot & rest & Hs & Hrest).
        eexists. split; [now rewrite hash_without_mark|].
        split; [exact Hnot|]. exists rest. split; assumption.
    + exists None. split; [reflexivity|]. split.
      * split; [|reflexivity]. intros _. right. exists u. split; [reflexivity|assumption].
      * intros u' H Hinc'. injection H as <-. congruence.
  - exists None. split; [reflexivity|]. split.
    + split; [|reflexivity]. intros _. now left.
    + intros u H. discriminate H.
Qed.

(* ================================================================== *)
(** * Further properties of the code *)
(* ================================================================== *)

(* ------------------------------------------------------------------ *)
(** ** encryption.ts: the shape of what [encrypt] returns *)

Lemma data_sextets_length b :
  length (data_sextets b) = ((4 * length b + 2) / 3)%nat.
Proof.
  induction b as [|x|x y|x y z l IH] using list_ind3; try reflexivity.
  cbn [data_sextets length]. cbv zeta. cbn [length]. rewrite IH. lia.
Qed.

Lemma toBase64Url_urlsafe b : forallb is_urlsafe (toBase64Url b) = true.
Proof.
  rewrite toBase64Url_shape.
  apply forallb_forall. intros c Hc. apply in_map_iff in Hc.
  destruct Hc as (i & <- & Hi).
  pose proof (data_sextets_range b) as Hr. rewrite Forall_forall in Hr.
  now destruct (urlsafe_char_of_spec i (Hr i Hi)) as (_ & ? & _).
Qed.

Lemma toBase64Url_length b :
  length (toBase64Url b) = ((4 * length b + 2) / 3)%nat.
Proof. rewrite toBase64Url_shape, length_map. apply data_sextets_length. Qed.

(** X1.  An encoded key is made of characters of the URL-safe alphabet
    only, and there are ceil(4n/3) of them for n octets. *)
Theorem toBase64Url_alphabet_and_length (b : Buffer) :
  forallb is_urlsafe (toBase64Url b) = true
  /\ length (toBase64Url b) = ((4 * length b + 2) / 3)%nat.
Proof.
  rewrite toBase64Url_shape. split.
  - apply forallb_forall. intros c Hc. apply in_map_iff in Hc.
    destruct Hc as (i & <- & Hi).
    pose proof (data_sextets_range b) as Hr. rewrite Forall_forall in Hr.
    now destruct (urlsafe_char_of_spec i (Hr i Hi)) as (_ & ? & _).
  - rewrite length_map. apply data_sextets_length.
Qed.

(** X2.  [fromBase64Url] also reads the standard rendering of a buffer,
    padding included, so [decrypt] gives the same result for a key written
    in either alphabet. *)
Theorem fromBase64Url_reads_standard_base64 (b : Buffer) (E : EncryptedData) :
  fromBase64Url (Buffer_toString_base64 b) = Normal b
  /\ decrypt E (Buffer_toString_base64 b) = decrypt E (toBase64Url b).
Proof.
  assert (fromBase64Url (Buffer_toString_base64 b) = Normal b) as H.
  { rewrite fromBase64Url_decodes. f_equal. apply base64_roundtrip. }
  split; [exact H|].
  unfold decrypt. rewrite H. now rewrite fromBase64Url_toBase64Url.
Qed.

Lemma map_seq_offset {A} (f : nat -> A) a n :
  forall s, map (fun i => f (a + i)%nat) (seq s n) = map f (seq (a + s) n).
Proof.
  induction n as [|n IH]; intros s; [reflexivity|].
  cbn [seq map]. rewrite IH. now rewrite Nat.add_succ_r.
Qed.

Lemma randomBytes_octets n rng :
  fst (randomBytes n rng) = map rng (seq 0 (N.to_nat n))
  /\ forall i, snd (randomBytes n rng) i = rng (N.to_nat n + i)%nat.
Proof. split; reflexivity. Qed.

(** X3.  [encrypt] takes the key from the first 32 octets of the random
    source and the nonce from the next 12, and leaves the source 44 octets
    further, so that the next call draws other octets.  The key string has
    43 URL-safe characters; the nonce and the tag of the envelope decode to
    12 and 16 octets. *)
Theorem encrypt_envelope_shape (p : JSString) (rng : RandomSource) :
  exists r,
    fst (encrypt p rng) = Normal r
    /\ fromBase64Url (key r) = Normal (map rng (seq 0 32))
    /\ length (key r) = 43%nat
    /\ forallb is_urlsafe (key r) = true
    /\ Buffer_from_base64 (iv (encrypted r)) = map rng (seq 32 12)
    /\ length (Buffer_from_base64 (tag (encrypted r))) = 16%nat
    /\ forall i, snd (encrypt p rng) i = rng (44 + i)%nat.
Proof.
  eexists. split; [apply encrypt_returns|]. cbn [encrypted key].
  set (k := fst (generateKey rng)).
  set (n := fst (randomBytes IV_LENGTH (snd (generateKey rng)))).
  assert (k = map rng (seq 0 32)) as Hk by reflexivity.
  assert (n = map rng (seq 32 12)) as Hn.
  { subst n. unfold generateKey, randomBytes. cbn [fst snd].
    change (N.to_nat IV_LENGTH) with 12%nat.
    change (N.to_nat KEY_LENGTH) with 32%nat.
    apply (map_seq_offset rng 32 12 0). }
  pose proof (toBase64Url_urlsafe k) as Hsafe.
  pose proof (toBase64Url_length k) as Hlen.
  destruct (sealed_fields p k n) as (Hiv & _ & Ht).
  split; [|split; [|split; [|split; [|split]]]].
  - rewrite <- Hk. apply fromBase64Url_toBase64Url.
  - rewrite Hlen, Hk, length_map, length_seq. reflexivity.
  - exact Hsafe.
  - now rewrite Hiv.
  - rewrite Ht. apply tag_length.
  - intros i. unfold encrypt, generateKey, randomBytes. cbn [fst snd].
    change (N.to_nat IV_LENGTH) with 12%nat.
    change (N.to_nat KEY_LENGTH) with 32%nat.
    f_equal; lia.
Qed.

(** X4.  [encryptWithPassword] takes the salt from the first 16 octets of
    the random source and the nonce from the next 12; the key is not drawn
    but derived from the password and that salt.  The salt, the nonce and
    the tag it returns decode to 16, 12 and 16 octets. *)
Theorem encryptWithPassword_envelope_shape (p pw : JSString) (rng : RandomSource) :
  exists r,
    fst (encryptWithPassword p pw rng) = Normal r
    /\ Buffer_from_base64 (pw_salt r) = map rng (seq 0 16)
    /\ Buffer_from_base64 (iv (pw_encrypted r)) = map rng (seq 16 12)
    /\ length (Buffer_from_base64 (tag (pw_encrypted r))) = 16%nat
    /\ deriveKeyFromPassword pw (Buffer_from_base64 (pw_salt r))
       = Normal (derived_key pw (map rng (seq 0 16)))
    /\ forall i, snd (encryptWithPassword p pw rng) i = rng (28 + i)%nat.
Proof.
  eexists. split; [apply encryptWithPassword_returns|]. cbn [pw_encrypted pw_salt].
  set (salt := fst (randomBytes 16 rng)).
  set (n := fst (randomBytes IV_LENGTH (snd (randomBytes 16 rng)))).
  assert (salt = map rng (seq 0 16)) as Hs by reflexivity.
  assert (n = map rng (seq 16 12)) as Hn.
  { subst n. unfold randomBytes. cbn [fst snd].
    change (N.to_nat IV_LENGTH) with 12%nat.
    change (N.to_nat 16) with 16%nat.
    apply (map_seq_offset rng 16 12 0). }
  destruct (sealed_fields p (derived_key pw salt) n) as (Hiv & _ & Ht).
  rewrite base64_roundtrip.
  split; [exact Hs|]. split; [now rewrite Hiv|].
  split; [rewrite Ht; apply tag_length|].
  split; [rewrite <- Hs; apply deriveKeyFromPassword_derived|].
  intros i. unfold encryptWithPassword, randomBytes. cbn [fst snd].
  change (N.to_nat IV_LENGTH) with 12%nat.
  change (N.to_nat 16) with 16%nat.
  f_equal; lia.
Qed.

(** X5.  The only ways [decrypt] and [decryptWithPassword] fail are the
    three length checks of the runtime and the tag comparison; the derived
    key always has the right length, so [decryptWithPassword] never fails on
    the key, and any salt string is taken: only its decoded octets count. *)
Theorem decrypt_errors (E : EncryptedData) (K pw salt : JSString) (e : JsError) :
  (decrypt E K = Throw e ->
   e = ERR_CRYPTO_INVALID_IV \/ e = ERR_CRYPTO_INVALID_KEYLEN
   \/ e = ERR_CRYPTO_INVALID_AUTH_TAG \/ e = ERR_AUTHENTICATE)
  /\ (decryptWithPassword E pw salt = Throw e ->
      e = ERR_CRYPTO_INVALID_IV \/ e = ERR_CRYPTO_INVALID_AUTH_TAG
      \/ e = ERR_AUTHENTICATE)
  /\ (forall salt',
        Buffer_from_base64 salt' = Buffer_from_base64 salt ->
        decryptWithPassword E pw salt' = decryptWithPassword E pw salt).
Proof.
  split; [|split].
  - rewrite decrypt_spec, open_spec. cbv zeta.
    repeat match goal with
           | |- context [if ?c then _ else _] => destruct c
           end; intros H; try discriminate H; injection H as <-; tauto.
  - rewrite decryptWithPassword_spec, open_spec. cbv zeta.
    rewrite derived_key_length. cbn [Nat.eqb negb].
    repeat match goal with
           | |- context [if ?c then _ else _] => destruct c
           end; intros H; try discriminate H; injection H as <-; tauto.
  - intros salt' H. rewrite !decryptWithPassword_spec. now rewrite H.
Qed.

(* ------------------------------------------------------------------ *)
(** ** Strings *)

Lemma string_eqb_refl s : string_eqb s s = true.
Proof.
  unfold string_eqb. rewrite Nat.eqb_refl. cbn [andb].
  induction s as [|c s IH]; [reflexivity|].
  cbn [combine forallb fst snd]. now rewrite N.eqb_refl, IH.
Qed.

Lemma string_eqb_eq a b : string_eqb a b = true <-> a = b.
Proof.
  split; [|intros <-; apply string_eqb_refl].
  unfold string_eqb. revert b.
  induction a as [|x a IH]; intros [|y b] H; try reflexivity; try discriminate H.
  cbn in H. rewrite !andb_true_iff in H. destruct H as [Hl [Hxy Hall]].
  apply N.eqb_eq in Hxy. subst y. f_equal. apply IH. now rewrite Hl, Hall.
Qed.

Lemma starts_with_spec sub s :
  starts_with sub s = true <-> exists rest, s = sub ++ rest.
Proof.
  revert s. induction sub as [|a sub IH]; intros s; cbn [starts_with].
  - split; [|reflexivity]. intros _. now exists s.
  - destruct s as [|b s].
    + split; [discriminate|]. intros [rest H]. discriminate H.
    + rewrite andb_true_iff, N.eqb_eq, IH. split.
      * intros [-> [rest ->]]. now exists rest.
      * intros [rest H]. injection H as -> ->. split; [reflexivity|now exists rest].
Qed.

(** [includes] finds exactly the strings that occur somewhere. *)
Lemma String_includes_spec s sub :
  String_includes s sub = true <-> exists a b, s = a ++ sub ++ b.
Proof.
  induction s as [|c s IH]; cbn [String_includes].
  - rewrite orb_false_r, starts_with_spec. split.
    + intros [rest H]. exists [], rest. exact H.
    + intros (a & b & H). destruct a as [|x a]; [now exists b | discriminate H].
  - rewrite orb_true_iff, starts_with_spec, IH. split.
    + intros [[rest H]|(a & b & H)].
      * exists [], rest. exact H.
      * exists (c :: a), b. now rewrite H.
    + intros (a & b & H). destruct a as [|x a].
      * left. now exists b.
      * right. injection H as -> ->. now exists a, b.
Qed.

(* ------------------------------------------------------------------ *)
(** ** api/snipit.ts: requests *)

(** X6.  [makeRequest] takes from the URL its host, port and path with the
    query; the port is never left empty (443 for https, 80 otherwise), the
    two headers are fixed, and the fragment is not used: two URLs that
    differ in nothing but the fragment give the same request.  When the URL
    does not parse nothing is built. *)
Theorem build_request_ignores_fragment
  (parse_url : JSString -> option URL) (method url url' : JSString)
  (data : option JSONObject) (u u' : URL) :
  parse_url url = Some u ->
  parse_url url' = Some u' ->
  protocol u' = protocol u -> hostname u' = hostname u -> port u' = port u ->
  pathname u' = pathname u -> search u' = search u ->
  exists request,
    build_request parse_url method url data = Normal request
    /\ build_request parse_url method url' data = Normal request
    /\ rq_port request <> []
    /\ rq_path request = pathname u ++ search u
    /\ rq_body request = data
    /\ (forall url'', parse_url url'' = None ->
          build_request parse_url method url'' data = Throw ERR_INVALID_URL).
Proof.
  intros Hu Hu' Hp Hh Hport Hpath Hs.
  unfold build_request, new_URL. rewrite Hu, Hu'. cbn [bind].
  rewrite Hp, Hh, Hport, Hpath, Hs.
  eexists. split; [reflexivity|]. split; [reflexivity|].
  cbn [rq_port rq_path rq_body].
  split; [|split; [reflexivity|split; [reflexivity|]]].
  - destruct (port u); [|discriminate].
    destruct (string_eqb (protocol u) (js "https:")); discriminate.
  - intros url'' H. now rewrite H.
Qed.

Lemma build_request_ignores_fragment_witness :
  exists request,
    build_request example_parse_url (js "POST") (js "https://snipit.sh/api/snippets")
      None = Normal request
    /\ rq_port request = js "443".
Proof.
  destruct (build_request_ignores_fragment example_parse_url (js "POST")
              (js "https://snipit.sh/api/snippets") (js "https://snipit.sh/api/snippets")
              None _ _ eq_refl eq_refl eq_refl eq_refl eq_refl eq_refl eq_refl)
    as (request & H & _).
  exists request. split; [exact H|].
  vm_compute in H. injection H as <-. reflexivity.
Defined.

(** X7.  When the store answers, [createSnippet] returns its id and the
    link made of the API URL, a slash and that id; nothing is appended, so
    the link has no fragment unless the API URL or the id has one.  An error
    of the store is the error of [createSnippet], and when the API URL does
    not parse nothing is sent. *)
Theorem createSnippet_result
  (parse_url : JSString -> option URL) (Date_toISOString : N -> JSString)
  (store : HttpRequest -> Completion CreateSnippetResponse)
  (apiUrl : JSString) (now : N) (options : SnippetOptions) (rng : RandomSource) :
  let run := createSnippet parse_url Date_toISOString store apiUrl now options rng in
  (parse_url (apiUrl ++ js "/api/snippets") = None ->
   fst (fst run) = Throw ERR_INVALID_URL /\ snd (fst run) = [])
  /\ (parse_url (apiUrl ++ js "/api/snippets") <> None ->
      exists request,
        snd (fst run) = [request]
        /\ rq_method request = js "POST"
        /\ (forall e, store request = Throw e -> fst (fst run) = Throw e)
        /\ (forall response, store request = Normal response ->
              fst (fst run) =
              Normal {| res_url := apiUrl ++ js "/" ++ resp_id response;
                        res_id := resp_id response |}))
  /\ (forall r, fst (fst run) = Normal r ->
        res_url r = apiUrl ++ js "/" ++ res_id r
        /\ (~ In HASH apiUrl -> ~ In HASH (res_id r) -> ~ In HASH (res_url r))).
Proof.
  cbv zeta. unfold createSnippet, build_request, new_URL.
  destruct (parse_url (apiUrl ++ js "/api/snippets")) as [u|] eqn:Hu; cbn [bind fst snd].
  - split; [discriminate|]. split.
    + intros _. eexists. split; [reflexivity|]. cbn [rq_method].
      split; [reflexivity|]. split.
      * intros e He. now rewrite He.
      * intros response Hr. now rewrite Hr.
    + intros r. destruct (store _) as [response|e]; cbn [bind]; intros H;
        [|discriminate H].
      injection H as <-. cbn [res_url res_id]. split; [reflexivity|].
      intros Ha Hi Hin. apply in_app_or in Hin. destruct Hin as [Hin|Hin]; [tauto|].
      destruct Hin as [Hin|Hin]; [discriminate Hin | tauto].
  - split; [intros _; split; reflexivity|].
    split; [intros H; now contradiction H|].
    intros r H. discriminate H.
Qed.

Lemma JSON_members_In_iff l name v :
  In (name, v) (JSON_members l) <-> In (name, Some v) l.
Proof.
  split; [|apply JSON_members_In].
  induction l as [|[name' [v'|]] l IH]; cbn [JSON_members]; intros Hin.
  - contradiction.
  - destruct Hin as [Heq|Hin]; [injection Heq as -> ->; now left|].
    right. now apply IH.
  - right. now apply IH.
Qed.

Ltac other_member H :=
  apply (f_equal fst) in H; vm_compute in H; discriminate H.

(** X8.  The body of a creation request has a member expiresAt exactly
    when the expiry is not 'never', and its value is the clock plus 1 hour,
    24 hours, 7 days or 30 days; the offset is the one the share command
    uses to date its history entry (its table in milliseconds is the table
    of [createSnippet] in seconds, times 1000). *)
Theorem createSnippet_expiresAt
  (Date_toISOString : N -> JSString) (now : N) (options : SnippetOptions)
  (v : JSString) :
  (In (js "expiresAt", v) (JSON_members (requestBody Date_toISOString now options))
   <-> exists ms,
         share_expiryMap (opt_expiry options) = Some ms
         /\ v = Date_toISOString (now + ms))
  /\ (forall s, expiryMap (opt_expiry options) = Some s ->
                share_expiryMap (opt_expiry options) = Some (s * 1000))
  /\ (opt_expiry options = E_never <->
      ~ In (js "expiresAt") (member_names
                               (JSON_members (requestBody Date_toISOString now options)))).
Proof.
  assert (forall w,
            In (js "expiresAt", Some w) (requestBody Date_toISOString now options)
            <-> exists ms,
                  share_expiryMap (opt_expiry options) = Some ms
                  /\ w = Date_toISOString (now + ms)) as Hmem.
  { intros w. unfold requestBody. cbv zeta. cbn [In]. split.
    - intros [H|[H|[H|[H|[H|[H|[]]]]]]]; try other_member H.
      destruct (opt_expiry options); cbn in H; try discriminate H;
        injection H as <-; eexists; (split; [reflexivity|]); reflexivity.
    - intros (ms & Hms & ->). do 4 right. left. f_equal.
      destruct (opt_expiry options); cbn in Hms; try discriminate Hms;
        injection Hms as <-; reflexivity. }
  split; [|split].
  - rewrite JSON_members_In_iff. apply Hmem.
  - intros s. destruct (opt_expiry options); cbn; intros H; try discriminate H;
      injection H as <-; reflexivity.
  - split.
    + intros He Hin. unfold member_names in Hin. apply in_map_iff in Hin.
      destruct Hin as ([name w] & Hname & Hin). cbn [fst] in Hname. subst name.
      apply JSON_members_In_iff, Hmem in Hin. destruct Hin as (ms & Hms & _).
      rewrite He in Hms. discriminate Hms.
    + intros Hnot. destruct (opt_expiry options) eqn:He; try reflexivity;
        exfalso; apply Hnot; unfold member_names; apply in_map_iff;
        eexists (js "expiresAt", _); (split; [reflexivity|]);
        apply JSON_members_In_iff, Hmem; rewrite ?He; eexists;
        (split; [reflexivity|]); reflexivity.
Qed.

(* ------------------------------------------------------------------ *)
(** ** api/snipit.ts: links *)

(** X9.  [parseSnipitUrl] accepts a URL exactly when "snipit" occurs
    somewhere in its host name: any such host passes, not only snipit.sh. *)
Theorem parseSnipitUrl_host_check
  (parse_url : JSString -> option URL) (url : JSString) (u : URL) :
  parse_url url = Some u ->
  ((exists r, parseSnipitUrl parse_url url = Normal (Some r))
   <-> exists a b, hostname u = a ++ js "snipit" ++ b).
Proof.
  intros Hu. rewrite <- String_includes_spec.
  unfold parseSnipitUrl, new_URL. rewrite Hu. cbn [bind].
  destruct (String_includes (hostname u) (js "snipit")); cbn [negb try_catch].
  - split; [reflexivity|]. intros _. eexists. reflexivity.
  - split; [|discriminate]. intros [r H]. discriminate H.
Qed.

Lemma parseSnipitUrl_host_check_witness :
  exists r,
    parseSnipitUrl
      (fun _ => Some {| protocol := js "https:"; hostname := js "notsnipit.example";
                        port := []; pathname := js "/abc"; search := [];
                        fragment := Some (js "k") |})
      (js "https://notsnipit.example/abc#k") = Normal (Some r).
Proof.
  apply (parseSnipitUrl_host_check _ (js "https://notsnipit.example/abc#k") _ eq_refl).
  exists (js "not"), (js ".example"). reflexivity.
Defined.

(** X10.  A link that [parseSnipitUrl] accepts is read by [getSnippet] as
    the same id and key when it contains "snipit.sh" or "://"; a link with
    neither is not parsed at all by [getSnippet]: the whole string is taken
    as the id and no key is found. *)
Theorem locate_and_parseSnipitUrl
  (parse_url : JSString -> option URL) (link : JSString) (r : ParsedSnipitUrl) :
  parseSnipitUrl parse_url link = Normal (Some r) ->
  (String_includes link (js "snipit.sh") || String_includes link (js "://") = true ->
   locate parse_url link = Normal (id r, key_fragment r))
  /\ (String_includes link (js "snipit.sh") || String_includes link (js "://") = false ->
      locate parse_url link = Normal (link, None)).
Proof.
  unfold parseSnipitUrl, locate, new_URL. intros H.
  destruct (parse_url link) as [u|]; cbn [bind try_catch] in *; [|discriminate H].
  destruct (String_includes (hostname u) (js "snipit")); cbn [negb try_catch] in H;
    [|discriminate H].
  injection H as <-. cbn [id key_fragment].
  split; intros ->; reflexivity.
Qed.

Lemma locate_and_parseSnipitUrl_witness :
  locate example_parse_link (js "https://snipit.sh/abc123#k3y")
    = Normal (js "abc123", Some (js "k3y"))
  /\ locate example_parse_link (js "https:snipit.io/abc123")
     = Normal (js "https:snipit.io/abc123", None).
Proof.
  split.
  - apply (locate_and_parseSnipitUrl example_parse_link
             (js "https://snipit.sh/abc123#k3y")
             {| id := js "abc123"; key_fragment := Some (js "k3y") |} eq_refl).
    reflexivity.
  - apply (locate_and_parseSnipitUrl example_parse_link (js "https:snipit.io/abc123")
             {| id := js "abc123"; key_fragment := None |} eq_refl).
    reflexivity.
Defined.

(* ------------------------------------------------------------------ *)
(** ** api/snipit.ts: [getSnippet] *)

Lemma getSnippet_sent parse_url fetch apiUrl idOrUrl password :
  snd (getSnippet parse_url fetch apiUrl idOrUrl password) =
  match locate parse_url idOrUrl with
  | Throw _ => []
  | Normal (i, _) =>
      match build_request parse_url (js "GET") (apiUrl ++ js "/api/snippets/" ++ i)
              None with
      | Throw _ => []
      | Normal request => [request]
      end
  end.
Proof.
  unfold getSnippet. destruct (locate parse_url idOrUrl) as [[i k]|e]; [|reflexivity].
  destruct (build_request _ _ _ _); reflexivity.
Qed.

(** X11.  [getSnippet] sends at most one request: a GET without a body for
    the API URL followed by "/api/snippets/" and the id.  What is sent does
    not depend on the password, and it depends on the link through the id
    only: the key of the fragment does not reach the server. *)
Theorem getSnippet_request
  (parse_url : JSString -> option URL)
  (fetch : HttpRequest -> Promise GetSnippetResponse)
  (apiUrl idOrUrl : JSString) (password password' : option JSString) :
  snd (getSnippet parse_url fetch apiUrl idOrUrl password)
  = snd (getSnippet parse_url fetch apiUrl idOrUrl password')
  /\ (snd (getSnippet parse_url fetch apiUrl idOrUrl password) = []
      \/ exists request i k,
           locate parse_url idOrUrl = Normal (i, k)
           /\ snd (getSnippet parse_url fetch apiUrl idOrUrl password) = [request]
           /\ build_request parse_url (js "GET") (apiUrl ++ js "/api/snippets/" ++ i)
                None = Normal request
           /\ rq_method request = js "GET"
           /\ rq_body request = None)
  /\ (forall idOrUrl' i k k',
        locate parse_url idOrUrl = Normal (i, k) ->
        locate parse_url idOrUrl' = Normal (i, k') ->
        snd (getSnippet parse_url fetch apiUrl idOrUrl' password)
        = snd (getSnippet parse_url fetch apiUrl idOrUrl password)).
Proof.
  rewrite !getSnippet_sent. split; [reflexivity|]. split.
  - destruct (locate parse_url idOrUrl) as [[i k]|e]; [|now left].
    destruct (build_request parse_url (js "GET") (apiUrl ++ js "/api/snippets/" ++ i)
                None) as [request|e] eqn:Hreq; [|now left].
    right. exists request, i, k. repeat split; try reflexivity.
    + exact Hreq.
    + unfold build_request in Hreq. destruct (new_URL parse_url _); cbn [bind] in Hreq;
        [|discriminate Hreq]. injection Hreq as <-. reflexivity.
    + unfold build_request in Hreq. destruct (new_URL parse_url _); cbn [bind] in Hreq;
        [|discriminate Hreq]. injection Hreq as <-. reflexivity.
  - intros idOrUrl' i k k' H H'. rewrite getSnippet_sent, H, H'. reflexivity.
Qed.

Lemma Normal_inj {A} (a b : A) : Normal a = Normal b -> a = b.
Proof. intros H. now injection H. Qed.

Lemma getSnippet_answered parse_url fetch apiUrl link i k response password :
  answers parse_url fetch apiUrl link i k response ->
  fst (getSnippet parse_url fetch apiUrl link password)
  = read_response response k password.
Proof.
  intros (Hloc & request & Hreq & Hfetch).
  unfold getSnippet. rewrite Hloc, Hreq. cbn [fst]. now rewrite Hfetch.
Qed.

Lemma read_response_carried response E k password :
  carries response E ->
  read_response response k password =
  match
    match gs_visibility response with
    | V_password =>
        match password with
        | Some (x :: pw) =>
            match gs_salt response with
            | Some (y :: salt) =>
                of_completion (decryptWithPassword E (x :: pw) (y :: salt))
            | _ => Rejected (Error (js "Missing salt for password decryption"))
            end
        | _ => Rejected (Error (js "Password required"))
        end
    | _ =>
        match k with
        | Some (x :: key) => of_completion (decrypt E (x :: key))
        | _ => Rejected (Error (js "Encryption key required (should be in URL fragment)"))
        end
    end
  with
  | Resolved c =>
      Resolved {| sc_content := c; sc_language := gs_language response;
                  sc_fileName := gs_fileName response |}
  | Rejected r => Rejected r
  end.
Proof.
  intros (Hb & Hc & HE). unfold read_response. rewrite HE.
  destruct (gs_burned response) as [[|]|]; [contradiction| |];
    destruct (gs_content response) as [[|x c]|]; try discriminate Hc; reflexivity.
Qed.

Lemma toBase64Url_key_nonempty k :
  length k = 32%nat -> exists x rest, toBase64Url k = x :: rest.
Proof.
  intros Hk. pose proof (toBase64Url_length k) as Hlen.
  rewrite Hk in Hlen. destruct (toBase64Url k) as [|x rest]; [discriminate Hlen|].
  now exists x, rest.
Qed.

Lemma encrypt_opens p rng r :
  UTF8.well_formed p = true ->
  fst (encrypt p rng) = Normal r ->
  decrypt (encrypted r) (key r) = Normal p.
Proof.
  intros Hwf Henc.
  pose proof (encrypt_returns p rng) as Hret. rewrite Henc in Hret.
  apply Normal_inj in Hret. rewrite Hret. cbn [encrypted key].
  rewrite decrypt_own_key, open_sealed.
  - now rewrite utf8_roundtrip.
  - apply randomBytes_length.
  - apply iv_accepted_12. apply randomBytes_length.
Qed.

(** X12.  Reading back what [encrypt] made: when the link carries the key
    in its fragment and the store answers with the envelope (not burned, no
    plain content, not password-protected), [getSnippet] resolves with the
    plaintext and the language and file name of the response. *)
Theorem getSnippet_reads_encrypted
  (parse_url : JSString -> option URL)
  (fetch : HttpRequest -> Promise GetSnippetResponse)
  (apiUrl link i p : JSString) (password : option JSString)
  (rng : RandomSource) (r : EncryptionResult) (response : GetSnippetResponse) :
  UTF8.well_formed p = true ->
  fst (encrypt p rng) = Normal r ->
  answers parse_url fetch apiUrl link i (Some (key r)) response ->
  carries response (encrypted r) ->
  gs_visibility response <> V_password ->
  fst (getSnippet parse_url fetch apiUrl link password)
  = Resolved {| sc_content := p; sc_language := gs_language response;
                sc_fileName := gs_fileName response |}.
Proof.
  intros Hwf Henc Hans Hcar Hvis.
  rewrite (getSnippet_answered _ _ _ _ _ _ _ _ Hans).
  rewrite (read_response_carried _ _ _ _ Hcar).
  pose proof (encrypt_opens p rng r Hwf Henc) as Hdec.
  assert (exists x rest, key r = x :: rest) as (x & rest & Hkey).
  { pose proof (encrypt_returns p rng) as Hret. rewrite Henc in Hret.
    apply Normal_inj in Hret. rewrite Hret. cbn [key].
    apply toBase64Url_key_nonempty. apply randomBytes_length. }
  rewrite Hkey in *. rewrite Hdec.
  destruct (gs_visibility response); [reflexivity | contradiction | reflexivity].
Qed.

Lemma getSnippet_reads_encrypted_witness :
  fst (getSnippet example_parse_link example_fetch (js "https://snipit.sh")
         example_link None)
  = Resolved {| sc_content := js "Hello, World!";
                sc_language := Some (js "typescript");
                sc_fileName := Some (js "example.ts") |}.
Proof.
  pose (r := {| encrypted :=
                  sealed (js "Hello, World!") (fst (generateKey example_rng))
                    (fst (randomBytes IV_LENGTH (snd (generateKey example_rng))));
                key := toBase64Url (fst (generateKey example_rng)) |}).
  apply (getSnippet_reads_encrypted example_parse_link example_fetch
           (js "https://snipit.sh") example_link (js "abc123") (js "Hello, World!")
           None example_rng r (example_response (encrypted r) V_public None)).
  - reflexivity.
  - apply encrypt_returns.
  - split; [vm_compute; reflexivity|].
    eexists. split; [vm_compute; reflexivity|].
    unfold example_fetch. rewrite encrypt_returns. reflexivity.
  - repeat split. discriminate.
  - discriminate.
Defined.

Lemma encode_nonempty x b : exists c rest, Base64.encode (x :: b) = c :: rest.
Proof.
  destruct b as [|y [|z b]]; cbn [Base64.encode]; cbv zeta; eexists; eexists; reflexivity.
Qed.

Lemma encryptWithPassword_opens p pw rng r :
  UTF8.well_formed p = true ->
  fst (encryptWithPassword p pw rng) = Normal r ->
  decryptWithPassword (pw_encrypted r) pw (pw_salt r) = Normal p.
Proof.
  intros Hwf Henc.
  pose proof (encryptWithPassword_returns p pw rng) as Hret. rewrite Henc in Hret.
  apply Normal_inj in Hret. rewrite Hret. cbn [pw_encrypted pw_salt].
  rewrite decryptWithPassword_spec, base64_roundtrip.
  rewrite open_sealed.
  - rewrite utf8_roundtrip by exact Hwf. reflexivity.
  - apply derived_key_length.
  - apply iv_accepted_12. apply randomBytes_length.
Qed.

Lemma read_response_opens_with_password
  (p pw : JSString) (k : option JSString)
  (rng : RandomSource) (r : PasswordEncryptionResult) (response : GetSnippetResponse) :
  UTF8.well_formed p = true ->
  pw <> [] ->
  fst (encryptWithPassword p pw rng) = Normal r ->
  carries response (pw_encrypted r) ->
  gs_visibility response = V_password ->
  gs_salt response = Some (pw_salt r) ->
  read_response response k (Some pw)
  = Resolved {| sc_content := p; sc_language := gs_language response;
                sc_fileName := gs_fileName response |}.
Proof.
  intros Hwf Hpw Henc Hcar Hvis Hsalt.
  rewrite (read_response_carried _ _ _ _ Hcar), Hvis, Hsalt.
  pose proof (encryptWithPassword_opens p pw rng r Hwf Henc) as Hdec.
  assert (exists y rest, pw_salt r = y :: rest) as (y & rest & Hs).
  { pose proof (encryptWithPassword_returns p pw rng) as Hret. rewrite Henc in Hret.
    apply Normal_inj in Hret. rewrite Hret. cbn [pw_salt].
    unfold Buffer_toString_base64, randomBytes. cbn [fst].
    change (N.to_nat 16) with 16%nat. cbn [seq map]. apply encode_nonempty. }
  destruct pw as [|x pw]; [contradiction|].
  rewrite Hs in *. rewrite Hdec. reflexivity.
Qed.

Lemma read_response_password_required
  (k password : option JSString) (response : GetSnippetResponse) (E : EncryptedData) :
  carries response E ->
  gs_visibility response = V_password -> truthy password = false ->
  read_response response k password = Rejected (Error (js "Password required")).
Proof.
  intros Hcar Hvis Hpw.
  rewrite (read_response_carried _ _ _ _ Hcar), Hvis.
  destruct password as [[|x pw]|]; [reflexivity|discriminate Hpw|reflexivity].
Qed.

(** X13.  Reading back what [encryptWithPassword] made: when the store
    answers with the envelope and the salt, marked password-protected,
    [getSnippet] with the same, non-empty password resolves with the
    plaintext; a key in the link is not needed. *)
Theorem getSnippet_reads_password_protected
  (parse_url : JSString -> option URL)
  (fetch : HttpRequest -> Promise GetSnippetResponse)
  (apiUrl link i p pw : JSString) (k : option JSString)
  (rng : RandomSource) (r : PasswordEncryptionResult) (response : GetSnippetResponse) :
  UTF8.well_formed p = true ->
  pw <> [] ->
  fst (encryptWithPassword p pw rng) = Normal r ->
  answers parse_url fetch apiUrl link i k response ->
  carries response (pw_encrypted r) ->
  gs_visibility response = V_password ->
  gs_salt response = Some (pw_salt r) ->
  fst (getSnippet parse_url fetch apiUrl link (Some pw))
  = Resolved {| sc_content := p; sc_language := gs_language response;
                sc_fileName := gs_fileName response |}.
Proof.
  intros Hwf Hpw Henc Hans Hcar Hvis Hsalt.
  rewrite (getSnippet_answered _ _ _ _ _ _ _ _ Hans).
  now apply (read_response_opens_with_password p pw k rng r response).
Qed.

Lemma getSnippet_reads_password_protected_witness :
  fst (getSnippet example_parse_link example_fetch_password (js "https://snipit.sh")
         (js "https://snipit.sh/abc123") (Some (js "MySecurePassword123!")))
  = Resolved {| sc_content := js "Secret content";
                sc_language := Some (js "typescript");
                sc_fileName := Some (js "example.ts") |}.
Proof.
  pose (r := {| pw_encrypted :=
                  sealed (js "Secret content")
                    (derived_key (js "MySecurePassword123!")
                       (fst (randomBytes 16 example_rng)))
                    (fst (randomBytes IV_LENGTH (snd (randomBytes 16 example_rng))));
                pw_salt := Buffer_toString_base64 (fst (randomBytes 16 example_rng)) |}).
  apply (getSnippet_reads_password_protected example_parse_link example_fetch_password
           (js "https://snipit.sh") (js "https://snipit.sh/abc123") (js "abc123")
           (js "Secret content") (js "MySecurePassword123!") None example_rng r
           (example_response (pw_encrypted r) V_password (Some (pw_salt r)))).
  - reflexivity.
  - discriminate.
  - apply encryptWithPassword_returns.
  - split; [reflexivity|].
    eexists. split; [reflexivity|].
    unfold example_fetch_password. rewrite encryptWithPassword_returns. reflexivity.
  - repeat split. discriminate.
  - reflexivity.
  - reflexivity.
Defined.

(** X14.  Without the secret [getSnippet] does not try to decrypt: for a
    password-protected envelope and no password, or the empty password, it
    rejects with 'Password required' (the message the paste command waits
    for), whatever the envelope is, so an envelope made with the empty
    password, which [decryptWithPassword] opens, cannot be read this way;
    for any other envelope and a link without a key it rejects with
    'Encryption key required'. *)
Theorem getSnippet_missing_secret
  (parse_url : JSString -> option URL)
  (fetch : HttpRequest -> Promise GetSnippetResponse)
  (apiUrl link i : JSString) (k password : option JSString)
  (response : GetSnippetResponse) (E : EncryptedData) :
  answers parse_url fetch apiUrl link i k response ->
  carries response E ->
  (gs_visibility response = V_password -> truthy password = false ->
   fst (getSnippet parse_url fetch apiUrl link password)
   = Rejected (Error (js "Password required")))
  /\ (gs_visibility response <> V_password -> k = None ->
      fst (getSnippet parse_url fetch apiUrl link password)
      = Rejected (Error (js "Encryption key required (should be in URL fragment)")))
  /\ (forall p rng, UTF8.well_formed p = true ->
        exists r, fst (encryptWithPassword p [] rng) = Normal r
                  /\ decryptWithPassword (pw_encrypted r) [] (pw_salt r) = Normal p).
Proof.
  intros Hans Hcar.
  split; [|split].
  - intros Hvis Hpw. rewrite (getSnippet_answered _ _ _ _ _ _ _ _ Hans).
    now apply (read_response_password_required k password response E).
  - rewrite (getSnippet_answered _ _ _ _ _ _ _ _ Hans).
    rewrite (read_response_carried _ _ _ _ Hcar).
    intros Hvis ->. destruct (gs_visibility response); [reflexivity|contradiction|reflexivity].
  - intros p rng Hwf. eexists. split; [apply encryptWithPassword_returns|].
    apply (encryptWithPassword_opens p [] rng); [exact Hwf|].
    apply encryptWithPassword_returns.
Qed.

Lemma getSnippet_missing_secret_witness :
  fst (getSnippet example_parse_link example_fetch_password (js "https://snipit.sh")
         (js "https://snipit.sh/abc123") (Some []))
  = Rejected (Error (js "Password required")).
Proof.
  pose (E := sealed (js "Secret content")
               (derived_key (js "MySecurePassword123!")
                  (fst (randomBytes 16 example_rng)))
               (fst (randomBytes IV_LENGTH (snd (randomBytes 16 example_rng))))).
  pose (salt := Buffer_toString_base64 (fst (randomBytes 16 example_rng))).
  refine (proj1 (getSnippet_missing_secret example_parse_link example_fetch_password
                   (js "https://snipit.sh") (js "https://snipit.sh/abc123") (js "abc123")
                   None (Some []) (example_response E V_password (Some salt)) E _ _)
            eq_refl eq_refl).
  - split; [reflexivity|].
    eexists. split; [reflexivity|].
    unfold example_fetch_password. rewrite encryptWithPassword_returns. reflexivity.
  - repeat split. discriminate.
Defined.

(* ------------------------------------------------------------------ *)
(** ** commands/share.ts and commands/paste.ts: the validators *)

Lemma of_completion_not_error {A} (c : Completion A) message :
  of_completion c <> Rejected (Error message).
Proof. destruct c; discriminate. Qed.

(** X15.  The password box of the share command accepts exactly the
    strings of at least 4 code units and the confirmation box exactly the
    same string again; a password it accepts is never answered with
    'Password required' by [getSnippet]'s reading of a password-protected
    envelope. *)
Theorem share_password_validators (pw v : JSString) :
  (validatePassword (Some pw) = None <-> (4 <= length pw)%nat)
  /\ validatePassword None <> None
  /\ (validateConfirmation pw v = None <-> v = pw)
  /\ (validatePassword (Some pw) = None ->
      forall response E k,
        carries response E ->
        read_response response k (Some pw) <> Rejected (Error (js "Password required"))).
Proof.
  assert (validatePassword (Some pw) = None <-> (4 <= length pw)%nat) as Hok.
  { unfold validatePassword. destruct pw as [|a [|b [|c [|d pw]]]]; cbn; split;
      try discriminate; try lia; reflexivity. }
  split; [exact Hok|]. split; [discriminate|]. split.
  - unfold validateConfirmation.
    destruct (string_eqb v pw) eqn:Heq; cbn [negb].
    + apply string_eqb_eq in Heq. split; auto.
    + split; [discriminate|]. intros ->. rewrite string_eqb_refl in Heq. discriminate.
  - intros Hacc response E k Hcar. apply Hok in Hacc.
    rewrite (read_response_carried _ _ _ _ Hcar).
    destruct pw as [|x pw]; [cbn in Hacc; lia|].
    destruct (gs_visibility response).
    + destruct k as [[|y k]|]; try discriminate.
      destruct (decrypt E (y :: k)); discriminate.
    + destruct (gs_salt response) as [[|y salt]|]; try discriminate.
      destruct (decryptWithPassword E (x :: pw) (y :: salt)); discriminate.
    + destruct k as [[|y k]|]; try discriminate.
      destruct (decrypt E (y :: k)); discriminate.
Qed.

(** X16.  The URL box of the paste command accepts a value exactly when it
    is not empty and [parseSnipitUrl] returns an id for it; an empty value
    gets 'URL is required', any other refused value 'Invalid Snipit.sh
    URL'. *)
Theorem paste_validateInput_accepts
  (parse_url : JSString -> option URL) (value : option JSString) :
  (paste_validateInput parse_url value = None <->
   exists v r, value = Some v /\ v <> []
               /\ parseSnipitUrl parse_url v = Normal (Some r))
  /\ (truthy value = false ->
      paste_validateInput parse_url value = Some (js "URL is required"))
  /\ (forall v, value = Some v -> v <> [] ->
        parseSnipitUrl parse_url v = Normal None ->
        paste_validateInput parse_url value = Some (js "Invalid Snipit.sh URL")).
Proof.
  unfold paste_validateInput. split; [|split].
  - destruct value as [[|x v]|]; cbn [truthy negb].
    + split; [discriminate|]. intros (v & r & H & Hne & _). injection H as <-.
      now contradiction Hne.
    + destruct (parseSnipitUrl parse_url (x :: v)) as [[r|]|e] eqn:Hp.
      * split; [|reflexivity]. intros _. exists (x :: v), r.
        repeat split; [discriminate | assumption].
      * split; [discriminate|]. intros (v' & r & H & _ & Hr). injection H as <-.
        rewrite Hp in Hr. discriminate Hr.
      * split; [discriminate|]. intros (v' & r & H & _ & Hr). injection H as <-.
        rewrite Hp in Hr. discriminate Hr.
    + split; [discriminate|]. intros (v & r & H & _). discriminate H.
  - intros Ht. destruct value as [[|x v]|]; try reflexivity. discriminate Ht.
  - intros v -> Hne Hp. destruct v as [|x v]; [now contradiction Hne|].
    cbn [truthy negb]. now rewrite Hp.
Qed.

(* ------------------------------------------------------------------ *)
(** ** providers/historyProvider.ts *)

Lemma addToHistory_stores (maxItems : Z) (item : HistoryItem) (st : GlobalState) :
  (0 <= maxItems)%Z ->
  fst (addToHistory maxItems item st) = Added
  /\ getHistory (snd (addToHistory maxItems item st))
     = firstn (Z.to_nat maxItems) (item :: getHistory st).
Proof.
  intros Hmax. unfold addToHistory. cbv zeta.
  replace (maxItems <? 0)%Z with false by (symmetry; apply Z.ltb_ge; lia).
  destruct (Z.ltb_spec maxItems (Z.of_nat (length (item :: getHistory st))));
    cbn [fst snd getHistory]; (split; [reflexivity|]); [reflexivity|].
  symmetry. apply firstn_all2. lia.
Qed.

(** X17.  With a setting [maxHistoryItems] that is not negative,
    [addToHistory] succeeds and leaves at most that many entries: the new
    entry first (when the setting is not 0), then the entries that were
    there, in their order, the oldest dropped. *)
Theorem addToHistory_bounded (maxItems : Z) (item : HistoryItem) (st : GlobalState) :
  (0 <= maxItems)%Z ->
  fst (addToHistory maxItems item st) = Added
  /\ (Z.of_nat (length (getHistory (snd (addToHistory maxItems item st))))
      <= maxItems)%Z
  /\ getHistory (snd (addToHistory maxItems item st))
     = firstn (Z.to_nat maxItems) (item :: getHistory st)
  /\ ((1 <= maxItems)%Z ->
      exists older,
        getHistory (snd (addToHistory maxItems item st)) = item :: older
        /\ older = firstn (Z.to_nat maxItems - 1) (getHistory st)).
Proof.
  intros Hmax.
  destruct (addToHistory_stores maxItems item st Hmax) as [Hf Hh].
  split; [exact Hf|].
  rewrite Hh. split; [rewrite length_firstn; lia|]. split; [reflexivity|].
  intros H1. eexists. split; [|reflexivity].
  replace (Z.to_nat maxItems) with (S (Z.to_nat maxItems - 1)) at 1 by lia.
  reflexivity.
Qed.

Lemma addToHistory_bounded_witness :
  fst (addToHistory 1 example_item (Some [example_item; example_item])) = Added
  /\ getHistory (snd (addToHistory 1 example_item (Some [example_item; example_item])))
     = [example_item].
Proof.
  destruct (addToHistory_bounded 1 example_item (Some [example_item; example_item])
              ltac:(lia)) as (H1 & _ & H3 & _).
  split; [exact H1 | exact H3].
Defined.

(** X18.  After [addToHistory] with a setting of at least 1, [getItem]
    finds the new entry under its id, also when an older entry has the same
    id. *)
Theorem getItem_after_addToHistory (maxItems : Z) (item : HistoryItem) (st : GlobalState) :
  (1 <= maxItems)%Z ->
  getItem (h_id item) (snd (addToHistory maxItems item st)) = Some item.
Proof.
  intros Hmax. unfold getItem.
  destruct (addToHistory_stores maxItems item st ltac:(lia)) as [_ ->].
  replace (Z.to_nat maxItems) with (S (Z.to_nat maxItems - 1)) by lia.
  cbn [firstn find]. now rewrite string_eqb_refl.
Qed.

Lemma getItem_after_addToHistory_witness :
  getItem (js "abc123") (snd (addToHistory 50 example_item None)) = Some example_item.
Proof.
  apply (getItem_after_addToHistory 50 example_item None). lia.
Defined.

Lemma find_filter_other (id id' : JSString) (l : list HistoryItem) :
  id' <> id ->
  find (fun item => string_eqb (h_id item) id')
    (filter (fun item => negb (string_eqb (h_id item) id)) l)
  = find (fun item => string_eqb (h_id item) id') l.
Proof.
  intros Hne. induction l as [|x l IH]; [reflexivity|].
  cbn [filter find].
  destruct (string_eqb (h_id x) id) eqn:Hx; cbn [negb].
  - apply string_eqb_eq in Hx.
    destruct (string_eqb (h_id x) id') eqn:Hx'; [|exact IH].
    apply string_eqb_eq in Hx'. congruence.
  - cbn [find]. now rewrite IH.
Qed.

(** X19.  [removeFromHistory] removes every entry with the id: [getItem]
    no longer finds it; the other entries stay, in their order, and are
    found as before. *)
Theorem removeFromHistory_removes (id : JSString) (st : GlobalState) :
  getItem id (removeFromHistory id st) = None
  /\ (forall id', id' <> id ->
        getItem id' (removeFromHistory id st) = getItem id' st)
  /\ (forall item, In item (getHistory (removeFromHistory id st))
                   <-> In item (getHistory st) /\ h_id item <> id)
  /\ (length (getHistory (removeFromHistory id st)) <= length (getHistory st))%nat.
Proof.
  unfold getItem, removeFromHistory. cbn [getHistory].
  split; [|split; [|split]].
  - induction (getHistory st) as [|x l IH]; [reflexivity|].
    cbn [filter]. destruct (string_eqb (h_id x) id) eqn:Hx; cbn [negb find].
    + exact IH.
    + now rewrite Hx.
  - intros id' Hne. now apply find_filter_other.
  - intros item. rewrite filter_In, negb_true_iff.
    split; intros [Hin H]; (split; [exact Hin|]).
    + intros Heq. apply string_eqb_eq in Heq. congruence.
    + destruct (string_eqb (h_id item) id) eqn:Heq; [|reflexivity].
      apply string_eqb_eq in Heq. contradiction.
  - apply filter_length_le.
Qed.

(** X20.  With a negative setting [maxHistoryItems], [addToHistory] does
    not succeed: assigning the negative length throws, and its promise is
    rejected with that RangeError. *)
Theorem addToHistory_negative_setting (maxItems : Z) (item : HistoryItem)
  (st : GlobalState) :
  (maxItems < 0)%Z ->
  fst (addToHistory maxItems item st) = InvalidArrayLength.
Proof.
  intros Hneg. unfold addToHistory. cbv zeta.
  replace (maxItems <? Z.of_nat (length (item :: getHistory st)))%Z with true
    by (symmetry; apply Z.ltb_lt; lia).
  replace (maxItems <? 0)%Z with true by (symmetry; apply Z.ltb_lt; lia).
  reflexivity.
Qed.

Lemma addToHistory_negative_setting_witness :
  fst (addToHistory (-1) example_item None) = InvalidArrayLength.
Proof.
  apply (addToHistory_negative_setting (-1) example_item None). lia.
Defined.

(* ------------------------------------------------------------------ *)
(** ** commands/paste.ts: fetching the snippet *)

(** X21.  The paste command sends at most two requests, each the GET
    without a body that [getSnippet] sends for the link with no password;
    it sends the second only after the first was rejected with the message
    'Password required' (by [getSnippet] or by the store) and a password
    was typed, and what was typed is in neither request. *)
Theorem paste_fetch_requests
  (parse_url : JSString -> option URL)
  (fetch1 fetch2 : HttpRequest -> Promise GetSnippetResponse)
  (apiUrl url : JSString) (typed : option JSString) :
  let first := getSnippet parse_url fetch1 apiUrl url None in
  (length (snd first) <= 1)%nat
  /\ (forall request, In request (snd first) ->
        rq_method request = js "GET" /\ rq_body request = None)
  /\ (snd (paste_fetch parse_url fetch1 fetch2 apiUrl url typed) = snd first
      \/ snd (paste_fetch parse_url fetch1 fetch2 apiUrl url typed)
         = snd first ++ snd first
         /\ truthy typed = true
         /\ exists message,
              fst first = Rejected (Error message)
              /\ message = js "Password required").
Proof.
  cbv zeta. split; [|split].
  - rewrite getSnippet_sent. destruct (locate parse_url url) as [[i k]|e]; [|cbn; lia].
    destruct (build_request _ _ _ _); cbn; lia.
  - intros request. rewrite getSnippet_sent.
    destruct (locate parse_url url) as [[i k]|e]; [|intros []].
    destruct (build_request parse_url (js "GET") (apiUrl ++ js "/api/snippets/" ++ i)
                None) as [rq|e] eqn:Hreq; [|intros []].
    intros [<-|[]]. unfold build_request in Hreq.
    destruct (new_URL parse_url _); cbn [bind] in Hreq; [|discriminate Hreq].
    injection Hreq as <-. split; reflexivity.
  - unfold paste_fetch. cbv zeta.
    destruct (fst (getSnippet parse_url fetch1 apiUrl url None)) as [result|error];
      [now left|].
    destruct (is_password_required error) eqn:Hreq; [|now left].
    destruct (truthy typed) eqn:Htyped; cbn [negb]; [|now left].
    right. cbn [snd]. split; [|split; [reflexivity|]].
    + f_equal. rewrite !getSnippet_sent. reflexivity.
    + destruct error as [e|message]; [discriminate Hreq|].
      exists message. split; [reflexivity|]. now apply string_eqb_eq.
Qed.

(** X22.  Pasting what [encryptWithPassword] made: when the store answers
    both requests with the password-protected envelope and its salt, the
    paste command asks for the password after the first request, and with
    the password of the envelope typed it gets the plaintext from the
    second, identical request; with nothing typed it stops after the
    first. *)
Theorem paste_fetch_password_protected
  (parse_url : JSString -> option URL)
  (fetch1 fetch2 : HttpRequest -> Promise GetSnippetResponse)
  (apiUrl link i p pw : JSString) (k : option JSString)
  (rng : RandomSource) (r : PasswordEncryptionResult) (response : GetSnippetResponse) :
  UTF8.well_formed p = true ->
  pw <> [] ->
  fst (encryptWithPassword p pw rng) = Normal r ->
  answers parse_url fetch1 apiUrl link i k response ->
  answers parse_url fetch2 apiUrl link i k response ->
  carries response (pw_encrypted r) ->
  gs_visibility response = V_password ->
  gs_salt response = Some (pw_salt r) ->
  fst (paste_fetch parse_url fetch1 fetch2 apiUrl link (Some pw))
  = Pasted p (gs_language response)
  /\ (exists request,
        snd (paste_fetch parse_url fetch1 fetch2 apiUrl link (Some pw))
        = [request; request])
  /\ (forall typed, truthy typed = false ->
        fst (paste_fetch parse_url fetch1 fetch2 apiUrl link typed) = Cancelled
        /\ length (snd (paste_fetch parse_url fetch1 fetch2 apiUrl link typed)) = 1%nat).
Proof.
  intros Hwf Hpw Henc Hans1 Hans2 Hcar Hvis Hsalt.
  assert (fst (getSnippet parse_url fetch1 apiUrl link None)
          = Rejected (Error (js "Password required"))) as Hfirst.
  { rewrite (getSnippet_answered _ _ _ _ _ _ _ _ Hans1).
    exact (read_response_password_required k None response (pw_encrypted r)
             Hcar Hvis eq_refl). }
  assert (fst (getSnippet parse_url fetch2 apiUrl link (Some pw))
          = Resolved {| sc_content := p; sc_language := gs_language response;
                        sc_fileName := gs_fileName response |}) as Hsecond.
  { rewrite (getSnippet_answered _ _ _ _ _ _ _ _ Hans2).
    exact (read_response_opens_with_password p pw k rng r response
             Hwf Hpw Henc Hcar Hvis Hsalt). }
  assert (exists request, forall fetch password,
            snd (getSnippet parse_url fetch apiUrl link password) = [request])
    as (request & Hsent).
  { destruct Hans1 as (Hloc & request & Hreq & _). exists request.
    intros fetch password. now rewrite getSnippet_sent, Hloc, Hreq. }
  unfold paste_fetch. cbv zeta. rewrite Hfirst.
  cbn [is_password_required]. rewrite string_eqb_refl.
  split; [|split].
  - destruct pw as [|x pw]; [contradiction|]. cbn [truthy negb fst].
    rewrite Hsecond. reflexivity.
  - exists request. destruct pw as [|x pw]; [contradiction|]. cbn [truthy negb snd].
    rewrite !Hsent. reflexivity.
  - intros typed ->. cbn [negb fst snd]. split; [reflexivity|]. now rewrite Hsent.
Qed.

Lemma paste_fetch_password_protected_witness :
  fst (paste_fetch example_parse_link example_fetch_password example_fetch_password
         (js "https://snipit.sh") (js "https://snipit.sh/abc123")
         (Some (js "MySecurePassword123!")))
  = Pasted (js "Secret content") (Some (js "typescript")).
Proof.
  pose (r := {| pw_encrypted :=
                  sealed (js "Secret content")
                    (derived_key (js "MySecurePassword123!")
                       (fst (randomBytes 16 example_rng)))
                    (fst (randomBytes IV_LENGTH (snd (randomBytes 16 example_rng))));
                pw_salt := Buffer_toString_base64 (fst (randomBytes 16 example_rng)) |}).
  refine (proj1 (paste_fetch_password_protected example_parse_link
           example_fetch_password example_fetch_password
           (js "https://snipit.sh") (js "https://snipit.sh/abc123") (js "abc123")
           (js "Secret content") (js "MySecurePassword123!") None example_rng r
           (example_response (pw_encrypted r) V_password (Some (pw_salt r)))
           _ _ _ _ _ _ _ _)).
  - reflexivity.
  - discriminate.
  - apply encryptWithPassword_returns.
  - split; [reflexivity|].
    eexists. split; [reflexivity|].
    unfold example_fetch_password. rewrite encryptWithPassword_returns. reflexivity.
  - split; [reflexivity|].
    eexists. split; [reflexivity|].
    unfold example_fetch_password. rewrite encryptWithPassword_returns. reflexivity.
  - repeat split. discriminate.
  - reflexivity.
  - reflexivity.
Defined.

(* ------------------------------------------------------------------ *)
(** ** providers/historyProvider.ts: [HistoryTreeItem.formatDate] *)

Ltac label_cases :=
  repeat match goal with
    | |- _ /\ _ => split
    | |- _ <-> _ => split
    | |- forall _, _ => intro
    | H : _ /\ _ |- _ => destruct H
    | H : _ \/ _ |- _ => destruct H
    | H : MinutesAgo _ = MinutesAgo _ |- _ => injection H as H
    | H : HoursAgo _ = HoursAgo _ |- _ => injection H as H
    | H : DaysAgo _ = DaysAgo _ |- _ => injection H as H
    end;
  subst; try discriminate; try reflexivity; try lia.

(** X23.  The text [formatDate] shows is determined by the age d of the
    entry in milliseconds: 'just now' below one minute (also for a date in
    the future), the whole minutes below one hour, the whole hours below
    one day, the whole days below seven days, the locale's date from seven
    days on; the number shown is at least 1.  An invalid date gets the
    locale's date. *)
Theorem formatDate_ranges (t now : Z) :
  let d := (now - t)%Z in
  (formatDate (Some t) now = JustNow <-> (d < 60000)%Z)
  /\ (forall n, formatDate (Some t) now = MinutesAgo n <->
                (60000 <= d < 3600000)%Z /\ n = (d / 60000)%Z)
  /\ (forall n, formatDate (Some t) now = HoursAgo n <->
                (3600000 <= d < 86400000)%Z /\ n = (d / 3600000)%Z)
  /\ (forall n, formatDate (Some t) now = DaysAgo n <->
                (86400000 <= d < 604800000)%Z /\ n = (d / 86400000)%Z)
  /\ (formatDate (Some t) now = LocaleDate <-> (604800000 <= d)%Z)
  /\ (forall n, formatDate (Some t) now = MinutesAgo n
                \/ formatDate (Some t) now = HoursAgo n
                \/ formatDate (Some t) now = DaysAgo n -> (1 <= n)%Z)
  /\ formatDate None now = LocaleDate.
Proof.
  intros d. unfold formatDate. fold d. cbv zeta.
  assert ((d / 60000 / 60 = d / 3600000)%Z) as Hh by (rewrite Z.div_div by lia; reflexivity).
  assert ((d / 60000 / 60 / 24 = d / 86400000)%Z) as Hd
    by (rewrite !Z.div_div by lia; reflexivity).
  rewrite Hd, Hh.
  destruct (Z.ltb_spec (d / 60000) 1); [|destruct (Z.ltb_spec (d / 60000) 60);
    [|destruct (Z.ltb_spec (d / 3600000) 24); [|destruct (Z.ltb_spec (d / 86400000) 7)]]];
    label_cases.
Qed.

(* ------------------------------------------------------------------ *)
(** ** utils/clipboard.ts: the file name of the document *)

Lemma pop_cons {A} (x : A) l : l <> [] -> pop (x :: l) = pop l.
Proof. destruct l; [contradiction|reflexivity]. Qed.

Lemma split_separators_last (s : JSString) :
  exists piece,
    pop (split_separators s) = Some piece
    /\ forallb (fun c => negb (is_separator c)) piece = true
    /\ (split_separators s = [piece] /\ s = piece
        \/ exists pre c, is_separator c = true /\ s = pre ++ c :: piece
                         /\ (2 <= length (split_separators s))%nat).
Proof.
  induction s as [|c s (piece & Hpop & Hfree & Hshape)].
  - exists []. repeat split. now left.
  - cbn [split_separators]. destruct (is_separator c) eqn:Hc.
    + exists piece. split; [|split; [exact Hfree|]].
      * rewrite pop_cons; [exact Hpop|].
        intros E. rewrite E in Hpop. discriminate Hpop.
      * right. destruct Hshape as [[Hone ->]|(pre & c' & Hc' & -> & Hlen)].
        -- exists [], c. rewrite Hone. repeat split; [exact Hc | cbn; lia].
        -- exists (c :: pre), c'. repeat split; [exact Hc' | cbn [length]; lia].
    + destruct Hshape as [[Hone ->]|(pre & c' & Hc' & -> & Hlen)].
      * rewrite Hone. exists (c :: piece). split; [reflexivity|].
        split; [cbn [forallb]; now rewrite Hc, Hfree|]. now left.
      * destruct (split_separators (pre ++ c' :: piece)) as [|piece0 pieces] eqn:Hs;
          [cbn in Hlen; lia|].
        exists piece. split; [|split; [exact Hfree|]].
        -- rewrite pop_cons; [|destruct pieces; [cbn in Hlen; lia|discriminate]].
           rewrite <- Hpop. symmetry. apply pop_cons.
           destruct pieces; [cbn in Hlen; lia|discriminate].
        -- right. exists (c :: pre), c'. repeat split; [exact Hc' | exact Hlen].
Qed.

(** X24.  The file name [getSelectedText] reports is what follows the last
    '/' or '\' of the document's path (the whole path when it has none), or
    'untitled' when nothing follows: it is never empty and contains no
    separator. *)
Theorem document_name_is_last_segment (fileName : JSString) :
  exists pre piece,
    fileName = pre ++ piece
    /\ forallb (fun c => negb (is_separator c)) piece = true
    /\ (pre = [] \/ exists pre' c, pre = pre' ++ [c] /\ is_separator c = true)
    /\ document_name fileName = (if length piece =? 0 then js "untitled" else piece)%nat
    /\ document_name fileName <> []
    /\ forallb (fun c => negb (is_separator c)) (document_name fileName) = true.
Proof.
  destruct (split_separators_last fileName) as (piece & Hpop & Hfree & Hshape).
  assert (document_name fileName
          = (if length piece =? 0 then js "untitled" else piece)%nat) as Hname.
  { unfold document_name. rewrite Hpop. now destruct piece. }
  assert (exists pre, fileName = pre ++ piece
            /\ (pre = [] \/ exists pre' c, pre = pre' ++ [c] /\ is_separator c = true))
    as (pre & Hsplit & Hpre).
  { destruct Hshape as [[_ ->]|(pre & c & Hc & -> & _)].
    - exists []. split; [reflexivity|now left].
    - exists (pre ++ [c]). split; [now rewrite <- app_assoc|].
      right. now exists pre, c. }
  exists pre, piece. rewrite Hname.
  repeat split; try assumption.
  - destruct piece; cbn; discriminate.
  - destruct piece; [reflexivity|exact Hfree].
Qed.

(* ================================================================== *)
(** * GHASH's multiplication is the multiplication of a field *)
(* ================================================================== *)

(** Equalities between sums (exclusive or) of the same terms. *)
Ltac xor_solve :=
  apply N.bits_inj; intros ?i;
  rewrite ?N.lxor_spec, ?N.bits_0;
  repeat match goal with
    | |- context [N.testbit ?a ?j] => destruct (N.testbit a j)
    end;
  reflexivity.

Lemma lxor_lt_pow2 n a b : a < 2 ^ n -> b < 2 ^ n -> N.lxor a b < 2 ^ n.
Proof.
  intros Ha Hb.
  destruct (N.eq_dec (N.lxor a b) 0) as [->|Hz]; [apply N.neq_0_lt_0, N.pow_nonzero; lia|].
  apply N.log2_lt_pow2; [lia|].
  pose proof (N.log2_lxor a b) as Hl.
  assert (n <> 0) as Hn.
  { intros ->. assert (a = 0) by (cbn in Ha; lia). assert (b = 0) by (cbn in Hb; lia).
    subst. now apply Hz. }
  assert (forall y, y < 2 ^ n -> N.log2 y < n) as Hlog.
  { intros y Hy. destruct (N.eq_dec y 0) as [->|Hy0]; [cbn; lia|].
    apply N.log2_lt_pow2; [lia | exact Hy]. }
  pose proof (Hlog a Ha). pose proof (Hlog b Hb). lia.
Qed.

Lemma lxor_self_zero a : a = N.lxor a a -> a = 0.
Proof. rewrite N.lxor_nilpotent. auto. Qed.

Lemma R_lt : GCM.R < 2 ^ 128.
Proof. reflexivity. Qed.

Lemma div2_lxor a b : N.lxor a b / 2 = N.lxor (a / 2) (b / 2).
Proof.
  change 2 with (2 ^ 1). rewrite <- !N.shiftr_div_pow2. apply N.shiftr_lxor.
Qed.

Lemma odd_lxor a b : N.odd (N.lxor a b) = xorb (N.odd a) (N.odd b).
Proof. rewrite <- !N.bit0_odd. apply N.lxor_spec. Qed.

Lemma xtimes_lxor a b : GF.xtimes (N.lxor a b) = N.lxor (GF.xtimes a) (GF.xtimes b).
Proof.
  unfold GF.xtimes. rewrite odd_lxor, div2_lxor.
  destruct (N.odd a), (N.odd b); cbn [xorb]; xor_solve.
Qed.

Lemma xtimes_0 : GF.xtimes 0 = 0.
Proof. reflexivity. Qed.

Lemma xtimes_lt V : V < 2 ^ 128 -> GF.xtimes V < 2 ^ 128.
Proof.
  intros HV. unfold GF.xtimes.
  assert (V / 2 < 2 ^ 128) by (apply N.Div0.div_lt_upper_bound; lia).
  destruct (N.odd V); [apply lxor_lt_pow2; [assumption | exact R_lt] | assumption].
Qed.

Lemma xtimes_pow2 k : GF.xtimes (2 ^ N.succ k) = 2 ^ k.
Proof.
  unfold GF.xtimes. rewrite N.pow_succ_r'.
  rewrite N.odd_mul, Bool.andb_false_l.
  rewrite N.mul_comm, N.div_mul by lia. reflexivity.
Qed.

Lemma mul_loop_S n X Z V :
  GCM.mul_loop (S n) X Z V =
  GCM.mul_loop n X (if N.testbit X (N.of_nat n) then N.lxor Z V else Z) (GF.xtimes V).
Proof. reflexivity. Qed.

Lemma mul_loop_lxor_r n X Z Z' V V' :
  GCM.mul_loop n X (N.lxor Z Z') (N.lxor V V')
  = N.lxor (GCM.mul_loop n X Z V) (GCM.mul_loop n X Z' V').
Proof.
  revert Z Z' V V'. induction n as [|n IH]; intros Z Z' V V'; [reflexivity|].
  rewrite !mul_loop_S, xtimes_lxor, <- IH. f_equal.
  destruct (N.testbit X (N.of_nat n)); [xor_solve | reflexivity].
Qed.

Lemma mul_loop_lxor_l n X X' Z Z' V :
  GCM.mul_loop n (N.lxor X X') (N.lxor Z Z') V
  = N.lxor (GCM.mul_loop n X Z V) (GCM.mul_loop n X' Z' V).
Proof.
  revert Z Z' V. induction n as [|n IH]; intros Z Z' V; [reflexivity|].
  rewrite !mul_loop_S, <- IH, N.lxor_spec. f_equal.
  destruct (N.testbit X (N.of_nat n)), (N.testbit X' (N.of_nat n)); cbn [xorb];
    xor_solve.
Qed.

Lemma mul_loop_xtimes n X Z V :
  GCM.mul_loop n X (GF.xtimes Z) (GF.xtimes V) = GF.xtimes (GCM.mul_loop n X Z V).
Proof.
  revert Z V. induction n as [|n IH]; intros Z V; [reflexivity|].
  rewrite !mul_loop_S, <- IH. f_equal.
  destruct (N.testbit X (N.of_nat n)); [now rewrite xtimes_lxor | reflexivity].
Qed.

Lemma mul_loop_lt n X Z V :
  Z < 2 ^ 128 -> V < 2 ^ 128 -> GCM.mul_loop n X Z V < 2 ^ 128.
Proof.
  revert Z V. induction n as [|n IH]; intros Z V HZ HV; [exact HZ|].
  rewrite mul_loop_S. apply IH; [|now apply xtimes_lt].
  destruct (N.testbit X (N.of_nat n)); [now apply lxor_lt_pow2 | exact HZ].
Qed.

Lemma mul_loop_no_bits n X Z V :
  (forall j, (j < n)%nat -> N.testbit X (N.of_nat j) = false) ->
  GCM.mul_loop n X Z V = Z.
Proof.
  revert Z V. induction n as [|n IH]; intros Z V Hbits; [reflexivity|].
  rewrite mul_loop_S, (Hbits n) by lia. apply IH. intros j Hj. apply Hbits. lia.
Qed.

Lemma mod_pow2_succ Y n :
  Y mod 2 ^ N.succ n
  = N.lxor (if N.testbit Y n then 2 ^ n else 0) (Y mod 2 ^ n).
Proof.
  apply N.bits_inj. intros i. rewrite N.lxor_spec.
  destruct (N.lt_ge_cases i (N.succ n)) as [Hi|Hi].
  - rewrite N.mod_pow2_bits_low by exact Hi.
    destruct (N.eq_dec i n) as [->|Hne].
    + rewrite N.mod_pow2_bits_high by lia.
      destruct (N.testbit Y n); [now rewrite N.pow2_bits_true | now rewrite N.bits_0].
    + rewrite N.mod_pow2_bits_low by lia.
      destruct (N.testbit Y n); [rewrite N.pow2_bits_false by lia | rewrite N.bits_0];
        now rewrite Bool.xorb_false_l.
  - rewrite !N.mod_pow2_bits_high by lia.
    destruct (N.testbit Y n); [rewrite N.pow2_bits_false by lia | rewrite N.bits_0];
      reflexivity.
Qed.

Lemma mul_loop_one n Y Z :
  GCM.mul_loop (S n) Y Z (2 ^ N.of_nat n) = N.lxor Z (Y mod 2 ^ N.of_nat (S n)).
Proof.
  revert Z. induction n as [|n IH]; intros Z.
  - rewrite mul_loop_S. cbn [GCM.mul_loop]. change (N.of_nat 1) with (N.succ 0).
    rewrite mod_pow2_succ. change (N.of_nat 0) with 0. change (2 ^ 0) with 1.
    rewrite N.mod_1_r.
    destruct (N.testbit Y 0); xor_solve.
  - rewrite mul_loop_S. rewrite Nat2N.inj_succ, xtimes_pow2, IH.
    rewrite (Nat2N.inj_succ (S n)), (mod_pow2_succ Y (N.of_nat (S n))).
    rewrite <- !Nat2N.inj_succ.
    destruct (N.testbit Y (N.of_nat (S n))); xor_solve.
Qed.

(** ** The ring *)

Lemma mul_unfold X Y : GCM.mul X Y = GCM.mul_loop 128 X 0 Y.
Proof. reflexivity. Qed.

Lemma mul_lxor_r X Y Y' : GCM.mul X (N.lxor Y Y') = N.lxor (GCM.mul X Y) (GCM.mul X Y').
Proof.
  unfold GCM.mul. rewrite <- mul_loop_lxor_r, N.lxor_0_l. reflexivity.
Qed.

Lemma mul_lxor_l X X' Y : GCM.mul (N.lxor X X') Y = N.lxor (GCM.mul X Y) (GCM.mul X' Y).
Proof.
  unfold GCM.mul. rewrite <- mul_loop_lxor_l, N.lxor_0_l. reflexivity.
Qed.

Lemma mul_0_r X : GCM.mul X 0 = 0.
Proof. apply lxor_self_zero. rewrite <- mul_lxor_r, N.lxor_0_l. reflexivity. Qed.

Lemma mul_0_l Y : GCM.mul 0 Y = 0.
Proof. apply lxor_self_zero. rewrite <- mul_lxor_l, N.lxor_0_l. reflexivity. Qed.

Lemma mul_lt X Y : Y < 2 ^ 128 -> GCM.mul X Y < 2 ^ 128.
Proof.
  intros HY. unfold GCM.mul. apply mul_loop_lt; [|exact HY].
  apply N.neq_0_lt_0, N.pow_nonzero. discriminate.
Qed.

Lemma mul_xtimes_r X Y : GCM.mul X (GF.xtimes Y) = GF.xtimes (GCM.mul X Y).
Proof. unfold GCM.mul. rewrite <- mul_loop_xtimes, xtimes_0. reflexivity. Qed.

Lemma mul_one_l Y : GCM.mul GF.one Y = Y.
Proof.
  unfold GCM.mul. rewrite (mul_loop_S 127). change (N.of_nat 127) with 127.
  unfold GF.one. rewrite N.pow2_bits_true, N.lxor_0_l.
  apply mul_loop_no_bits. intros j Hj. apply N.pow2_bits_false. lia.
Qed.

Lemma mul_x_l Y : GCM.mul GF.x Y = GF.xtimes Y.
Proof.
  unfold GCM.mul. rewrite (mul_loop_S 127).
  change (N.of_nat 127) with 127.
  unfold GF.x. rewrite N.pow2_bits_false by lia.
  rewrite (mul_loop_S 126). change (N.of_nat 126) with 126.
  rewrite N.pow2_bits_true, N.lxor_0_l.
  apply mul_loop_no_bits. intros j Hj. apply N.pow2_bits_false. lia.
Qed.

Lemma mul_one_r Y : Y < 2 ^ 128 -> GCM.mul Y GF.one = Y.
Proof.
  intros HY. unfold GCM.mul, GF.one. change 127 with (N.of_nat 127).
  rewrite mul_loop_one, N.lxor_0_l. change (N.of_nat 128) with 128.
  now apply N.mod_small.
Qed.

Lemma mul_left_comm X Y Z : GCM.mul X (GCM.mul Y Z) = GCM.mul Y (GCM.mul X Z).
Proof.
  assert (forall n Z0 V,
            GCM.mul_loop n X (GCM.mul Y Z0) (GCM.mul Y V)
            = GCM.mul Y (GCM.mul_loop n X Z0 V)) as H.
  { induction n as [|n IH]; intros Z0 V; [reflexivity|].
    rewrite !mul_loop_S, <- IH, mul_xtimes_r. f_equal.
    destruct (N.testbit X (N.of_nat n)); [now rewrite mul_lxor_r | reflexivity]. }
  pose proof (H 128%nat 0 Z) as E. rewrite mul_0_r in E.
  rewrite (mul_unfold X (GCM.mul Y Z)), (mul_unfold X Z). exact E.
Qed.

Lemma mul_comm X Y : X < 2 ^ 128 -> Y < 2 ^ 128 -> GCM.mul X Y = GCM.mul Y X.
Proof.
  intros HX HY.
  rewrite <- (mul_one_r Y HY) at 1. rewrite mul_left_comm, (mul_one_r X HX). reflexivity.
Qed.

Lemma mul_assoc X Y Z :
  X < 2 ^ 128 -> Y < 2 ^ 128 -> Z < 2 ^ 128 ->
  GCM.mul (GCM.mul X Y) Z = GCM.mul X (GCM.mul Y Z).
Proof.
  intros HX HY HZ.
  rewrite (mul_comm (GCM.mul X Y) Z (mul_lt X Y HY) HZ).
  rewrite mul_left_comm, (mul_comm Z Y HZ HY). reflexivity.
Qed.

Global Opaque GCM.mul.

(** ** Squaring is additive and multiplicative *)

Lemma sq_lt a : a < 2 ^ 128 -> GF.sq a < 2 ^ 128.
Proof. intros Ha. unfold GF.sq. now apply mul_lt. Qed.

Lemma sq_lxor a b :
  a < 2 ^ 128 -> b < 2 ^ 128 ->
  GF.sq (N.lxor a b) = N.lxor (GF.sq a) (GF.sq b).
Proof.
  intros Ha Hb. unfold GF.sq.
  rewrite !mul_lxor_l, !mul_lxor_r, (mul_comm b a Hb Ha). xor_solve.
Qed.

Lemma sq_mul a b :
  a < 2 ^ 128 -> b < 2 ^ 128 ->
  GF.sq (GCM.mul a b) = GCM.mul (GF.sq a) (GF.sq b).
Proof.
  intros Ha Hb. unfold GF.sq.
  rewrite (mul_assoc a b (GCM.mul a b) Ha Hb (mul_lt a b Hb)).
  rewrite (mul_left_comm b a b).
  rewrite <- (mul_assoc a a (GCM.mul b b) Ha Ha (mul_lt b b Hb)).
  reflexivity.
Qed.

Lemma sq_one : GF.sq GF.one = GF.one.
Proof. unfold GF.sq. apply mul_one_l. Qed.

Lemma frob_S k a : GF.frob (S k) a = GF.sq (GF.frob k a).
Proof. reflexivity. Qed.

Lemma frob_lt k a : a < 2 ^ 128 -> GF.frob k a < 2 ^ 128.
Proof.
  intros Ha. induction k as [|k IH]; [exact Ha|]. rewrite frob_S. now apply sq_lt.
Qed.

Lemma frob_lxor k a b :
  a < 2 ^ 128 -> b < 2 ^ 128 ->
  GF.frob k (N.lxor a b) = N.lxor (GF.frob k a) (GF.frob k b).
Proof.
  intros Ha Hb. induction k as [|k IH]; [reflexivity|].
  rewrite !frob_S, IH. apply sq_lxor; now apply frob_lt.
Qed.

Lemma frob_mul k a b :
  a < 2 ^ 128 -> b < 2 ^ 128 ->
  GF.frob k (GCM.mul a b) = GCM.mul (GF.frob k a) (GF.frob k b).
Proof.
  intros Ha Hb. induction k as [|k IH]; [reflexivity|].
  rewrite !frob_S, IH. apply sq_mul; now apply frob_lt.
Qed.

Lemma frob_one k : GF.frob k GF.one = GF.one.
Proof. induction k as [|k IH]; [reflexivity|]. now rewrite frob_S, IH, sq_one. Qed.

(** ** Additive maps are determined by their values at the powers of 2 *)

Lemma pow2_lxor_low n r : r < 2 ^ n -> 2 ^ n + r = N.lxor (2 ^ n) r.
Proof.
  intros Hr. apply N.add_nocarry_lxor.
  apply N.bits_inj. intros i. rewrite N.land_spec, N.bits_0.
  destruct (N.eq_dec i n) as [->|Hne].
  - destruct (N.eq_dec r 0) as [->|Hr0]; [now rewrite N.bits_0, Bool.andb_false_r|].
    rewrite (N.bits_above_log2 r n), Bool.andb_false_r; [reflexivity|].
    apply N.log2_lt_pow2; [lia | exact Hr].
  - now rewrite N.pow2_bits_false by congruence.
Qed.

Lemma additive_ext (f g : N -> N) :
  (forall a b, a < 2 ^ 128 -> b < 2 ^ 128 -> f (N.lxor a b) = N.lxor (f a) (f b)) ->
  (forall a b, a < 2 ^ 128 -> b < 2 ^ 128 -> g (N.lxor a b) = N.lxor (g a) (g b)) ->
  (forall j, (j < 128)%nat -> f (2 ^ N.of_nat j) = g (2 ^ N.of_nat j)) ->
  forall a, a < 2 ^ 128 -> f a = g a.
Proof.
  intros Hf Hg Hbasis.
  assert (forall h : N -> N,
            (forall a b, a < 2 ^ 128 -> b < 2 ^ 128 ->
                         h (N.lxor a b) = N.lxor (h a) (h b)) -> h 0 = 0) as Hzero.
  { intros h Hh. apply lxor_self_zero. rewrite <- Hh by (apply N.neq_0_lt_0, N.pow_nonzero; discriminate).
    reflexivity. }
  assert (forall n, (n <= 128)%nat -> forall a, a < 2 ^ N.of_nat n -> f a = g a) as H.
  { induction n as [|n IH]; intros Hn a Ha.
    - assert (a = 0) as -> by (cbn in Ha; lia). now rewrite (Hzero f Hf), (Hzero g Hg).
    - destruct (N.lt_ge_cases a (2 ^ N.of_nat n)) as [Hlow|Hhigh]; [apply IH; [lia|exact Hlow]|].
      rewrite Nat2N.inj_succ, N.pow_succ_r' in Ha.
      assert (a - 2 ^ N.of_nat n < 2 ^ N.of_nat n) as Hr by lia.
      assert (a = N.lxor (2 ^ N.of_nat n) (a - 2 ^ N.of_nat n)) as ->.
      { rewrite <- pow2_lxor_low by exact Hr. lia. }
      assert (2 ^ N.of_nat n < 2 ^ 128) as Hp by (apply N.pow_lt_mono_r; lia).
      assert (a - 2 ^ N.of_nat n < 2 ^ 128) as Hr' by lia.
      rewrite Hf, Hg by assumption.
      rewrite (Hbasis n) by lia. rewrite (IH ltac:(lia) _ Hr). reflexivity. }
  intros a Ha. apply (H 128%nat); [lia | exact Ha].
Qed.

(** ** a^(2^128) = a *)

Lemma frob_128_x : GF.frob 128 GF.x = GF.x.
Proof. vm_compute. reflexivity. Qed.

Lemma iter_xtimes_one i :
  (i <= 127)%nat -> Nat.iter i GF.xtimes GF.one = 2 ^ N.of_nat (127 - i).
Proof.
  induction i as [|i IH]; intros Hi; [reflexivity|].
  rewrite Nat.iter_succ, IH by lia.
  replace (127 - i)%nat with (S (127 - S i)) by lia.
  rewrite Nat2N.inj_succ. apply xtimes_pow2.
Qed.

Lemma iter_xtimes_lt i a : a < 2 ^ 128 -> Nat.iter i GF.xtimes a < 2 ^ 128.
Proof.
  intros Ha. induction i as [|i IH]; [exact Ha|].
  rewrite Nat.iter_succ. now apply xtimes_lt.
Qed.

Lemma x_lt : GF.x < 2 ^ 128.
Proof. reflexivity. Qed.

Lemma one_lt : GF.one < 2 ^ 128.
Proof. reflexivity. Qed.

Lemma frob_128_pow2 j : (j < 128)%nat -> GF.frob 128 (2 ^ N.of_nat j) = 2 ^ N.of_nat j.
Proof.
  intros Hj.
  assert (forall i, GF.frob 128 (Nat.iter i GF.xtimes GF.one)
                    = Nat.iter i GF.xtimes GF.one) as H.
  { induction i as [|i IH]; [apply frob_one|].
    rewrite Nat.iter_succ, <- mul_x_l.
    rewrite frob_mul by (try exact x_lt; apply iter_xtimes_lt, one_lt).
    now rewrite frob_128_x, IH. }
  specialize (H (127 - j)%nat). rewrite iter_xtimes_one in H by lia.
  replace (127 - (127 - j))%nat with j in H by lia. exact H.
Qed.

Lemma frob_128 a : a < 2 ^ 128 -> GF.frob 128 a = a.
Proof.
  apply (additive_ext (GF.frob 128) (fun a => a)).
  - intros; now apply frob_lxor.
  - reflexivity.
  - apply frob_128_pow2.
Qed.

(** ** The only idempotents are 0 and 1 *)

Lemma apply_rows_lxor rows j a b :
  GF.apply_rows rows j (N.lxor a b)
  = N.lxor (GF.apply_rows rows j a) (GF.apply_rows rows j b).
Proof.
  revert j. induction rows as [|r rows IH]; intros j; [reflexivity|].
  cbn [GF.apply_rows]. rewrite IH, N.lxor_spec.
  destruct (N.testbit a (N.of_nat j)), (N.testbit b (N.of_nat j)); cbn [xorb];
    xor_solve.
Qed.

Lemma artin_lxor a b :
  a < 2 ^ 128 -> b < 2 ^ 128 ->
  GF.artin (N.lxor a b) = N.lxor (GF.artin a) (GF.artin b).
Proof. intros Ha Hb. unfold GF.artin. rewrite sq_lxor by assumption. xor_solve. Qed.

Lemma artin_section_pow2 :
  forallb (fun j => GF.apply_rows GF.artin_section 0 (GF.artin (2 ^ N.of_nat j))
                    =? N.land (2 ^ N.of_nat j) (N.ones 127))
    (seq 0 128) = true.
Proof. vm_compute. reflexivity. Qed.

Lemma artin_section_spec a :
  a < 2 ^ 128 ->
  GF.apply_rows GF.artin_section 0 (GF.artin a) = N.land a (N.ones 127).
Proof.
  apply (additive_ext (fun a => GF.apply_rows GF.artin_section 0 (GF.artin a))
           (fun a => N.land a (N.ones 127))).
  - intros a0 b0 Ha Hb. now rewrite artin_lxor, apply_rows_lxor.
  - intros a0 b0 _ _. apply N.bits_inj. intros i.
    rewrite N.lxor_spec, !N.land_spec, N.lxor_spec.
    now destruct (N.testbit a0 i), (N.testbit b0 i), (N.testbit (N.ones 127) i).
  - intros j Hj. pose proof artin_section_pow2 as H.
    rewrite forallb_forall in H. apply N.eqb_eq. apply (H j). apply in_seq. lia.
Qed.

Lemma idempotent a : a < 2 ^ 128 -> GF.sq a = a -> a = 0 \/ a = GF.one.
Proof.
  intros Ha Hsq.
  pose proof (artin_section_spec a Ha) as H.
  unfold GF.artin in H. rewrite Hsq, N.lxor_nilpotent in H.
  change (GF.apply_rows GF.artin_section 0 0) with 0 in H.
  rewrite N.land_ones in H. unfold GF.one. symmetry in H.
  change (2 ^ 128) with (2 * 2 ^ 127) in Ha. lia.
Qed.

(** ** Every block but 0 has an inverse *)

Lemma norm_lt n a : a < 2 ^ 128 -> GF.norm n a < 2 ^ 128.
Proof.
  intros Ha. destruct n as [|n]; [exact one_lt|]. cbn [GF.norm].
  apply mul_lt. now apply frob_lt.
Qed.

Lemma conorm_lt n a : a < 2 ^ 128 -> GF.conorm n a < 2 ^ 128.
Proof.
  intros Ha. destruct n as [|n]; [exact one_lt|]. cbn [GF.conorm].
  apply mul_lt. now apply frob_lt.
Qed.

Lemma norm_conorm n a : a < 2 ^ 128 -> GF.norm (S n) a = GCM.mul a (GF.conorm n a).
Proof.
  intros Ha. induction n as [|n IH].
  - cbn [GF.norm GF.conorm GF.frob Nat.iter]. now rewrite mul_one_l, mul_one_r.
  - change (GF.norm (S (S n)) a) with (GCM.mul (GF.norm (S n) a) (GF.frob (S n) a)).
    rewrite IH. cbn [GF.conorm].
    apply mul_assoc; [exact Ha | now apply conorm_lt | now apply frob_lt].
Qed.

Lemma sq_norm n a : a < 2 ^ 128 -> GF.sq (GF.norm n a) = GF.conorm n a.
Proof.
  intros Ha. induction n as [|n IH]; [exact sq_one|].
  cbn [GF.norm GF.conorm].
  rewrite sq_mul by (try apply norm_lt; try apply frob_lt; exact Ha).
  now rewrite IH, <- frob_S.
Qed.

Lemma mul_norm n a : a < 2 ^ 128 -> GCM.mul a (GF.norm n a) = GF.frob n a.
Proof.
  intros Ha. induction n as [|n IH]; [now apply mul_one_r|].
  cbn [GF.norm].
  rewrite <- mul_assoc by (try apply norm_lt; try apply frob_lt; exact Ha).
  rewrite IH. reflexivity.
Qed.

Lemma inverse_lt a : a < 2 ^ 128 -> GF.inverse a < 2 ^ 128.
Proof. apply conorm_lt. Qed.

Lemma mul_inverse a : a < 2 ^ 128 -> a <> 0 -> GCM.mul a (GF.inverse a) = GF.one.
Proof.
  intros Ha Hnz. unfold GF.inverse. rewrite <- norm_conorm by exact Ha.
  assert (GF.sq (GF.norm 128 a) = GF.norm 128 a) as Hid.
  { rewrite sq_norm by exact Ha.
    change (GF.conorm 128 a) with (GCM.mul (GF.conorm 127 a) (GF.frob 128 a)).
    rewrite frob_128 by exact Ha.
    rewrite (mul_comm _ a (conorm_lt 127 a Ha) Ha).
    symmetry. now apply norm_conorm. }
  destruct (idempotent _ (norm_lt 128 a Ha) Hid) as [Hz|Ho]; [|exact Ho].
  exfalso. apply Hnz.
  rewrite <- (frob_128 a Ha), <- (mul_norm 128 a Ha), Hz. apply mul_0_r.
Qed.

(** GHASH's multiplication has no zero divisors. *)
Lemma mul_eq_0 a b :
  a < 2 ^ 128 -> b < 2 ^ 128 -> GCM.mul a b = 0 -> a = 0 \/ b = 0.
Proof.
  intros Ha Hb Hab.
  destruct (N.eq_dec a 0) as [Hz|Hnz]; [now left|right].
  rewrite <- (mul_one_l b), <- (mul_inverse a Ha Hnz).
  rewrite (mul_comm a _ Ha (inverse_lt a Ha)).
  rewrite (mul_assoc _ a b (inverse_lt a Ha) Ha Hb), Hab. apply mul_0_r.
Qed.

Lemma mul_neq_0 a b :
  a < 2 ^ 128 -> b < 2 ^ 128 -> a <> 0 -> b <> 0 -> GCM.mul a b <> 0.
Proof. intros Ha Hb Hza Hzb H. destruct (mul_eq_0 a b Ha Hb H); contradiction. Qed.

(* ================================================================== *)
(** * What a change of the ciphertext does to the tag *)
(* ================================================================== *)

Lemma fold_left_step {A B} (f : A -> B -> A) x l a :
  fold_left f (x :: l) a = fold_left f l (f a x).
Proof. reflexivity. Qed.

Lemma GHASH_unfold H B :
  GCM.GHASH H B = fold_left (fun Y X => GCM.mul (N.lxor Y X) H) B 0.
Proof. reflexivity. Qed.

Lemma lxor_cancel_r a b c : N.lxor a c = N.lxor b c -> a = b.
Proof.
  intros H. apply N.lxor_eq.
  replace (N.lxor a b) with (N.lxor (N.lxor a c) (N.lxor b c)) by xor_solve.
  rewrite H. apply N.lxor_nilpotent.
Qed.

Lemma lxor_cancel_l a b c : N.lxor c a = N.lxor c b -> a = b.
Proof. rewrite !(N.lxor_comm c). apply lxor_cancel_r. Qed.

Lemma GHASH_fold_lt H B Y :
  H < 2 ^ 128 -> Y < 2 ^ 128 ->
  fold_left (fun Y X => GCM.mul (N.lxor Y X) H) B Y < 2 ^ 128.
Proof.
  intros HH. revert Y. induction B as [|X B IH]; intros Y HY; [exact HY|].
  rewrite fold_left_step. apply IH. apply mul_lt. exact HH.
Qed.

Lemma GHASH_lt H B : H < 2 ^ 128 -> GCM.GHASH H B < 2 ^ 128.
Proof.
  intros HH. rewrite GHASH_unfold. apply GHASH_fold_lt; [exact HH|].
  apply N.neq_0_lt_0, N.pow_nonzero. discriminate.
Qed.

Lemma mul_r_inj H a b :
  H < 2 ^ 128 -> H <> 0 -> a < 2 ^ 128 -> b < 2 ^ 128 ->
  GCM.mul a H = GCM.mul b H -> a = b.
Proof.
  intros HH Hnz Ha Hb Heq.
  assert (GCM.mul (N.lxor a b) H = 0) as Hz
    by (rewrite mul_lxor_l, Heq; apply N.lxor_nilpotent).
  destruct (mul_eq_0 _ _ (lxor_lt_pow2 128 a b Ha Hb) HH Hz) as [Hab|]; [|contradiction].
  now apply N.lxor_eq.
Qed.

Lemma GHASH_fold_inj H B Y Y' :
  H < 2 ^ 128 -> H <> 0 -> Y < 2 ^ 128 -> Y' < 2 ^ 128 -> Y <> Y' ->
  fold_left (fun Y X => GCM.mul (N.lxor Y X) H) B Y
  <> fold_left (fun Y X => GCM.mul (N.lxor Y X) H) B Y'.
Proof.
  intros HH Hnz. revert Y Y'. induction B as [|X B IH]; intros Y Y' HY HY' Hne;
    [exact Hne|].
  rewrite !fold_left_step. apply IH; try (apply mul_lt; exact HH).
  intros Heq.
  assert (GCM.mul Y H = GCM.mul Y' H) as Heq'.
  { rewrite !mul_lxor_l in Heq. exact (lxor_cancel_r _ _ _ Heq). }
  apply Hne. exact (mul_r_inj H Y Y' HH Hnz HY HY' Heq').
Qed.

(** Changing one block changes GHASH, unless the hash subkey is 0. *)
Lemma GHASH_change H B1 b b' B2 :
  H < 2 ^ 128 -> H <> 0 -> b < 2 ^ 128 -> b' < 2 ^ 128 -> b <> b' ->
  GCM.GHASH H (B1 ++ b :: B2) <> GCM.GHASH H (B1 ++ b' :: B2).
Proof.
  intros HH Hnz Hb Hb' Hne. rewrite !GHASH_unfold, !fold_left_app.
  rewrite !fold_left_step.
  set (Y := fold_left (fun Y X => GCM.mul (N.lxor Y X) H) B1 0).
  apply GHASH_fold_inj; try assumption; try (apply mul_lt; exact HH).
  intros Heq. rewrite !mul_lxor_l in Heq. apply lxor_cancel_l in Heq.
  apply Hne. exact (mul_r_inj H b b' HH Hnz Hb Hb' Heq).
Qed.

Lemma GHASH_subkey_0 B : GCM.GHASH 0 B = 0.
Proof.
  rewrite GHASH_unfold.
  assert (forall Y, Y = 0 -> fold_left (fun Y X => GCM.mul (N.lxor Y X) 0) B Y = 0) as H.
  { induction B as [|X B IH]; intros Y HY; [exact HY|].
    rewrite fold_left_step. apply IH. apply mul_0_r. }
  apply H. reflexivity.
Qed.

(** ** Blocks and octets *)

Lemma block_of_bytes_snoc b x :
  block_of_bytes (b ++ [x]) = block_of_bytes b * 256 + N_of_byte x.
Proof. unfold block_of_bytes. now rewrite fold_left_app. Qed.

Lemma block_of_bytes_app a b :
  block_of_bytes (a ++ b)
  = block_of_bytes a * 256 ^ N.of_nat (length b) + block_of_bytes b.
Proof.
  induction b as [|x b IH] using rev_ind.
  - rewrite app_nil_r. cbn. lia.
  - rewrite app_assoc, !block_of_bytes_snoc, IH, length_app. cbn [length].
    replace (N.of_nat (length b + 1)) with (N.succ (N.of_nat (length b))) by lia.
    rewrite N.pow_succ_r'. lia.
Qed.

Lemma block_of_bytes_lt b : block_of_bytes b < 256 ^ N.of_nat (length b).
Proof.
  induction b as [|x b IH] using rev_ind; [cbn; lia|].
  rewrite block_of_bytes_snoc, length_app. cbn [length].
  replace (N.of_nat (length b + 1)) with (N.succ (N.of_nat (length b))) by lia.
  rewrite N.pow_succ_r'. pose proof (N_of_byte_lt x). lia.
Qed.

Lemma N_of_byte_inj x y : N_of_byte x = N_of_byte y -> x = y.
Proof.
  intros H. rewrite <- (byte_of_N_of_byte x), <- (byte_of_N_of_byte y). now rewrite H.
Qed.

Lemma padded_block_lt chunk : (length chunk <= 16)%nat -> GCM.padded_block chunk < 2 ^ 128.
Proof.
  intros Hlen. unfold GCM.padded_block.
  pose proof (block_of_bytes_lt chunk) as Hb.
  change (2 ^ 128) with (256 ^ 16).
  replace 16 with (N.of_nat (length chunk) + N.of_nat (16 - length chunk)) by lia.
  rewrite N.pow_add_r.
  apply N.mul_lt_mono_pos_r; [|exact Hb].
  apply N.neq_0_lt_0, N.pow_nonzero. discriminate.
Qed.

Lemma padded_block_change a x x' f :
  x <> x' ->
  GCM.padded_block (a ++ x :: f) <> GCM.padded_block (a ++ x' :: f).
Proof.
  intros Hne. unfold GCM.padded_block.
  rewrite !length_app. cbn [length].
  intros Heq. apply N.mul_cancel_r in Heq; [|apply N.pow_nonzero; discriminate].
  rewrite !block_of_bytes_app in Heq. cbn [length] in Heq.
  change (x :: f) with ([x] ++ f) in Heq. change (x' :: f) with ([x'] ++ f) in Heq.
  rewrite !block_of_bytes_app in Heq.
  change (block_of_bytes [x]) with (N_of_byte x) in Heq.
  change (block_of_bytes [x']) with (N_of_byte x') in Heq.
  apply Hne, N_of_byte_inj.
  assert (256 ^ N.of_nat (length f) <> 0) as Hp by (apply N.pow_nonzero; discriminate).
  cbn [length app] in Heq. nia.
Qed.

Lemma blocks_nil : GCM.blocks [] = [].
Proof. reflexivity. Qed.

Lemma blocks_cons b :
  b <> [] ->
  GCM.blocks b = GCM.padded_block (firstn 16 b) :: GCM.blocks (skipn 16 b).
Proof. intros Hb. unfold GCM.blocks. rewrite chunks_cons by (auto; lia). reflexivity. Qed.

(** Changing one octet changes one block. *)
Lemma blocks_change l1 x x' l2 :
  x <> x' ->
  exists B1 b b' B2,
    GCM.blocks (l1 ++ x :: l2) = B1 ++ b :: B2
    /\ GCM.blocks (l1 ++ x' :: l2) = B1 ++ b' :: B2
    /\ b < 2 ^ 128 /\ b' < 2 ^ 128 /\ b <> b'.
Proof.
  intros Hne.
  assert (forall n l1, length l1 = n ->
            exists B1 b b' B2,
              GCM.blocks (l1 ++ x :: l2) = B1 ++ b :: B2
              /\ GCM.blocks (l1 ++ x' :: l2) = B1 ++ b' :: B2
              /\ b < 2 ^ 128 /\ b' < 2 ^ 128 /\ b <> b') as H.
  { induction n as [n IH] using lt_wf_ind. intros l Hl.
    destruct (Nat.lt_ge_cases n 16) as [Hshort|Hlong].
    - exists [], (GCM.padded_block (l ++ x :: firstn (15 - n) l2)),
        (GCM.padded_block (l ++ x' :: firstn (15 - n) l2)),
        (GCM.blocks (skipn (15 - n) l2)).
      assert (forall y, firstn 16 (l ++ y :: l2) = l ++ y :: firstn (15 - n) l2) as Hf.
      { intros y. rewrite firstn_app, Hl, firstn_all2 by lia.
        replace (16 - n)%nat with (S (15 - n)) by lia. reflexivity. }
      assert (forall y, skipn 16 (l ++ y :: l2) = skipn (15 - n) l2) as Hs.
      { intros y. rewrite skipn_app, Hl, skipn_all2 by lia.
        replace (16 - n)%nat with (S (15 - n)) by lia. reflexivity. }
      assert (forall y, (length (l ++ y :: firstn (15 - n) l2) <= 16)%nat) as Hlen.
      { intros y. rewrite length_app. cbn [length]. rewrite length_firstn. lia. }
      repeat split.
      + rewrite blocks_cons by (now destruct l). now rewrite Hf, Hs.
      + rewrite blocks_cons by (now destruct l). now rewrite Hf, Hs.
      + apply padded_block_lt, Hlen.
      + apply padded_block_lt, Hlen.
      + now apply padded_block_change.
    - destruct (IH (n - 16)%nat ltac:(lia) (skipn 16 l)) as (B1 & b & b' & B2 & E1 & E2 & Hb).
      { rewrite length_skipn. lia. }
      exists (GCM.padded_block (firstn 16 l) :: B1), b, b', B2.
      assert (forall y, firstn 16 (l ++ y :: l2) = firstn 16 l) as Hf.
      { intros y. rewrite firstn_app, Hl.
        replace (16 - n)%nat with 0%nat by lia. cbn [firstn]. apply app_nil_r. }
      assert (forall y, skipn 16 (l ++ y :: l2) = skipn 16 l ++ y :: l2) as Hs.
      { intros y. rewrite skipn_app, Hl.
        replace (16 - n)%nat with 0%nat by lia. reflexivity. }
      repeat split; try apply Hb.
      + rewrite blocks_cons by (now destruct l). now rewrite Hf, Hs, E1.
      + rewrite blocks_cons by (now destruct l). now rewrite Hf, Hs, E2. }
  exact (H (length l1) l1 eq_refl).
Qed.

Lemma N_of_byte_of_N_mod n : N_of_byte (byte_of_N n) = n mod 256.
Proof.
  assert (byte_of_N n = byte_of_N (n mod 256)) as ->
    by (unfold byte_of_N; now rewrite N.Div0.mod_mod).
  apply N_of_byte_of_N. apply N.mod_upper_bound. discriminate.
Qed.

Lemma block_of_be_bytes k n :
  n < 256 ^ N.of_nat k ->
  block_of_bytes (map (fun i => byte_of_N (n / 256 ^ N.of_nat (k - 1 - i))) (seq 0 k)) = n.
Proof.
  revert n. induction k as [|k IH]; intros n Hn; [cbn in *; lia|].
  rewrite seq_S, map_app. cbn [map Nat.add]. rewrite block_of_bytes_snoc.
  replace (S k - 1 - k)%nat with 0%nat by lia.
  change (256 ^ N.of_nat 0) with 1. rewrite N.div_1_r, N_of_byte_of_N_mod.
  rewrite (map_ext_in _ (fun i => byte_of_N (n / 256 / 256 ^ N.of_nat (k - 1 - i)))).
  - rewrite IH.
    + pose proof (N.div_mod n 256 ltac:(discriminate)). lia.
    + rewrite Nat2N.inj_succ, N.pow_succ_r' in Hn.
      apply N.Div0.div_lt_upper_bound. lia.
  - intros i Hi. apply in_seq in Hi. f_equal.
    rewrite N.Div0.div_div. f_equal.
    replace (S k - 1 - i)%nat with (S (k - 1 - i)) by lia.
    now rewrite Nat2N.inj_succ, N.pow_succ_r'.
Qed.

Lemma block_of_bytes_of_block n : n < 2 ^ 128 -> block_of_bytes (bytes_of_block n) = n.
Proof. intros Hn. apply (block_of_be_bytes 16 n). exact Hn. Qed.

Lemma bytes_of_block_inj a b :
  a < 2 ^ 128 -> b < 2 ^ 128 -> bytes_of_block a = bytes_of_block b -> a = b.
Proof.
  intros Ha Hb H.
  rewrite <- (block_of_bytes_of_block a Ha), <- (block_of_bytes_of_block b Hb).
  now rewrite H.
Qed.

Lemma encrypt_block_lt key block : AES.encrypt_block key block < 2 ^ 128.
Proof.
  unfold AES.encrypt_block, AES.Cipher. cbv zeta.
  set (s := fold_left _ _ _). set (rk := AES.round_key _ 14).
  pose proof (block_of_bytes_lt
                (map byte_of_N (AES.AddRoundKey (AES.ShiftRows (AES.SubBytes s)) rk)))
    as Hlt.
  eapply N.lt_le_trans; [exact Hlt|].
  change (2 ^ 128) with (256 ^ N.of_nat 16).
  apply N.pow_le_mono_r; [discriminate|].
  rewrite length_map. unfold AES.AddRoundKey, AES.xor_bytes.
  rewrite length_map, length_combine. unfold AES.ShiftRows. rewrite length_map.
  cbn [length]. lia.
Qed.

Lemma hash_subkey_lt key : GCM.hash_subkey key < 2 ^ 128.
Proof. unfold GCM.hash_subkey. exact (encrypt_block_lt key 0). Qed.

Lemma tag_unfold k n C : GCM.tag k n [] C = bytes_of_block (tag_number k n C).
Proof.
  unfold GCM.tag, tag_number. cbv zeta. rewrite blocks_nil.
  change (GCM.bit_length []) with 0. rewrite N.mul_0_l, N.add_0_l, app_nil_l.
  reflexivity.
Qed.

Lemma tag_number_lt k n C : tag_number k n C < 2 ^ 128.
Proof.
  unfold tag_number.
  apply lxor_lt_pow2; [apply GHASH_lt, hash_subkey_lt | apply encrypt_block_lt].
Qed.

(** Two tags are equal exactly when their blocks are. *)
Lemma tag_eq_iff k n C k' n' C' :
  GCM.tag k n [] C = GCM.tag k' n' [] C' <-> tag_number k n C = tag_number k' n' C'.
Proof.
  rewrite !tag_unfold. split; [|now intros ->].
  apply bytes_of_block_inj; apply tag_number_lt.
Qed.

(** One octet of the ciphertext changed: another tag, unless the hash
    subkey is 0. *)
Lemma tag_change k n l1 x x' l2 :
  GCM.hash_subkey k <> 0 -> x <> x' ->
  GCM.tag k n [] (l1 ++ x :: l2) <> GCM.tag k n [] (l1 ++ x' :: l2).
Proof.
  intros HH Hne Heq. apply tag_eq_iff in Heq. unfold tag_number in Heq.
  apply lxor_cancel_r in Heq.
  destruct (blocks_change l1 x x' l2 Hne) as (B1 & b & b' & B2 & E1 & E2 & Hb & Hb' & Hbb).
  assert (GCM.bit_length (l1 ++ x :: l2) = GCM.bit_length (l1 ++ x' :: l2)) as Hlen
    by (unfold GCM.bit_length; now rewrite !length_app).
  rewrite E1, E2, Hlen, <- !app_assoc, <- !app_comm_cons in Heq.
  exact (GHASH_change _ B1 b b' _ (hash_subkey_lt k) HH Hb Hb' Hbb Heq).
Qed.

(** With the hash subkey 0 the tag does not depend on the ciphertext. *)
Lemma tag_subkey_0 k n C C' :
  GCM.hash_subkey k = 0 -> GCM.tag k n [] C = GCM.tag k n [] C'.
Proof.
  intros HH. apply tag_eq_iff. unfold tag_number. rewrite HH, !GHASH_subkey_0.
  reflexivity.
Qed.

(* ================================================================== *)
(** * What [decrypt] refuses *)
(* ================================================================== *)

Lemma fails_with_authentication {A} (c : Completion A) :
  fails_with c AuthenticationFailure <-> c = Throw ERR_AUTHENTICATE.
Proof.
  split.
  - intros (e & -> & He). now destruct e.
  - intros ->. exists ERR_AUTHENTICATE. split; reflexivity.
Qed.

(** Opening under a key of 32 octets an envelope with an accepted nonce and
    a tag of 16 octets: refused exactly when the block of the recomputed
    tag is not the block the supplied tag was written from. *)
Lemma open_refused E k (t : N) :
  length k = 32%nat ->
  iv_accepted (Buffer_from_base64 (iv E)) ->
  Buffer_from_base64 (tag E) = bytes_of_block t ->
  t < 2 ^ 128 ->
  (tag_number k (Buffer_from_base64 (iv E)) (Buffer_from_base64 (ciphertext E)) <> t
   <-> fails_with (open E k) AuthenticationFailure)
  /\ (tag_number k (Buffer_from_base64 (iv E)) (Buffer_from_base64 (ciphertext E)) = t ->
      open E k = Normal (Buffer_toString_utf8
                           (GCM.crypt k (Buffer_from_base64 (iv E))
                              (Buffer_from_base64 (ciphertext E))))).
Proof.
  intros Hk Hn Ht Hlt.
  assert (length (Buffer_from_base64 (tag E)) = 16%nat) as Hlen
    by (rewrite Ht; apply bytes_of_block_length).
  destruct (open_outcome E k Hk Hn Hlen) as [Hne Heq].
  rewrite Ht, tag_unfold in Hne, Heq.
  assert (tag_number k (Buffer_from_base64 (iv E)) (Buffer_from_base64 (ciphertext E)) = t
          -> open E k = Normal (Buffer_toString_utf8
                                  (GCM.crypt k (Buffer_from_base64 (iv E))
                                     (Buffer_from_base64 (ciphertext E))))) as Hsame.
  { intros H. apply Heq. now rewrite H. }
  split; [|exact Hsame].
  rewrite fails_with_authentication. split.
  - intros H. apply Hne. intros Hb. apply H.
    exact (bytes_of_block_inj _ _ (tag_number_lt _ _ _) Hlt Hb).
  - intros Hthrow Hnum. rewrite (Hsame Hnum) in Hthrow. discriminate Hthrow.
Qed.

(** C2, as stated, does not hold for every other key: the tag of AES-GCM
    does not commit to the key.  The envelope [encrypt] makes of these 32
    characters with the key drawn by [example_rng] carries a tag that is
    also the tag under [another_key], and [decrypt] with that key returns
    text, which is not the plaintext. *)
Lemma decrypt_accepts_another_key :
  exists r q,
    fst (encrypt (js "5,TiydMyBji6az2fG}3U@%PucDf1FBup") example_rng) = Normal r
    /\ fromBase64Url (key r) = Normal (map example_rng (seq 0 32))
    /\ length another_key = 32%nat
    /\ another_key <> map example_rng (seq 0 32)
    /\ decrypt (encrypted r) (toBase64Url another_key) = Normal q
    /\ q <> js "5,TiydMyBji6az2fG}3U@%PucDf1FBup".
Proof.
  eexists. eexists. split; [vm_compute; reflexivity|].
  split; [vm_compute; reflexivity|].
  split; [reflexivity|].
  split; [intros H; vm_compute in H; discriminate H|].
  split; [vm_compute; reflexivity|].
  intros H. discriminate H.
Qed.

(** C2, amended.  For every envelope and key produced by [encrypt], with k
    the 32 octets of the key, n the nonce and C the ciphertext octets:
    - an envelope that differs in the octets of the tag (16 of them) is
      refused with AuthenticationFailure;
    - an envelope that differs in one octet of the ciphertext is refused
      with AuthenticationFailure, unless the hash subkey AES_k(0) is 0, in
      which case every ciphertext is accepted;
    - with another key of 32 octets, the envelope is refused with
      AuthenticationFailure exactly when the block of the tag computed
      under that key differs from the block under k, and text is returned
      otherwise;
    - a refused call returns no plaintext. *)
Theorem decrypt_fails_closed (p : JSString) (rng : RandomSource) :
  let k := fst (generateKey rng) in
  let n := fst (randomBytes IV_LENGTH (snd (generateKey rng))) in
  let C := GCM.crypt k n (Buffer_from_utf8 p) in
  exists r,
    fst (encrypt p rng) = Normal r
    /\ fromBase64Url (key r) = Normal k
    /\ Buffer_from_base64 (ciphertext (encrypted r)) = C
    /\ (forall t',
          length (Buffer_from_base64 t') = 16%nat ->
          Buffer_from_base64 t' <> Buffer_from_base64 (tag (encrypted r)) ->
          fails_with
            (decrypt {| ciphertext := ciphertext (encrypted r);
                        iv := iv (encrypted r); tag := t' |} (key r))
            AuthenticationFailure)
    /\ (GCM.hash_subkey k <> 0 ->
        forall c' l1 x x' l2,
          C = l1 ++ x :: l2 ->
          Buffer_from_base64 c' = l1 ++ x' :: l2 ->
          x <> x' ->
          fails_with
            (decrypt {| ciphertext := c'; iv := iv (encrypted r);
                        tag := tag (encrypted r) |} (key r))
            AuthenticationFailure)
    /\ (GCM.hash_subkey k = 0 ->
        forall c',
          decrypt {| ciphertext := c'; iv := iv (encrypted r);
                     tag := tag (encrypted r) |} (key r)
          = Normal (Buffer_toString_utf8 (GCM.crypt k n (Buffer_from_base64 c'))))
    /\ (forall K' k',
          fromBase64Url K' = Normal k' ->
          length k' = 32%nat ->
          (tag_number k' n C <> tag_number k n C
           <-> fails_with (decrypt (encrypted r) K') AuthenticationFailure)
          /\ (tag_number k' n C = tag_number k n C ->
              decrypt (encrypted r) K'
              = Normal (Buffer_toString_utf8 (GCM.crypt k' n C))))
    /\ (forall E' K' e s, decrypt E' K' = Throw e -> decrypt E' K' <> Normal s).
Proof.
  cbv zeta.
  set (k := fst (generateKey rng)).
  set (n := fst (randomBytes IV_LENGTH (snd (generateKey rng)))).
  eexists. split; [apply encrypt_returns|].
  cbn [encrypted key]. fold k. fold n.
  pose proof (randomBytes_length KEY_LENGTH rng) as Hk. fold (generateKey rng) in Hk.
  fold k in Hk.
  pose proof (iv_accepted_12 n (randomBytes_length _ _)) as Hn.
  destruct (sealed_fields p k n) as (Hiv & HC & Ht).
  rewrite tag_unfold in Ht.
  split; [apply fromBase64Url_toBase64Url|]. split; [exact HC|].
  split; [|split; [|split; [|split]]].
  - intros t' Hlen Hdiff. rewrite decrypt_own_key.
    set (E' := {| ciphertext := ciphertext (sealed p k n);
                  iv := iv (sealed p k n); tag := t' |}).
    assert (iv_accepted (Buffer_from_base64 (iv E'))) as Hn'
      by (cbn [iv E']; now rewrite Hiv).
    destruct (open_outcome E' k Hk Hn' Hlen) as [Hne _].
    rewrite Hne; [apply (fails_with_throw ERR_AUTHENTICATE)|].
    cbn [iv ciphertext tag E']. rewrite Hiv, HC, tag_unfold.
    rewrite Ht in Hdiff. auto.
  - intros HH c' l1 x x' l2 HCl HC' Hne. rewrite decrypt_own_key.
    set (E' := {| ciphertext := c'; iv := iv (sealed p k n);
                  tag := tag (sealed p k n) |}).
    assert (iv_accepted (Buffer_from_base64 (iv E'))) as Hn'
      by (cbn [iv E']; now rewrite Hiv).
    destruct (open_refused E' k _ Hk Hn' Ht (tag_number_lt _ _ _)) as [Hiff _].
    apply Hiff. cbn [iv ciphertext E']. rewrite Hiv, HC', HCl.
    intros Heq. apply tag_eq_iff in Heq. symmetry in Heq.
    exact (tag_change k n l1 x x' l2 HH Hne Heq).
  - intros HH c'. rewrite decrypt_own_key.
    set (E' := {| ciphertext := c'; iv := iv (sealed p k n);
                  tag := tag (sealed p k n) |}).
    assert (iv_accepted (Buffer_from_base64 (iv E'))) as Hn'
      by (cbn [iv E']; now rewrite Hiv).
    destruct (open_refused E' k _ Hk Hn' Ht (tag_number_lt _ _ _)) as [_ Hsame].
    cbn [iv ciphertext E'] in Hsame. rewrite Hiv in Hsame. apply Hsame.
    apply tag_eq_iff. now apply tag_subkey_0.
  - intros K' k' HK' Hk'.
    assert (decrypt (sealed p k n) K' = open (sealed p k n) k') as ->
      by (unfold decrypt; now rewrite HK').
    assert (iv_accepted (Buffer_from_base64 (iv (sealed p k n)))) as Hn'
      by now rewrite Hiv.
    destruct (open_refused (sealed p k n) k' _ Hk' Hn' Ht (tag_number_lt _ _ _))
      as [Hiff Hsame].
    rewrite Hiv, HC in Hiff, Hsame. split; assumption.
  - intros E' K' e s H. rewrite H. discriminate.
Qed.

Lemma decrypt_fails_closed_witness :
  exists r,
    fst (encrypt (js "Hello, World!") example_rng) = Normal r
    /\ fails_with
         (decrypt {| ciphertext := js "48OnvrogDDQakfekfQ==";
                     iv := iv (encrypted r); tag := tag (encrypted r) |} (key r))
         AuthenticationFailure
    /\ fails_with (decrypt (encrypted r) (toBase64Url another_key))
         AuthenticationFailure.
Proof.
  destruct (decrypt_fails_closed (js "Hello, World!") example_rng)
    as (r & Henc & _ & _ & _ & Hct & _ & Hkey & _).
  exists r. split; [exact Henc|]. split.
  - apply (Hct ltac:(vm_compute; discriminate) (js "48OnvrogDDQakfekfQ==")
             (hex_bytes "e3c3a7beba200c341a91f7a4") x7c x7d []).
    + vm_compute. reflexivity.
    + vm_compute. reflexivity.
    + discriminate.
  - apply (Hkey (toBase64Url another_key) another_key).
    + apply fromBase64Url_toBase64Url.
    + reflexivity.
    + vm_compute. discriminate.
Defined.

(* ================================================================== *)
(** * Password mode *)
(* ================================================================== *)


